(** * Fluxity document processor: block-graph decoder and ERP field validation

    A shallow embedding of
      - [src/validation-service.ts] (class [ValidationService]): the
        similarity scorer, the tier decision of [validateField] and
        [validateDocumentFields];
      - the Textract block decoder of the document processor
        ([extractText], [findValueBlock], [getText], [extractTable]);
      - the queue handler of the document processor ([handler],
        [validateJobData], [safeJsonParse]), the wrapping of the fields a
        chat answer names, [determineStatus], and the validation step of
        [processDocument].

    Conventions of the embedding.
      - A JavaScript string is a [string]; its characters are read as the
        code units U+0000..U+00FF, so [length] is the JavaScript [.length]
        for every string of such characters.
      - A JavaScript number that the code only compares, adds to or
        subtracts from integers (indices, spans, rounded scores, oracle
        confidences) is a [Z]: integers below 2^53 are doubles, and sums and
        differences of them are exact.  The similarity ratio is a double
        that is no integer in general: it is given by the rational it
        denotes, a [Q], and the quotient, the product and the sum that
        compute it are rounded to the nearest double, ties to even, as
        IEEE 754 has it for binary64; [Math.round] is rounding half up on
        the value of the double.
      - [undefined]/[null] is [None]; an optional field is an [option].
        A value the code declares as [any] (a member of a parsed chat
        answer, a value of a field map) is a [Json] value, and a key
        without an entry reads as [undefined].
      - An awaited collaborator (master data provider, chat completion,
        [processDocument] under the handler) and a parser of the platform
        ([JSON.parse], [new URL]) is a function handed to the code that
        calls it.
      - A function that throws returns a sum: the value thrown on the
        left, the result on the right. *)

From Stdlib Require Import ZArith QArith Qround Qminmax Qpower Lia Lqa Ascii String List
  Sorted DecimalString.
From stdpp Require Import base option list gmap strings.

Local Open Scope string_scope.
Local Open Scope list_scope.
Local Open Scope Z_scope.

(** ** JavaScript strings *)

Module JsString.

Definition char_code (c : ascii) : N := N_of_ascii c.

Definition in_range (lo hi : N) (c : ascii) : bool :=
  ((lo <=? char_code c) && (char_code c <=? hi))%N.

(** [String.prototype.toLowerCase] on the code units below 256: the ASCII
    capitals and the Latin-1 capitals U+00C0..U+00DE except U+00D7.  On
    these code units the lower case of a character is one character, so a
    string keeps its length and every character its index; a character
    such as U+0130, whose lower case takes two code units, is none of
    them. *)
Definition lower_char (c : ascii) : ascii :=
  if in_range 65 90 c
     || (in_range 192 222 c && negb (char_code c =? 215)%N)
  then ascii_of_N (char_code c + 32)
  else c.

Fixpoint toLowerCase (s : string) : string :=
  match s with
  | EmptyString => EmptyString
  | String c s' => String (lower_char c) (toLowerCase s')
  end.

(** Case folding of a regular expression with the [i] flag and without the
    [u] flag: a character at or above 128 never folds onto an ASCII one. *)
Definition fold_char (c : ascii) : ascii :=
  if in_range 65 90 c then ascii_of_N (char_code c + 32) else c.

(** [\w] *)
Definition is_word_char (c : ascii) : bool :=
  in_range 97 122 c || in_range 65 90 c || in_range 48 57 c
  || (char_code c =? 95)%N.

(** [\s], which is also what [trim] removes. *)
Definition is_space (c : ascii) : bool :=
  in_range 9 13 c || (char_code c =? 32)%N || (char_code c =? 160)%N.

Definition head_char (s : string) : option ascii :=
  match s with
  | EmptyString => None
  | String c _ => Some c
  end.

Definition is_word_opt (o : option ascii) : bool :=
  match o with
  | Some c => is_word_char c
  | None => false
  end.

(** [\b] between the character [before] and the character [after]. *)
Definition word_boundary (before after : option ascii) : bool :=
  xorb (is_word_opt before) (is_word_opt after).

(** [s.startsWith(p)] *)
Fixpoint startsWith (s p : string) : bool :=
  match p, s with
  | EmptyString, _ => true
  | String a p', String b s' => if Ascii.eqb a b then startsWith s' p' else false
  | String _ _, EmptyString => false
  end.

(** [s.includes(sub)] *)
Fixpoint includes (s sub : string) : bool :=
  startsWith s sub
  || match s with
     | EmptyString => false
     | String _ s' => includes s' sub
     end.

Fixpoint trimStart (s : string) : string :=
  match s with
  | EmptyString => EmptyString
  | String c s' => if is_space c then trimStart s' else s
  end.

Fixpoint trimEnd (s : string) : string :=
  match s with
  | EmptyString => EmptyString
  | String c s' =>
      match trimEnd s' with
      | EmptyString => if is_space c then EmptyString else String c EmptyString
      | t => String c t
      end
  end.

Definition trim (s : string) : string := trimEnd (trimStart s).

(** A value used as a condition: the empty string is falsy. *)
Definition truthy (s : string) : bool :=
  match s with
  | EmptyString => false
  | String _ _ => true
  end.

End JsString.

Import JsString.

(** ** The similarity scorer of [ValidationService] *)

(** The alternation of the first regular expression of [cleanCompanyName],
    in the order the expression lists it. *)
Definition company_suffixes : list string :=
  [ "inc"; "incorporated"; "corp"; "corporation"; "llc"; "ltd"; "limited";
    "co"; "company"; "plc"; "gmbh"; "sa"; "ag"; "bv"; "nv" ].

(** The text left after the literal [w] matched at the start of [s] under
    the [i] flag. *)
Fixpoint match_literal_ci (w s : string) : option string :=
  match w, s with
  | EmptyString, _ => Some s
  | String a w', String b s' =>
      if Ascii.eqb a (fold_char b) then match_literal_ci w' s' else None
  | String _ _, EmptyString => None
  end.

Definition last_char (w : string) : option ascii :=
  head_char (String.rev w).

(** One attempt of [\b(inc|...|nv)\b] at a position: [prev] is the
    character before the position, [s] the text from it on.  The result is
    the length of the match. *)
Definition match_suffix_at (prev : option ascii) (s : string) : option nat :=
  if word_boundary prev (head_char s) then
    String.length <$>
      List.find
        (fun w =>
           match match_literal_ci w s with
           | Some rest => word_boundary (last_char w) (head_char rest)
           | None => false
           end)
        company_suffixes
  else None.

(** [.replace(/\b(inc|...|nv)\b/gi, '')]: [skip] counts the characters of
    the current match still to be dropped. *)
Fixpoint remove_suffixes (prev : option ascii) (skip : nat) (s : string) : string :=
  match s with
  | EmptyString => EmptyString
  | String c s' =>
      match skip with
      | S k => remove_suffixes (Some c) k s'
      | O =>
          match match_suffix_at prev s with
          | Some (S k) => remove_suffixes (Some c) k s'
          | _ => String c (remove_suffixes (Some c) O s')
          end
      end
  end.

(** The class of the second expression: . , / # ! $ % ^ & * ; : { } = - _
    ` ~ ( ) *)
Definition is_punctuation (c : ascii) : bool :=
  bool_decide (c ∈ list_ascii_of_string ".,/#!$%^&*;:{}=-_`~()").

Fixpoint remove_punctuation (s : string) : string :=
  match s with
  | EmptyString => EmptyString
  | String c s' =>
      if is_punctuation c then remove_punctuation s'
      else String c (remove_punctuation s')
  end.

(** [.replace(/\s+/g, ' ')]: [in_run] tells that the previous character
    was white space, already replaced. *)
Fixpoint collapse_spaces (in_run : bool) (s : string) : string :=
  match s with
  | EmptyString => EmptyString
  | String c s' =>
      if is_space c then
        if in_run then collapse_spaces true s'
        else String " " (collapse_spaces true s')
      else String c (collapse_spaces false s')
  end.

Definition cleanCompanyName (name : string) : string :=
  trim (collapse_spaces false (remove_punctuation (remove_suffixes None O name))).

(** *** [levenshteinDistance]: the table [dp], one row at a time *)

(** The cells [dp[i][j..n]] of row [i], for the character [c = s1[i-1]]:
    [s2] is [s2[j-1..]], [prev_row] is [dp[i-1][j-1..n]] and [left] is
    [dp[i][j-1]]. *)
Fixpoint lev_row (c : ascii) (s2 : list ascii) (prev_row : list nat) (left : nat)
  : list nat :=
  match s2, prev_row with
  | d :: s2', diag :: ((up :: _) as prev') =>
      let v := if Ascii.eqb c d then diag
               else S (Nat.min up (Nat.min left diag)) in
      v :: lev_row c s2' prev' v
  | _, _ => []
  end.

(** Rows [i+1..m] from row [i]. *)
Fixpoint lev_rows (s1 s2 : list ascii) (i : nat) (row : list nat) : list nat :=
  match s1 with
  | [] => row
  | c :: s1' => lev_rows s1' s2 (S i) (S i :: lev_row c s2 row (S i))
  end.

Definition levenshteinDistance (s1 s2 : string) : nat :=
  let l1 := list_ascii_of_string s1 in
  let l2 := list_ascii_of_string s2 in
  List.last (lev_rows l1 l2 O (seq O (S (Datatypes.length l2)))) O.

(** *** Doubles

    A finite double is given by the rational it denotes.  The result of an
    arithmetic operation is the double nearest to the exact result, the one
    with the even significand when two are equally near: [binade q] is the
    exponent [k] with [2^k <= q < 2^(k+1)], the doubles from [2^k] to
    [2^(k+1)] are the multiples of [2^(k-52)], and [half_even] picks the
    multiple.  The exponent range of binary64 is left out: the numbers the
    scorer forms lie between 2^-53 and 115. *)

(** The integer nearest to [x], the even one of two equally near. *)
Definition half_even (x : Q) : Z :=
  let f := Qfloor x in
  match (x - inject_Z f ?= 1 # 2)%Q with
  | Lt => f
  | Gt => f + 1
  | Eq => if Z.even f then f else f + 1
  end.

Definition binade (q : Q) : Z :=
  let k := Z.log2 (Qnum q) - Z.log2 (Z.pos (Qden q)) in
  if Qle_bool (2 ^ k) q then k else k - 1.

(** The double nearest to a positive [q]. *)
Definition nearest (q : Q) : Q :=
  let e := binade q - 52 in
  (inject_Z (half_even (q / 2 ^ e)) * 2 ^ e)%Q.

(** The double nearest to [q], as a fraction in lowest terms. *)
Definition binary64 (q : Q) : Q :=
  match Qnum q with
  | Z0 => 0%Q
  | Z.pos _ => Qred (nearest q)
  | Z.neg _ => Qred (- nearest (- q))
  end.

(** [a / b], [a * b] and [a + b] on doubles. *)
Definition fdiv (a b : Q) : Q := binary64 (a / b).
Definition fmul (a b : Q) : Q := binary64 (a * b).
Definition fadd (a b : Q) : Q := binary64 (a + b).

(** A length or a distance as a double: an integer below 2^53 is one. *)
Definition Q_of_nat (n : nat) : Q := inject_Z (Z.of_nat n).

(** [((maxLen - distance) / maxLen) * 100]; the difference of the two
    integers is exact. *)
Definition ratio_of (maxLen distance : nat) : Q :=
  fmul (fdiv (Q_of_nat maxLen - Q_of_nat distance) (Q_of_nat maxLen)) 100.

(** The same quotient without rounding, for comparison. *)
Definition exact_ratio (maxLen distance : nat) : Q :=
  ((Q_of_nat maxLen - Q_of_nat distance) / Q_of_nat maxLen * 100)%Q.

Definition calculateSimilarity (s1 s2 : string) : Q :=
  let cleanS1 := cleanCompanyName s1 in
  let cleanS2 := cleanCompanyName s2 in
  if String.eqb cleanS1 cleanS2 then 95%Q
  else
    let maxLen := Nat.max (String.length s1) (String.length s2) in
    if Nat.eqb maxLen O then 100%Q
    else
      let distance := levenshteinDistance cleanS1 cleanS2 in
      let ratio := ratio_of maxLen distance in
      if includes s1 s2 || includes s2 s1 then Qmin (fadd ratio 15) 95
      else ratio.

(** [Math.round] of the double [q]: the nearest integer, the greater one of
    two equally near.  It is exact on the value of the double. *)
Definition round_half_up (q : Q) : Z := Qfloor (q + (1 # 2))%Q.

(** [array.sort((a, b) => b[1] - a[1])]: the difference of two doubles has
    the sign of their comparison, and the sort is stable, so an entry goes
    in front of the first entry whose score is not above its own. *)
Fixpoint insert_desc (x : string * Q) (l : list (string * Q)) : list (string * Q) :=
  match l with
  | [] => [x]
  | y :: l' =>
      if Qle_bool (snd y) (snd x) then x :: l
      else y :: insert_desc x l'
  end.

Definition sort_desc (l : list (string * Q)) : list (string * Q) :=
  foldr insert_desc [] l.

Definition simpleFuzzyMatch (query : string) (choices : list string) (limit : nat)
  : list (string * Q) :=
  let results :=
    map (fun choice =>
           (choice, calculateSimilarity (toLowerCase query) (toLowerCase choice)))
        choices in
  take limit (sort_desc results).

(** ** Field validation *)

(** The keys of [LIST_MATCH_FIELDS], in the order of the object literal. *)
Definition LIST_MATCH_FIELDS : list string :=
  [ "company_code"; "transaction_type"; "invoicing_party"; "document_type";
    "gl_account"; "debit_credit"; "tax_code"; "tax_jurisdiction";
    "assignment"; "cost_center"; "profit_center"; "order_number";
    "wbs_element" ].

Record MasterDataItem := {
  code : string;
  name : string;
  description : option string
}.

Inductive Status := exact | fuzzy_high | fuzzy_medium | fuzzy_low | no_match.

(** An entry of [alternatives]. *)
Record Alternative := {
  alt_code : string;
  alt_name : string;
  score : Z
}.

Record ValidationResult := {
  field : string;
  extracted_value : string;
  matched_code : option string;
  matched_name : option string;
  confidence : Z;
  status : Status;
  alternatives : list Alternative
}.

(** What [dataTypeMap[fieldName] || fieldName] evaluates to: a string, or,
    for a field name that is a member of [Object.prototype], that inherited
    member. *)
Inductive DataType :=
  | TypeName (s : string)
  | InheritedMember (s : string).

Definition dataTypeMap : list (string * string) :=
  [ ("invoicing_party", "vendor"); ("supplier_name", "vendor");
    ("vendor_name", "vendor"); ("gl_account", "gl_account");
    ("cost_center", "cost_center"); ("company_code", "company_code");
    ("document_type", "document_type"); ("tax_code", "tax_code");
    ("profit_center", "profit_center");
    ("transaction_type", "transaction_type");
    ("debit_credit", "debit_credit") ].

Definition object_prototype_members : list string :=
  [ "constructor"; "__proto__"; "hasOwnProperty"; "isPrototypeOf";
    "propertyIsEnumerable"; "toLocaleString"; "toString"; "valueOf";
    "__defineGetter__"; "__defineSetter__"; "__lookupGetter__";
    "__lookupSetter__" ].

Definition resolve_data_type (fieldName : string) : DataType :=
  match List.find (fun p => String.eqb (fst p) fieldName) dataTypeMap with
  | Some p => TypeName (snd p)
  | None =>
      if bool_decide (fieldName ∈ object_prototype_members)
      then InheritedMember fieldName
      else TypeName fieldName
  end.

(** The document context handed to the chat completion. *)
Record DocumentContext := {
  vendor : option string;
  amount : option string;
  date : option string;
  ctx_description : option string
}.

(** The parsed JSON answer of the chat completion: [selected_index] and
    [confidence] when they are numbers, taken as integers; [None] stands
    for a field that is absent. *)
Record GptReply := {
  selected_index : option Z;
  reply_confidence : option Z
}.

(** The value [selectBestMatchWithGPT] resolves to. *)
Record GptSelection := {
  sel_code : string;
  sel_name : string;
  sel_confidence : Z
}.

Definition no_match_result (fieldName extracted : string) : ValidationResult :=
  {| field := fieldName; extracted_value := extracted;
     matched_code := None; matched_name := None;
     confidence := 0; status := no_match; alternatives := [] |}.

(** [s || null] *)
Definition or_null (s : string) : option string :=
  if truthy s then Some s else None.

Section Validation.

(** [fetchMasterData(clientId, dataType)], which never rejects: a failed
    query is an empty list. *)
Variable fetchMasterData : string -> DataType -> list MasterDataItem.

(** The type of [documentContext], which the code declares as [any] and
    only hands on to the chat completion. *)
Context {Ctx : Type}.

(** The chat completion followed by [JSON.parse], as a function of what the
    prompt is built from; [None] when either throws. *)
Variable chat_completion :
  string -> list Alternative -> string -> Ctx -> option GptReply.

Definition selectBestMatchWithGPT (extractedValue : string)
    (candidates : list Alternative) (fieldName : string)
    (documentContext : Ctx) : option GptSelection :=
  match chat_completion extractedValue candidates fieldName documentContext with
  | None => None
  | Some result =>
      match selected_index result with
      | Some idx =>
          if (0 <? idx) && (idx <=? Z.of_nat (length candidates)) then
            match candidates !! Z.to_nat (idx - 1) with
            | Some selected =>
                Some {| sel_code := alt_code selected;
                        sel_name := alt_name selected;
                        sel_confidence :=
                          match reply_confidence result with
                          | Some c => if c =? 0 then score selected else c
                          | None => score selected
                          end |}
            | None => None
            end
          else None
      | None => None
      end
  end.

(** An entry of [fuzzyMatches] turned into an alternative; the item is
    looked up by name, and the first item of that name is found. *)
Definition to_alternative (masterData : list MasterDataItem) (m : string * Q)
  : Alternative :=
  match List.find (fun i => String.eqb (name i) (fst m)) masterData with
  | Some item =>
      {| alt_code := code item; alt_name := name item;
         score := round_half_up (snd m) |}
  | None =>
      (* not reached: every name of [fuzzyMatches] is the name of an item *)
      {| alt_code := ""; alt_name := fst m; score := round_half_up (snd m) |}
  end.

Definition fuzzy_alternatives (extractedValue : string)
    (masterData : list MasterDataItem) : list Alternative :=
  let choices := map name masterData in
  let fuzzyMatches := simpleFuzzyMatch extractedValue choices 20 in
  map (to_alternative masterData) fuzzyMatches.

(** The last [return] of [validateField]. *)
Definition no_good_match (fieldName extractedValue : string)
    (alts : list Alternative) : ValidationResult :=
  {| field := fieldName; extracted_value := extractedValue;
     matched_code := head alts ≫= (fun a => or_null (alt_code a));
     matched_name := head alts ≫= (fun a => or_null (alt_name a));
     confidence := default 0 (score <$> head alts);
     status := no_match;
     alternatives := take 5 alts |}.

(** The branch of [validateField] for a top score in (60, 85]: the chat
    completion picks among the first ten alternatives; without a selection
    the code falls through to its last [return]. *)
Definition escalate (fieldName extractedValue : string)
    (documentContext : Ctx) (alts : list Alternative)
  : ValidationResult :=
  match selectBestMatchWithGPT extractedValue (take 10 alts)
          fieldName documentContext with
  | Some gptSelection =>
      {| field := fieldName; extracted_value := extractedValue;
         matched_code := Some (sel_code gptSelection);
         matched_name := Some (sel_name gptSelection);
         confidence := sel_confidence gptSelection;
         status := if sel_confidence gptSelection >? 75
                   then fuzzy_medium else fuzzy_low;
         alternatives :=
           take 5
             (List.filter
                (fun a => negb (String.eqb (alt_code a) (sel_code gptSelection)))
                alts) |}
  | None => no_good_match fieldName extractedValue alts
  end.

(** [validateField] from the fuzzy pass on, given its [alternatives]. *)
Definition tier_decision (fieldName extractedValue : string)
    (documentContext : Ctx) (alts : list Alternative)
  : ValidationResult :=
  match alts with
  | top :: _ =>
      if score top >? 85 then
        {| field := fieldName; extracted_value := extractedValue;
           matched_code := Some (alt_code top);
           matched_name := Some (alt_name top);
           confidence := score top;
           status := if score top >? 90 then fuzzy_high else fuzzy_medium;
           alternatives := take 5 (drop 1 alts) |}
      else if score top >? 60 then
        escalate fieldName extractedValue documentContext alts
      else no_good_match fieldName extractedValue alts
  | [] => no_good_match fieldName extractedValue alts
  end.

Definition is_exact_match (extractedValue : string) (item : MasterDataItem) : bool :=
  String.eqb (toLowerCase (code item)) (toLowerCase extractedValue)
  || String.eqb (toLowerCase (name item)) (toLowerCase extractedValue).

Definition validateField (extractedValue : option string) (fieldName clientId : string)
    (documentContext : Ctx) : ValidationResult :=
  match extractedValue with
  | None | Some EmptyString => no_match_result fieldName ""
  | Some extractedValue =>
      let dataType := resolve_data_type fieldName in
      let masterData := fetchMasterData clientId dataType in
      if Nat.eqb (length masterData) 0 then
        no_match_result fieldName extractedValue
      else
        match List.find (is_exact_match extractedValue) masterData with
        | Some exactMatch =>
            {| field := fieldName; extracted_value := extractedValue;
               matched_code := Some (code exactMatch);
               matched_name := Some (name exactMatch);
               confidence := 100; status := exact; alternatives := [] |}
        | None =>
            tier_decision fieldName extractedValue documentContext
              (fuzzy_alternatives extractedValue masterData)
        end
  end.

End Validation.

(** [a || b] on two optional strings *)
Definition or_else (a b : option string) : option string :=
  match a with
  | Some s => if truthy s then a else b
  | None => b
  end.

(** [validateDocumentFields] on a field map of strings; a field value
    that is present is a string or [null] ([Some None]), as the parameter
    type of [validateField] has it.  Field maps with values of any kind
    are the matter of [validateDocumentFields_any] below. *)
Definition field_value (extractedFields : gmap string (option string))
    (fieldName : string) : option string :=
  extractedFields !! fieldName ≫= id.

Definition is_truthy (v : option string) : bool :=
  match v with
  | Some s => truthy s
  | None => false
  end.

Definition document_context (extractedFields : gmap string (option string))
  : DocumentContext :=
  {| vendor := or_else (field_value extractedFields "invoicing_party")
                       (field_value extractedFields "vendor_name");
     amount := field_value extractedFields "invoice_gross_amount";
     date := field_value extractedFields "document_date";
     ctx_description := field_value extractedFields "document_header_text" |}.

Section DocumentValidation.

Variable fetchMasterData : string -> DataType -> list MasterDataItem.
Variable chat_completion :
  string -> list Alternative -> string -> option DocumentContext -> option GptReply.

Definition validateDocumentFields
    (extractedFields : gmap string (option string)) (clientId : string)
  : gmap string ValidationResult :=
  let documentContext := document_context extractedFields in
  fold_left
    (fun results fieldName =>
       if is_truthy (field_value extractedFields fieldName) then
         <[fieldName :=
             validateField fetchMasterData chat_completion
               (field_value extractedFields fieldName) fieldName
               clientId (Some documentContext)]> results
       else results)
    LIST_MATCH_FIELDS ∅.

End DocumentValidation.

(** ** The Textract block decoder *)

(** A [Relationship] and a [Block] of the Textract response; every field
    of the SDK's declarations is optional. *)
Record Relationship := {
  RelType : option string;          (* [Type] *)
  Ids : option (list string)
}.

Record BoundingBox := { Width : Q; Height : Q; Left : Q; Top : Q }.

Record Geometry := {
  Box : option BoundingBox;
  Polygon : option (list (Q * Q))
}.

Record Block := {
  Id : option string;
  BlockType : option string;
  Text : option string;
  EntityTypes : option (list string);
  Relationships : option (list Relationship);
  RowIndex : option Z;
  ColumnIndex : option Z;
  RowSpan : option Z;
  ColumnSpan : option Z;
  Confidence : option Q;
  BlockGeometry : option Geometry    (* [Geometry] *)
}.

(** *** [Map]: entries in insertion order; [set] on a key already there
    replaces the value where it stands. *)
Module JsMap.

Definition t (V : Type) : Type := list (option string * V).

Fixpoint set {V} (k : option string) (v : V) (m : t V) : t V :=
  match m with
  | [] => [(k, v)]
  | (k', v') :: m' =>
      if decide (k' = k) then (k, v) :: m' else (k', v') :: set k v m'
  end.

Fixpoint get {V} (m : t V) (k : option string) : option V :=
  match m with
  | [] => None
  | (k', v') :: m' => if decide (k' = k) then Some v' else get m' k
  end.

Definition has {V} (m : t V) (k : option string) : bool :=
  match get m k with
  | Some _ => true
  | None => false
  end.

(** The values, in the order [forEach] visits them. *)
Definition values {V} (m : t V) : list V := map snd m.

End JsMap.

(** *** Arrays with holes.  [items] are the elements at the array indices
    below [length]; [props] are the properties under the other integer
    keys, such as [-1], which [length], [filter] and [forEach] ignore. *)
Module JsArray.

Record t (A : Type) := mk {
  items : list (option A);
  props : gmap Z A
}.
Arguments mk {A} _ _.
Arguments items {A} _.
Arguments props {A} _.

Definition empty {A} : t A := mk [] ∅.

(** An integer key is an array index when it is in [0, 2^32 - 2]. *)
Definition is_index (k : Z) : bool := (0 <=? k) && (k <? 4294967295).

Definition length {A} (a : t A) : nat := Datatypes.length (items a).

(** [a[k]] *)
Definition get {A} (a : t A) (k : Z) : option A :=
  if is_index k then mjoin (items a !! Z.to_nat k) else props a !! k.

(** The elements after [l[n] = v]: an index at or past the end leaves
    holes in between. *)
Definition write_at {A} (n : nat) (v : A) (l : list (option A)) : list (option A) :=
  if (n <? Datatypes.length l)%nat then <[n := Some v]> l
  else l ++ replicate (n - Datatypes.length l) None ++ [Some v].

(** [a[k] = v] *)
Definition set {A} (a : t A) (k : Z) (v : A) : t A :=
  if is_index k then mk (write_at (Z.to_nat k) v (items a)) (props a)
  else mk (items a) (<[k := v]> (props a)).

End JsArray.

(** [number || d] *)
Definition number_or (n : option Z) (d : Z) : Z :=
  match n with
  | Some v => if v =? 0 then d else v
  | None => d
  end.

(** A string concatenated to a string: [undefined] prints as its name. *)
Definition text_or_undefined (t : option string) : string :=
  default "undefined" t.

(** The [Ids] a relationship of type [ty] contributes. *)
Definition ids_of_type (ty : string) (relationship : Relationship) : list string :=
  if bool_decide (RelType relationship = Some ty)
  then default [] (Ids relationship)
  else [].

Definition findValueBlock (keyBlock : Block) (valueMap : JsMap.t Block) : option Block :=
  fold_left
    (fun valueBlock relationship =>
       fold_left
         (fun valueBlock valueId =>
            if JsMap.has valueMap (Some valueId)
            then JsMap.get valueMap (Some valueId)
            else valueBlock)
         (ids_of_type "VALUE" relationship) valueBlock)
    (default [] (Relationships keyBlock)) None.

Definition getText (block : Block) (blockMap : JsMap.t Block) : string :=
  trim
    (fold_left
       (fun text relationship =>
          fold_left
            (fun text childId =>
               match JsMap.get blockMap (Some childId) with
               | Some childBlock =>
                   if bool_decide (BlockType childBlock = Some "WORD")
                   then text +:+ text_or_undefined (Text childBlock) +:+ " "
                   else text
               | None => text
               end)
            (ids_of_type "CHILD" relationship) text)
       (default [] (Relationships block)) "").

(** An entry of [cells] in [extractTable]. *)
Record Cell := {
  rowIndex : Z;
  columnIndex : Z;
  text : string;
  rowSpan : Z;
  columnSpan : Z
}.

Record Table := {
  rows : list (JsArray.t string);
  rawCells : list Cell
}.

(** The object pushed on [cells] for a cell block. *)
Definition cell_record (cell : Block) (blockMap : JsMap.t Block) : Cell :=
  {| rowIndex := number_or (RowIndex cell) 0;
     columnIndex := number_or (ColumnIndex cell) 0;
     text := getText cell blockMap;
     rowSpan := number_or (RowSpan cell) 1;
     columnSpan := number_or (ColumnSpan cell) 1 |}.

Definition table_cells (tableBlock : Block) (cellMap blockMap : JsMap.t Block)
  : list Cell :=
  fold_left
    (fun cells relationship =>
       fold_left
         (fun cells cellId =>
            match JsMap.get cellMap (Some cellId) with
            | Some cell => cells ++ [cell_record cell blockMap]
            | None => cells
            end)
         (ids_of_type "CHILD" relationship) cells)
    (default [] (Relationships tableBlock)) [].

(** The body of [cells.forEach] in [extractTable]. *)
Definition place_cell (rows : JsArray.t (JsArray.t string)) (cell : Cell)
  : JsArray.t (JsArray.t string) :=
  let r := rowIndex cell - 1 in
  let rows :=
    match JsArray.get rows r with
    | Some _ => rows
    | None => JsArray.set rows r JsArray.empty
    end in
  match JsArray.get rows r with
  | Some row => JsArray.set rows r (JsArray.set row (columnIndex cell - 1) (text cell))
  | None => rows
  end.

Definition place_cells (cells : list Cell) : JsArray.t (JsArray.t string) :=
  fold_left place_cell cells JsArray.empty.

(** [rows.filter(row => row && row.length > 0)] *)
Definition surviving_rows (rows : JsArray.t (JsArray.t string))
  : list (JsArray.t string) :=
  List.filter (fun row => (0 <? JsArray.length row)%nat)
    (omap id (JsArray.items rows)).

Definition organize (cells : list Cell) : Table :=
  {| rows := surviving_rows (place_cells cells); rawCells := cells |}.

Definition extractTable (tableBlock : Block) (cellMap blockMap : JsMap.t Block)
  : Table :=
  organize (table_cells tableBlock cellMap blockMap).

Record Layout := {
  titles : list string;
  headers : list string;
  sections : list string;
  lists : list string
}.

Record Signature := {
  sig_confidence : option Q;
  sig_geometry : option Geometry
}.

Record ExtractedData := {
  fullText : string;                   (* [text] *)
  keyValues : gmap string string;
  tables : list Table;
  layout : Layout;
  signatures : list Signature
}.

Record BlockMaps := {
  blockMap : JsMap.t Block;
  keyMap : JsMap.t Block;
  valueMap : JsMap.t Block;
  tableMap : JsMap.t Block;
  cellMap : JsMap.t Block
}.

Definition has_type (ty : string) (block : Block) : bool :=
  bool_decide (BlockType block = Some ty).

Definition is_key (block : Block) : bool :=
  match EntityTypes block with
  | Some tys => bool_decide ("KEY" ∈ tys)
  | None => false
  end.

(** The body of the first [Blocks.forEach]. *)
Definition index_block (m : BlockMaps) (block : Block) : BlockMaps :=
  let all := JsMap.set (Id block) block (blockMap m) in
  if has_type "KEY_VALUE_SET" block then
    if is_key block then
      {| blockMap := all; keyMap := JsMap.set (Id block) block (keyMap m);
         valueMap := valueMap m; tableMap := tableMap m; cellMap := cellMap m |}
    else
      {| blockMap := all; keyMap := keyMap m;
         valueMap := JsMap.set (Id block) block (valueMap m);
         tableMap := tableMap m; cellMap := cellMap m |}
  else if has_type "TABLE" block then
    {| blockMap := all; keyMap := keyMap m; valueMap := valueMap m;
       tableMap := JsMap.set (Id block) block (tableMap m); cellMap := cellMap m |}
  else if has_type "CELL" block then
    {| blockMap := all; keyMap := keyMap m; valueMap := valueMap m;
       tableMap := tableMap m; cellMap := JsMap.set (Id block) block (cellMap m) |}
  else
    {| blockMap := all; keyMap := keyMap m; valueMap := valueMap m;
       tableMap := tableMap m; cellMap := cellMap m |}.

Definition no_maps : BlockMaps :=
  {| blockMap := []; keyMap := []; valueMap := []; tableMap := []; cellMap := [] |}.

Definition newline : string := String (ascii_of_nat 10) EmptyString.

(** What the second [Blocks.forEach] accumulates. *)
Record Scan := {
  scan_text : string;
  scan_layout : Layout;
  scan_signatures : list Signature
}.

(** [block.Text || ''] *)
Definition text_or_empty (block : Block) : string :=
  match Text block with
  | Some s => if truthy s then s else ""
  | None => ""
  end.

Definition push_layout (l : Layout) (block : Block) : Layout :=
  match BlockType block with
  | Some ty =>
      if startsWith ty "LAYOUT_" then
        let text := text_or_empty block in
        if String.eqb ty "LAYOUT_TITLE" then
          {| titles := titles l ++ [text]; headers := headers l;
             sections := sections l; lists := lists l |}
        else if String.eqb ty "LAYOUT_HEADER" then
          {| titles := titles l; headers := headers l ++ [text];
             sections := sections l; lists := lists l |}
        else if String.eqb ty "LAYOUT_SECTION_HEADER" then
          {| titles := titles l; headers := headers l;
             sections := sections l ++ [text]; lists := lists l |}
        else if String.eqb ty "LAYOUT_LIST" then
          {| titles := titles l; headers := headers l;
             sections := sections l; lists := lists l ++ [text] |}
        else l
      else l
  | None => l
  end.

(** The text a block adds to the full text: [block.Text] of a [LINE] block
    with a non-empty text. *)
Definition line_of (block : Block) : option string :=
  match Text block with
  | Some t => if has_type "LINE" block && truthy t then Some t else None
  | None => None
  end.

(** The body of the second [Blocks.forEach]. *)
Definition scan_block (s : Scan) (block : Block) : Scan :=
  {| scan_text :=
       match line_of block with
       | Some t => scan_text s +:+ t +:+ newline
       | None => scan_text s
       end;
     scan_layout := push_layout (scan_layout s) block;
     scan_signatures :=
       if has_type "SIGNATURE" block
       then scan_signatures s ++
            [ {| sig_confidence := Confidence block;
                 sig_geometry := BlockGeometry block |} ]
       else scan_signatures s |}.

(** [obj[key] = value] on an object literal: the key [__proto__] reaches
    the setter of [Object.prototype], which ignores a string. *)
Definition object_set (key value : string) (obj : gmap string string)
  : gmap string string :=
  if String.eqb key "__proto__" then obj else <[key := value]> obj.

(** The pair a key block contributes to [keyValues], if any. *)
Definition key_value_pair (maps : BlockMaps) (keyBlock : Block)
  : option (string * string) :=
  match findValueBlock keyBlock (valueMap maps) with
  | Some valueBlock =>
      let keyText := getText keyBlock (blockMap maps) in
      let valueText := getText valueBlock (blockMap maps) in
      if truthy keyText && truthy valueText
      then Some (keyText, valueText)
      else None
  | None => None
  end.

(** The body of [keyMap.forEach]. *)
Definition add_key_value (maps : BlockMaps) (keyValues : gmap string string)
    (keyBlock : Block) : gmap string string :=
  match key_value_pair maps keyBlock with
  | Some (keyText, valueText) => object_set keyText valueText keyValues
  | None => keyValues
  end.

(** The table a table block contributes to [tables], if any. *)
Definition table_of (maps : BlockMaps) (tableBlock : Block) : option Table :=
  let table := extractTable tableBlock (cellMap maps) (blockMap maps) in
  if (0 <? length (rows table))%nat then Some table else None.

(** The body of [tableMap.forEach]. *)
Definition add_table (maps : BlockMaps) (tables : list Table) (tableBlock : Block)
  : list Table :=
  match table_of maps tableBlock with
  | Some table => tables ++ [table]
  | None => tables
  end.

(** [extractText] from the answer of Textract on, as a function of
    [result.Blocks]; an absent [Blocks] skips both loops, as the empty list
    does. *)
Definition extractText (blocks : list Block) : ExtractedData :=
  let maps := fold_left index_block blocks no_maps in
  let scan :=
    fold_left scan_block blocks
      {| scan_text := "";
         scan_layout := {| titles := []; headers := []; sections := []; lists := [] |};
         scan_signatures := [] |} in
  {| fullText := scan_text scan;
     keyValues := fold_left (add_key_value maps) (JsMap.values (keyMap maps)) ∅;
     tables := fold_left (add_table maps) (JsMap.values (tableMap maps)) [];
     layout := scan_layout scan;
     signatures := scan_signatures scan |}.

(** ** Sample collaborators and master data *)

Definition item (c n : string) : MasterDataItem :=
  {| code := c; name := n; description := None |}.

(** A provider that answers every query with the same list. *)
Definition constant_provider (l : list MasterDataItem)
  : string -> DataType -> list MasterDataItem :=
  fun _ _ => l.

(** A chat completion that always fails. *)
Definition failing_chat
  : string -> list Alternative -> string -> option DocumentContext -> option GptReply :=
  fun _ _ _ _ => None.

(** A chat completion that always answers with the same reply. *)
Definition constant_chat (r : GptReply)
  : string -> list Alternative -> string -> option DocumentContext -> option GptReply :=
  fun _ _ _ _ => Some r.

Definition sample_vendors : list MasterDataItem :=
  [ item "V1" "abcdefghik"; item "V2" "zzz" ].

Definition acme_only : list MasterDataItem := [ item "A1" "Acme" ].

(** A vendor whose name is three substitutions away from the twenty
    letters "abcdefghijklmnopqrst": the score is exactly 85. *)
Definition long_vendor : list MasterDataItem :=
  [ item "L1" "abcdefghijklmnopqxyz" ].

(** Two names that the exact quotients would tie at 275/3 against the
    value "abcdefghijklmnopqrstuvw": the first is two edits away in 24
    characters, the second contains the value, 7 edits away in 30. *)
Definition near_tie_value : string := "abcdefghijklmnopqrstuvw".
Definition near_tie_first : string := "abcdefghijklmnopqrstuvxy".
Definition near_tie_second : string := "abcdefghijklmnopqrstuvw1234567".
Definition near_tie : list MasterDataItem :=
  [ item "A" near_tie_first; item "B" near_tie_second ].

(** ** The decoder seen as maps and filters, for stating its properties *)

(** The entry of a block in a map keyed by identifier. *)
Definition entry (b : Block) : option string * Block := (Id b, b).

(** A map filled by the first loop: the blocks satisfying [P], keyed by
    identifier. *)
Definition index_by (P : Block -> bool) (l : list Block) (acc : JsMap.t Block)
  : JsMap.t Block :=
  fold_left (fun acc b => if P b then JsMap.set (Id b) b acc else acc) l acc.

Definition in_keyMap (b : Block) : bool :=
  has_type "KEY_VALUE_SET" b && is_key b.
Definition in_valueMap (b : Block) : bool :=
  has_type "KEY_VALUE_SET" b && negb (is_key b).
Definition in_tableMap (b : Block) : bool :=
  negb (has_type "KEY_VALUE_SET" b) && has_type "TABLE" b.
Definition in_cellMap (b : Block) : bool :=
  negb (has_type "KEY_VALUE_SET" b) && negb (has_type "TABLE" b)
  && has_type "CELL" b.

(** The entry a block adds to the layout sequence of the blocks of type
    [ty]. *)
Definition layout_entry (ty : string) (b : Block) : option string :=
  if has_type ty b then Some (text_or_empty b) else None.

(** The full text made of the given lines. *)
Fixpoint lines_text (lines : list string) : string :=
  match lines with
  | [] => ""
  | t :: lines' => t +:+ newline +:+ lines_text lines'
  end.

Definition set_pair (obj : gmap string string) (p : string * string)
  : gmap string string :=
  object_set (fst p) (snd p) obj.

(** The pairs the key blocks of a document emit, in the order of
    [keyMap.forEach]. *)
Definition emitted_pairs (blocks : list Block) : list (string * string) :=
  let maps := fold_left index_block blocks no_maps in
  omap (key_value_pair maps) (JsMap.values (keyMap maps)).

(** The elements of a row, a hole for a row that is not there. *)
Definition row_items (row : option (JsArray.t string)) : list (option string) :=
  JsArray.items (default JsArray.empty row).

(** The identifiers a key block's [VALUE] relationships list, in the order
    [findValueBlock] visits them. *)
Definition value_edge_ids (keyBlock : Block) : list string :=
  flat_map (ids_of_type "VALUE") (default [] (Relationships keyBlock)).

(** ** Sample blocks *)

Definition block (id ty : string) : Block :=
  {| Id := Some id; BlockType := Some ty; Text := None; EntityTypes := None;
     Relationships := None; RowIndex := None; ColumnIndex := None;
     RowSpan := None; ColumnSpan := None; Confidence := None;
     BlockGeometry := None |}.

Definition with_text (t : string) (b : Block) : Block :=
  {| Id := Id b; BlockType := BlockType b; Text := Some t;
     EntityTypes := EntityTypes b; Relationships := Relationships b;
     RowIndex := RowIndex b; ColumnIndex := ColumnIndex b;
     RowSpan := RowSpan b; ColumnSpan := ColumnSpan b;
     Confidence := Confidence b; BlockGeometry := BlockGeometry b |}.

Definition with_entity (e : string) (b : Block) : Block :=
  {| Id := Id b; BlockType := BlockType b; Text := Text b;
     EntityTypes := Some [e]; Relationships := Relationships b;
     RowIndex := RowIndex b; ColumnIndex := ColumnIndex b;
     RowSpan := RowSpan b; ColumnSpan := ColumnSpan b;
     Confidence := Confidence b; BlockGeometry := BlockGeometry b |}.

Definition with_edges (rels : list (string * list string)) (b : Block) : Block :=
  {| Id := Id b; BlockType := BlockType b; Text := Text b;
     EntityTypes := EntityTypes b;
     Relationships :=
       Some (map (fun r => {| RelType := Some (fst r); Ids := Some (snd r) |}) rels);
     RowIndex := RowIndex b; ColumnIndex := ColumnIndex b;
     RowSpan := RowSpan b; ColumnSpan := ColumnSpan b;
     Confidence := Confidence b; BlockGeometry := BlockGeometry b |}.

Definition word (id t : string) : Block := with_text t (block id "WORD").

(** A form with one key, "Name", whose [VALUE] relationship lists two value
    markers: "Alice" first, "Bob" second. *)
Definition name_key : Block :=
  with_edges [("VALUE", ["v1"; "v2"]); ("CHILD", ["w1"])]
    (with_entity "KEY" (block "k" "KEY_VALUE_SET")).
Definition alice_value : Block :=
  with_edges [("CHILD", ["w2"])] (with_entity "VALUE" (block "v1" "KEY_VALUE_SET")).
Definition bob_value : Block :=
  with_edges [("CHILD", ["w3"])] (with_entity "VALUE" (block "v2" "KEY_VALUE_SET")).

Definition sample_form : list Block :=
  [ word "w1" "Name"; word "w2" "Alice"; word "w3" "Bob";
    name_key; alice_value; bob_value ].

(** A table of one cell without indices. *)
Definition unplaced_cell : Block :=
  with_edges [("CHILD", ["w2"])] (block "c1" "CELL").
Definition unplaced_table : list Block :=
  [ word "w2" "Alice"; unplaced_cell;
    with_edges [("CHILD", ["c1"])] (block "t" "TABLE") ].

(** A table of one cell in row 1, column 2. *)
Definition second_column_cell : Cell :=
  {| rowIndex := 1; columnIndex := 2; text := "Bob"; rowSpan := 1; columnSpan := 1 |}.

(** Two titles. *)
Definition two_titles : list Block :=
  [ with_text "A" (block "t1" "LAYOUT_TITLE");
    with_text "B" (block "t2" "LAYOUT_TITLE") ].

(** Two key markers with the same key text, "Name", and different values;
    [flip] exchanges them in the collection. *)
Definition name_key_of (id value_id : string) : Block :=
  with_edges [("VALUE", [value_id]); ("CHILD", ["w1"])]
    (with_entity "KEY" (block id "KEY_VALUE_SET")).

Definition same_key_twice (flip : bool) : list Block :=
  [ word "w1" "Name"; word "w2" "Alice"; word "w3" "Bob";
    alice_value; bob_value ]
  ++ (if flip then [ name_key_of "k2" "v2"; name_key_of "k1" "v1" ]
      else [ name_key_of "k1" "v1"; name_key_of "k2" "v2" ]).

(** ** Invariants used in the proofs *)

(** Every cell [row[k]] of the distance table, read as [dp[i][j0 + k]], is
    at most [max i (j0 + k)]. *)
Definition cells_bounded (i j0 : nat) (row : list nat) : Prop :=
  forall k x, row !! k = Some x -> (x <= Nat.max i (j0 + k))%nat.

(** [row.length > 0] *)
Definition nonempty {A} (l : list A) : bool := (0 <? Datatypes.length l)%nat.

(** Every text a row holds was put there by a cell with that row and
    column. *)
Definition placed_by (cells : list Cell) (a : JsArray.t (JsArray.t string)) : Prop :=
  forall (n : nat) (row : JsArray.t string) (j : Z) (t : string),
    mjoin (JsArray.items a !! n) = Some row ->
    JsArray.get row j = Some t ->
    exists c, c ∈ cells /\ rowIndex c - 1 = Z.of_nat n
              /\ columnIndex c - 1 = j /\ text c = t.

(** ** The edit distance, for comparison with [levenshteinDistance] *)

(** [edits a b n]: [a] is turned into [b] by a script of [n] unit-cost
    operations, each the insertion, the deletion or the substitution of one
    character; a kept character costs nothing. *)
Inductive edits : list ascii -> list ascii -> nat -> Prop :=
  | edits_done : edits [] [] O
  | edits_keep x a b n : edits a b n -> edits (x :: a) (x :: b) n
  | edits_substitute x y a b n : edits a b n -> edits (x :: a) (y :: b) (S n)
  | edits_delete x a b n : edits a b n -> edits (x :: a) b (S n)
  | edits_insert y a b n : edits a b n -> edits a (y :: b) (S n).

(** The recurrence of the distance on the first characters. *)
Fixpoint lev_rec (a : list ascii) : list ascii -> nat :=
  match a with
  | [] => fun b => Datatypes.length b
  | x :: a' =>
      fix lev_rec_b (b : list ascii) : nat :=
        match b with
        | [] => S (Datatypes.length a')
        | y :: b' =>
            if Ascii.eqb x y then lev_rec a' b'
            else S (Nat.min (lev_rec a' b)
                      (Nat.min (lev_rec_b b') (lev_rec a' b')))
        end
  end.

(** The reversed prefixes of a text that extend the reversed prefix
    [done] by one character of [rest] or more. *)
Fixpoint longer_prefixes (done rest : list ascii) : list (list ascii) :=
  match rest with
  | [] => []
  | e :: rest' => (e :: done) :: longer_prefixes (e :: done) rest'
  end.

(** ** Shapes of strings, for stating what the cleaning leaves *)

Fixpoint all_chars (P : ascii -> bool) (s : string) : bool :=
  match s with
  | EmptyString => true
  | String c s' => P c && all_chars P s'
  end.

(** Every white space character is a space that follows no white space;
    [in_run] tells that the character before the text was white space. *)
Fixpoint single_spaced (in_run : bool) (s : string) : bool :=
  match s with
  | EmptyString => true
  | String c s' =>
      if is_space c then Ascii.eqb c " " && negb in_run && single_spaced true s'
      else single_spaced false s'
  end.

Definition not_punctuation (c : ascii) : bool := negb (is_punctuation c).

(** The text does not begin with white space. *)
Definition starts_clean (s : string) : bool :=
  match s with
  | EmptyString => true
  | String c _ => negb (is_space c)
  end.

(** ** The fuzzy pass, for stating its properties *)

(** The similarity of a choice to the query, as [simpleFuzzyMatch] computes
    it. *)
Definition choice_similarity (query choice : string) : Q :=
  calculateSimilarity (toLowerCase query) (toLowerCase choice).

(** The score an item gets in [alternatives]. *)
Definition item_score (extractedValue : string) (item : MasterDataItem) : Z :=
  round_half_up (choice_similarity extractedValue (name item)).

(** A list of scored choices in descending order of score. *)
Definition descending (l : list (string * Q)) : Prop :=
  StronglySorted (fun x y => (snd y <= snd x)%Q) l.

(** ** The ways through [validateField] *)

Section ValidationPaths.

Variable fetchMasterData : string -> DataType -> list MasterDataItem.
Variable chat_completion :
  string -> list Alternative -> string -> option DocumentContext -> option GptReply.

(** [validate_path extractedValue fieldName clientId ctx r]: [r] is what
    one of the six [return] statements of [validateField] gives for these
    arguments, under the conditions that lead to it. *)
Inductive validate_path (extractedValue : option string)
    (fieldName clientId : string) (ctx : option DocumentContext)
  : ValidationResult -> Prop :=
  | path_no_value :
      is_truthy extractedValue = false ->
      validate_path extractedValue fieldName clientId ctx
        (no_match_result fieldName "")
  | path_no_master_data v :
      extractedValue = Some v -> truthy v = true ->
      fetchMasterData clientId (resolve_data_type fieldName) = [] ->
      validate_path extractedValue fieldName clientId ctx
        (no_match_result fieldName v)
  | path_exact v exactMatch :
      extractedValue = Some v -> truthy v = true ->
      List.find (is_exact_match v)
        (fetchMasterData clientId (resolve_data_type fieldName))
        = Some exactMatch ->
      validate_path extractedValue fieldName clientId ctx
        {| field := fieldName; extracted_value := v;
           matched_code := Some (code exactMatch);
           matched_name := Some (name exactMatch);
           confidence := 100; status := exact; alternatives := [] |}
  | path_accept v best others :
      extractedValue = Some v -> truthy v = true ->
      List.find (is_exact_match v)
        (fetchMasterData clientId (resolve_data_type fieldName)) = None ->
      fuzzy_alternatives v (fetchMasterData clientId (resolve_data_type fieldName))
        = best :: others ->
      85 < score best ->
      validate_path extractedValue fieldName clientId ctx
        {| field := fieldName; extracted_value := v;
           matched_code := Some (alt_code best);
           matched_name := Some (alt_name best);
           confidence := score best;
           status := if score best >? 90 then fuzzy_high else fuzzy_medium;
           alternatives := take 5 others |}
  | path_oracle v best others sel :
      extractedValue = Some v -> truthy v = true ->
      List.find (is_exact_match v)
        (fetchMasterData clientId (resolve_data_type fieldName)) = None ->
      fuzzy_alternatives v (fetchMasterData clientId (resolve_data_type fieldName))
        = best :: others ->
      60 < score best <= 85 ->
      selectBestMatchWithGPT chat_completion v (take 10 (best :: others))
        fieldName ctx = Some sel ->
      validate_path extractedValue fieldName clientId ctx
        {| field := fieldName; extracted_value := v;
           matched_code := Some (sel_code sel);
           matched_name := Some (sel_name sel);
           confidence := sel_confidence sel;
           status := if sel_confidence sel >? 75 then fuzzy_medium else fuzzy_low;
           alternatives :=
             take 5
               (List.filter
                  (fun a => negb (String.eqb (alt_code a) (sel_code sel)))
                  (best :: others)) |}
  | path_no_good_match v best others :
      extractedValue = Some v -> truthy v = true ->
      List.find (is_exact_match v)
        (fetchMasterData clientId (resolve_data_type fieldName)) = None ->
      fuzzy_alternatives v (fetchMasterData clientId (resolve_data_type fieldName))
        = best :: others ->
      score best <= 60
      \/ (60 < score best <= 85
          /\ selectBestMatchWithGPT chat_completion v (take 10 (best :: others))
               fieldName ctx = None) ->
      validate_path extractedValue fieldName clientId ctx
        (no_good_match fieldName v (best :: others)).

End ValidationPaths.

(** Master data with two items that equal "V1" up to letter case: the
    second by its name, the third by its code. *)
Definition two_exact : list MasterDataItem :=
  [ item "A" "Zeta"; item "C" "v1"; item "V1" "Other" ].

(** ** The text of a block, for stating its properties *)

(** What a child identifier adds to the text in [getText]: the text of the
    block of that identifier when it is a [WORD]. *)
Definition word_of (blockMap : JsMap.t Block) (childId : string) : option string :=
  match JsMap.get blockMap (Some childId) with
  | Some childBlock =>
      if bool_decide (BlockType childBlock = Some "WORD")
      then Some (text_or_undefined (Text childBlock))
      else None
  | None => None
  end.

(** The words of a block, in the order [getText] visits them. *)
Definition child_words (block : Block) (blockMap : JsMap.t Block) : list string :=
  omap (word_of blockMap)
    (flat_map (ids_of_type "CHILD") (default [] (Relationships block))).

(** Every word followed by a space. *)
Fixpoint spaced (ws : list string) : string :=
  match ws with
  | [] => ""
  | w :: ws' => w +:+ " " +:+ spaced ws'
  end.

(** A word that [trim] leaves as it is and that is not empty. *)
Definition trimmed_word (w : string) : Prop := w <> "" /\ trim w = w.

(** A key marker whose only child has no text. *)
Definition textless_key : list Block :=
  [ block "w1" "WORD"; word "w2" "Alice"; alice_value;
    with_edges [("VALUE", ["v1"]); ("CHILD", ["w1"; "w2"; "missing"; "v1"])]
      (with_entity "KEY" (block "k" "KEY_VALUE_SET")) ].

(** ** Tables, for stating their properties *)

(** The number of row arrays [rows] holds at its array indices. *)
Definition allocated (rows : JsArray.t (JsArray.t string)) : nat :=
  length (omap id (JsArray.items rows)).

(** A table of two cells written to the same position, row 1, column 2. *)
Definition overwritten_cells : list Cell :=
  [ {| rowIndex := 1; columnIndex := 2; text := "Alice"; rowSpan := 1; columnSpan := 1 |};
    second_column_cell;
    {| rowIndex := 2; columnIndex := 2; text := "Carol"; rowSpan := 1; columnSpan := 1 |} ].

(** One table with two cells in one row. *)
Definition one_row_table : list Block :=
  [ word "w1" "Name"; word "w2" "Alice";
    {| Id := Some "c1"; BlockType := Some "CELL"; Text := None; EntityTypes := None;
       Relationships := Some [ {| RelType := Some "CHILD"; Ids := Some ["w1"] |} ];
       RowIndex := Some 1; ColumnIndex := Some 1; RowSpan := None; ColumnSpan := None;
       Confidence := None; BlockGeometry := None |};
    {| Id := Some "c2"; BlockType := Some "CELL"; Text := None; EntityTypes := None;
       Relationships := Some [ {| RelType := Some "CHILD"; Ids := Some ["w2"] |} ];
       RowIndex := Some 1; ColumnIndex := Some 2; RowSpan := None; ColumnSpan := None;
       Confidence := None; BlockGeometry := None |};
    with_edges [("CHILD", ["c1"; "c2"; "c9"])] (block "t" "TABLE") ].

(** The entry a block adds to [signatures]. *)
Definition signature_of (b : Block) : option Signature :=
  if has_type "SIGNATURE" b
  then Some {| sig_confidence := Confidence b; sig_geometry := BlockGeometry b |}
  else None.

(** ** The queue handler of the document processor *)

(** A value [JSON.parse] returns; a number is the value of the parsed
    double, and the members of an object are its own properties. *)
#[warnings="-register-all"]
Inductive Json :=
  | JNull
  | JBool (b : bool)
  | JNumber (n : Q)
  | JString (s : string)
  | JArray (elements : list Json)
  | JObject (members : list (string * Json)).

(** A JSON value used as a condition. *)
Definition json_truthy (v : Json) : bool :=
  match v with
  | JNull => false
  | JBool b => b
  | JNumber n => negb (Qeq_bool n 0)
  | JString s => truthy s
  | JArray _ | JObject _ => true
  end.

(** What a [throw] statement throws: an [Error], of the code or of the
    runtime, or any other value. *)
Inductive Thrown :=
  | Error (message : string)
  | NotAnError.

(** [error instanceof Error ? error.message : 'Unknown error'] *)
Definition error_message (error : Thrown) : string :=
  match error with
  | Error message => message
  | NotAnError => "Unknown error"
  end.

(** [try { body } catch (error) { handler }] with the value or the
    exception of [body]. *)
Definition try_catch {A} (body : Thrown + A) (handler : Thrown -> Thrown + A)
  : Thrown + A :=
  match body with
  | inl error => handler error
  | inr v => inr v
  end.

(** How the promise of an [async] function settles. *)
Inductive Settled (A : Type) :=
  | fulfilled (v : A)
  | rejected (reason : Thrown).
Arguments fulfilled {A} _.
Arguments rejected {A} _.

Definition settle {A} (body : Thrown + A) : Settled A :=
  match body with
  | inl error => rejected error
  | inr v => fulfilled v
  end.

Definition is_fulfilled {A} (r : Settled A) : bool :=
  match r with fulfilled _ => true | rejected _ => false end.

Definition is_rejected {A} (r : Settled A) : bool :=
  match r with fulfilled _ => false | rejected _ => true end.

(** A number in a template literal: an index prints in decimal. *)
Definition decimal (n : nat) : string := NilEmpty.string_of_uint (Nat.to_uint n).

Definition SUPPORTED_FILE_TYPES : list string :=
  [ ".pdf"; ".jpg"; ".jpeg"; ".png"; ".webp"; ".gif" ].

Record JobData := {
  documentId : string;
  userId : string;
  fileUrl : string;
  filename : string;
  receiptHandle : option Json
}.

(** [data.name] for the names [validateJobData] reads: none of them is an
    index or the [length] of an array, or a member of a prototype. *)
Definition member (data : Json) (name : string) : option Json :=
  match data with
  | JObject members =>
      snd <$> List.find (fun m => String.eqb (fst m) name) members
  | _ => None
  end.

(** The string [x] for which
    [!x || typeof x !== 'string' || x.trim().length === 0] is false. *)
Definition non_blank_string (x : option Json) : option string :=
  match x with
  | Some (JString s) =>
      if truthy s && negb (Nat.eqb (String.length (trim s)) 0) then Some s else None
  | _ => None
  end.

(** [s.lastIndexOf(c)] for a character [c]: -1 when [c] is not in [s]. *)
Fixpoint lastIndexOf (s : string) (c : ascii) : Z :=
  match s with
  | EmptyString => -1
  | String d s' =>
      let i := lastIndexOf s' c in
      if i =? -1 then (if Ascii.eqb d c then 0 else -1) else i + 1
  end.

Fixpoint drop_chars (n : nat) (s : string) : string :=
  match n, s with
  | O, _ => s
  | S n', String _ s' => drop_chars n' s'
  | S _, EmptyString => EmptyString
  end.

(** [s.substring(start)]: a negative [start] counts as 0, one past the end
    as the length. *)
Definition substring_from (s : string) (start : Z) : string :=
  drop_chars (Z.to_nat start) s.

Section JobValidation.

(** [new URL(s)] does not throw. *)
Variable valid_url : string -> bool.

Definition validateJobData (data : Json) : Thrown + JobData :=
  match data with
  | JObject _ | JArray _ =>
      match non_blank_string (member data "documentId") with
      | None => inl (Error "Invalid documentId: must be a non-empty string")
      | Some documentId =>
      match non_blank_string (member data "userId") with
      | None => inl (Error "Invalid userId: must be a non-empty string")
      | Some userId =>
      match member data "fileUrl" with
      | Some (JString fileUrl) =>
          if negb (truthy fileUrl) then
            inl (Error "Invalid fileUrl: must be a string")
          else if negb (valid_url fileUrl) then
            inl (Error "Invalid fileUrl: must be a valid URL")
          else
            match non_blank_string (member data "filename") with
            | None => inl (Error "Invalid filename: must be a non-empty string")
            | Some filename =>
                let fileExt :=
                  substring_from (toLowerCase filename)
                    (lastIndexOf filename "."%char) in
                if bool_decide (fileExt ∈ SUPPORTED_FILE_TYPES) then
                  inr {| documentId := documentId; userId := userId;
                         fileUrl := fileUrl; filename := filename;
                         receiptHandle := member data "receiptHandle" |}
                else
                  inl (Error ("Unsupported file type: " +:+ fileExt
                              +:+ ". Supported types: "
                              +:+ String.concat ", " SUPPORTED_FILE_TYPES))
            end
      | _ => inl (Error "Invalid fileUrl: must be a string")
      end
      end
      end
  | _ => inl (Error "Invalid job data: must be an object")
  end.

(** [JSON.parse]; [None] stands for a syntax error. *)
Variable json_parse : string -> option Json.

Definition safeJsonParse (jsonString : string) (fallback : Json) : Json :=
  match json_parse jsonString with
  | Some JNull => fallback
  | Some parsed => parsed
  | None => fallback
  end.

(** [processDocument], awaited: [None] when it resolves, the value it
    throws otherwise. *)
Variable processDocument : JobData -> option Thrown.

(** What the function mapped over [event.Records] returns. *)
Inductive Outcome :=
  | succeeded (id : string)
  | not_processed (error : string) (index : nat).

(** The function mapped over [event.Records]; a record is given by its
    body, [None] standing for a record without one. *)
Definition process_record (index : nat) (record : option string) : Settled Outcome :=
  settle
    (try_catch
       (match record with
        | Some body =>
            if truthy body then
              let rawJobData := safeJsonParse body JNull in
              if json_truthy rawJobData then
                match validateJobData rawJobData with
                | inr jobData =>
                    match processDocument jobData with
                    | None => inr (succeeded (documentId jobData))
                    | Some error => inl error
                    end
                | inl error => inl error
                end
              else
                inl (Error ("Invalid JSON in SQS record body at index "
                            +:+ decimal index))
            else
              inl (Error ("Invalid SQS record at index " +:+ decimal index
                          +:+ ": missing body"))
        | None =>
            inl (Error ("Invalid SQS record at index " +:+ decimal index
                        +:+ ": missing body"))
        end)
       (fun error => inr (not_processed (error_message error) index))).

(** The response of the handler: its status code and the content of its
    body. *)
Record Response := {
  statusCode : Z;
  successful : nat;
  failed : nat;
  message : option string
}.

(** [handler] for an event whose [Records] is an array. *)
Definition handler (records : list (option string)) : Response :=
  if Nat.eqb (length records) 0 then
    {| statusCode := 200; successful := 0; failed := 0;
       message := Some "No records to process" |}
  else
    let results := imap process_record records in
    {| statusCode := 200;
       successful := length (List.filter is_fulfilled results);
       failed := length (List.filter is_rejected results);
       message := None |}.

End JobValidation.

(** A URL check that accepts the addresses starting with "https://". *)
Definition https_only (s : string) : bool := startsWith s "https://".

Definition sample_job : Json :=
  JObject [ ("documentId", JString "d1"); ("userId", JString "u1");
            ("fileUrl", JString "https://files.example/scan.v2.PDF");
            ("filename", JString "Scan.v2.PDF"); ("clientId", JString "c1") ].

(** ** The fields of a processed document *)

(** The separator [processWithGPT4] and [extractWithGPT4] join an array
    value with. *)
Definition separator_for (key : string) : string :=
  if includes (toLowerCase key) "item" || includes (toLowerCase key) "text"
     || includes (toLowerCase key) "description"
  then " | " else ", ".

(** [normalizedValue]: an array is replaced by the string
    [value.join(separator)], given here by the separator and the elements
    joined. *)
Inductive Normalized :=
  | Joined (separator : string) (elements : list Json)
  | Kept (v : Json).

(** The object [{ value: normalizedValue, confidence: 0.95 }]. *)
Record Wrapped := {
  wrapped_value : Normalized;
  wrapped_confidence : Q
}.

Definition wrap (key : string) (v : Json) : Wrapped :=
  {| wrapped_value :=
       match v with
       | JArray elements => Joined (separator_for key) elements
       | _ => Kept v
       end;
     wrapped_confidence := 95 # 100 |}.

(** [Object.entries(result)]: the members of an object, the elements of an
    array and the characters of a string under their indices, nothing for
    a number or a boolean.  The [result] is never [null]: [safeJsonParse]
    has put the fallback in its place. *)
Definition entries (result : Json) : list (string * Json) :=
  match result with
  | JObject members => members
  | JArray elements => imap (fun i e => (decimal i, e)) elements
  | JString s =>
      imap (fun i c => (decimal i, JString (String c EmptyString)))
        (list_ascii_of_string s)
  | _ => []
  end.

(** The loop that fills [fieldsWithConfidence], as the own properties of
    that object: the key [__proto__] reaches the setter of
    [Object.prototype] and adds none. *)
Definition fieldsWithConfidence (result : Json) : gmap string Wrapped :=
  fold_left
    (fun fields kv =>
       if String.eqb (fst kv) "__proto__" then fields
       else <[fst kv := wrap (fst kv) (snd kv)]> fields)
    (entries result) ∅.

(** A field of [processed.fields]: a wrapped value, or the matched code
    that replaced it. *)
Inductive Field :=
  | Wrapper (w : Wrapped)
  | Code (c : string).

Definition field_truthy (f : Field) : bool :=
  match f with
  | Wrapper _ => true
  | Code c => truthy c
  end.

Definition required : list string :=
  [ "invoicing_party"; "document_date"; "invoice_gross_amount" ].

(** [determineStatus]; none of the required names is inherited from a
    prototype, so [fields[field]] is an own property or [undefined]. *)
Definition determineStatus (fields : gmap string Field) : string :=
  if forallb
       (fun field =>
          match fields !! field with
          | Some v => field_truthy v
          | None => false
          end)
       required
  then "ready_for_export" else "needs_mapping".

(** ** Validation of the fields in [processDocument] *)

(** The condition under which [processDocument] replaces a field by the
    matched code:
    [validation.confidence >= 85 && validation.matched_code]. *)
Definition applies (confidence : Z) (matched_code : option string) : bool :=
  (85 <=? confidence) && is_truthy matched_code.

(** A validation result whose [extracted_value] is a wrapped field. *)
Record ObjectValidation := {
  ov_field : string;
  ov_extracted_value : Wrapped;
  ov_matched_code : option string;
  ov_matched_name : option string;
  ov_confidence : Z;
  ov_status : Status;
  ov_alternatives : list Alternative
}.

Section WrappedValidation.

Variable fetchMasterData : string -> DataType -> list MasterDataItem.

(** The [TypeError] the runtime throws when the code calls a method that
    the object does not have. *)
Variable not_a_function : Thrown.

(** [validateField] when [extractedValue] is a wrapped field, as every
    field that [extractWithGPT4] returns is.  The object is truthy, so the
    master data is fetched; and with master data the test for an exact
    match calls [extractedValue.toLowerCase], which an object does not
    have, on the first item. *)
Definition validateField_object (extractedValue : Wrapped)
    (fieldName clientId : string) : Thrown + ObjectValidation :=
  let dataType := resolve_data_type fieldName in
  let masterData := fetchMasterData clientId dataType in
  if Nat.eqb (length masterData) 0 then
    inr {| ov_field := fieldName; ov_extracted_value := extractedValue;
           ov_matched_code := None; ov_matched_name := None;
           ov_confidence := 0; ov_status := no_match; ov_alternatives := [] |}
  else inl not_a_function.

(** [validateDocumentFields] on wrapped fields: the first call that throws
    ends the loop. *)
Definition validateDocumentFields_objects (extractedFields : gmap string Wrapped)
    (clientId : string) : Thrown + gmap string ObjectValidation :=
  fold_left
    (fun results fieldName =>
       match results with
       | inl error => inl error
       | inr results =>
           match extractedFields !! fieldName with
           | Some extractedValue =>
               match validateField_object extractedValue fieldName clientId with
               | inl error => inl error
               | inr validation => inr (<[fieldName := validation]> results)
               end
           | None => inr results
           end
       end)
    LIST_MATCH_FIELDS (inr ∅).

(** The loop of [processDocument] over the validation results, from the
    copy [{ ...extracted.fields }] on. *)
Definition apply_validation (fields : gmap string Wrapped)
    (validationResults : gmap string ObjectValidation) : gmap string Field :=
  fold_left
    (fun validatedFields entry =>
       match ov_matched_code (snd entry) with
       | Some matched_code =>
           if applies (ov_confidence (snd entry)) (Some matched_code)
           then <[fst entry := Code matched_code]> validatedFields
           else validatedFields
       | None => validatedFields
       end)
    (map_to_list validationResults) (Wrapper <$> fields).

(** Step 3 of [processDocument]: [validatedFields], unless the validation
    throws. *)
Definition validatedFields (fields : gmap string Wrapped) (clientId : string)
  : Thrown + gmap string Field :=
  match validateDocumentFields_objects fields clientId with
  | inl error => inl error
  | inr validationResults => inr (apply_validation fields validationResults)
  end.

End WrappedValidation.

(** ** [validateDocumentFields] on any field map *)

(** [extractedFields] is a [Record<string, any>].  A value of it is taken
    here to be what a parsed chat answer holds: [null], a boolean, a
    number, a string, an array or an object of such values, the wrapped
    field [{ value, confidence }] of [extractWithGPT4] among them; a key
    without an entry reads as [undefined].  Of a value that is not a string
    the code uses the truthiness and, when there is master data, the member
    [toLowerCase], which is a function for none of these values. *)

(** [extractedFields[key]] used as a condition *)
Definition value_truthy (v : option Json) : bool :=
  match v with
  | Some v => json_truthy v
  | None => false
  end.

(** [a || b] *)
Definition value_or (a b : option Json) : option Json :=
  if value_truthy a then a else b.

(** The object [documentContext] of [validateDocumentFields]. *)
Record FieldsContext := {
  context_vendor : option Json;
  context_amount : option Json;
  context_date : option Json;
  context_description : option Json
}.

Definition fields_context (extractedFields : gmap string Json) : FieldsContext :=
  {| context_vendor := value_or (extractedFields !! "invoicing_party")
                                (extractedFields !! "vendor_name");
     context_amount := extractedFields !! "invoice_gross_amount";
     context_date := extractedFields !! "document_date";
     context_description := extractedFields !! "document_header_text" |}.

(** A result of [validateField] with the extracted value as it was given. *)
Record AnyValidation := {
  any_field : string;
  any_extracted_value : Json;
  any_matched_code : option string;
  any_matched_name : option string;
  any_confidence : Z;
  any_status : Status;
  any_alternatives : list Alternative
}.

(** A result for a string. *)
Definition of_string_result (r : ValidationResult) : AnyValidation :=
  {| any_field := field r; any_extracted_value := JString (extracted_value r);
     any_matched_code := matched_code r; any_matched_name := matched_name r;
     any_confidence := confidence r; any_status := status r;
     any_alternatives := alternatives r |}.

Section AnyFields.

Variable fetchMasterData : string -> DataType -> list MasterDataItem.
Variable chat_completion :
  string -> list Alternative -> string -> FieldsContext -> option GptReply.

(** The [TypeError] of [extractedValue.toLowerCase()] on a value without
    that method. *)
Variable not_a_function : Thrown.

(** [validateField] on any value.  A falsy one gets the first [return]; a
    truthy one that is not a string gets the second [return] when there
    is no master data, and otherwise the test for an exact match throws
    on the first item. *)
Definition validateField_any (extractedValue : option Json)
    (fieldName clientId : string) (documentContext : FieldsContext)
  : Thrown + AnyValidation :=
  match extractedValue with
  | Some (JString s) =>
      inr (of_string_result
             (validateField fetchMasterData chat_completion (Some s)
                fieldName clientId documentContext))
  | Some v =>
      if json_truthy v then
        let dataType := resolve_data_type fieldName in
        let masterData := fetchMasterData clientId dataType in
        if Nat.eqb (length masterData) 0 then
          inr {| any_field := fieldName; any_extracted_value := v;
                 any_matched_code := None; any_matched_name := None;
                 any_confidence := 0; any_status := no_match;
                 any_alternatives := [] |}
        else inl not_a_function
      else inr (of_string_result (no_match_result fieldName ""))
  | None => inr (of_string_result (no_match_result fieldName ""))
  end.

(** The body of the loop of [validateDocumentFields]; an exception of
    [validateField] ends the loop and the function. *)
Definition validate_entry (extractedFields : gmap string Json) (clientId : string)
    (documentContext : FieldsContext)
    (results : Thrown + gmap string AnyValidation) (fieldName : string)
  : Thrown + gmap string AnyValidation :=
  match results with
  | inl error => inl error
  | inr results =>
      if value_truthy (extractedFields !! fieldName) then
        match validateField_any (extractedFields !! fieldName) fieldName
                clientId documentContext with
        | inl error => inl error
        | inr validation => inr (<[fieldName := validation]> results)
        end
      else inr results
  end.

Definition validateDocumentFields_any (extractedFields : gmap string Json)
    (clientId : string) : Thrown + gmap string AnyValidation :=
  let documentContext := fields_context extractedFields in
  fold_left (validate_entry extractedFields clientId documentContext)
    LIST_MATCH_FIELDS (inr ∅).

End AnyFields.

(** The falsy values among those of a field map: [null], [false], [0] and
    the empty string; for stating which fields get an entry. *)
Definition falsy_value (v : Json) : Prop :=
  v = JNull \/ v = JBool false \/ v = JString ""
  \/ exists n, v = JNumber n /\ (n == 0)%Q.

(** A chat completion that always fails, for any field map. *)
Definition failing_chat_any
  : string -> list Alternative -> string -> FieldsContext -> option GptReply :=
  fun _ _ _ _ => None.

(** A field map with a vendor name, an amount that is a number, a cost
    centre that is [null], an empty account and a field that is not
    configured. *)
Definition mixed_fields : gmap string Json :=
  <["invoicing_party" := JString "abcdefghij"]>
    (<["invoice_gross_amount" := JNumber 1200]>
       (<["cost_center" := JNull]>
          (<["gl_account" := JString ""]>
             (<["currency" := JString "EUR"]> ∅)))).

(** A field map as [extractWithGPT4] returns it: every field is wrapped. *)
Definition wrapped_fields : gmap string Json :=
  <["invoicing_party" :=
      JObject [("value", JString "Acme"); ("confidence", JNumber (95 # 100))]]>
    (<["currency" :=
         JObject [("value", JString "EUR"); ("confidence", JNumber (95 # 100))]]> ∅).

(** A string or [null] as a value of a field map. *)
Definition string_or_null (v : option string) : Json :=
  match v with
  | Some s => JString s
  | None => JNull
  end.

(** What a string-only context keeps of a context: the strings. *)
Definition string_of_value (v : option Json) : option string :=
  match v with
  | Some (JString s) => Some s
  | _ => None
  end.

Definition strings_of_context (c : FieldsContext) : DocumentContext :=
  {| vendor := string_of_value (context_vendor c);
     amount := string_of_value (context_amount c);
     date := string_of_value (context_date c);
     ctx_description := string_of_value (context_description c) |}.

(** A chat answer with all three required fields, two of them without a
    value. *)
Definition hollow_answer : Json :=
  JObject [ ("invoicing_party", JNull); ("document_date", JString "");
            ("invoice_gross_amount", JNumber 0); ("line_items", JArray []) ].



(** * Properties *)

(** ** The similarity scorer *)

(** *** Cleaning never lengthens a name *)

Lemma remove_suffixes_length s : forall prev skip,
  (String.length (remove_suffixes prev skip s) <= String.length s)%nat.
Proof.
  induction s as [|c s IH]; intros prev skip; cbn [remove_suffixes String.length].
  - lia.
  - destruct skip as [|k].
    + destruct (match_suffix_at prev (String c s)) as [[|k]|];
        cbn [String.length]; try (specialize (IH (Some c) O); lia).
      specialize (IH (Some c) k); lia.
    + specialize (IH (Some c) k); lia.
Qed.

Lemma remove_punctuation_length s :
  (String.length (remove_punctuation s) <= String.length s)%nat.
Proof.
  induction s as [|c s IH]; cbn [remove_punctuation String.length]; [lia|].
  destruct (is_punctuation c); cbn [String.length]; lia.
Qed.

Lemma collapse_spaces_length s : forall in_run,
  (String.length (collapse_spaces in_run s) <= String.length s)%nat.
Proof.
  induction s as [|c s IH]; intros in_run; cbn [collapse_spaces String.length]; [lia|].
  destruct (is_space c); [destruct in_run|]; cbn [String.length];
    try (specialize (IH true); lia).
  specialize (IH false); lia.
Qed.

Lemma trimStart_length s : (String.length (trimStart s) <= String.length s)%nat.
Proof.
  induction s as [|c s IH]; cbn [trimStart String.length]; [lia|].
  destruct (is_space c); cbn [String.length]; lia.
Qed.

Lemma trimEnd_length s : (String.length (trimEnd s) <= String.length s)%nat.
Proof.
  induction s as [|c s IH]; cbn [trimEnd String.length]; [lia|].
  destruct (trimEnd s) as [|c' t]; [destruct (is_space c)|];
    cbn [String.length] in *; lia.
Qed.

Lemma cleanCompanyName_length s :
  (String.length (cleanCompanyName s) <= String.length s)%nat.
Proof.
  unfold cleanCompanyName, trim.
  etransitivity; [apply trimEnd_length|].
  etransitivity; [apply trimStart_length|].
  etransitivity; [apply collapse_spaces_length|].
  etransitivity; [apply remove_punctuation_length|].
  apply remove_suffixes_length.
Qed.

(** *** The table of [levenshteinDistance] stays below the longer length *)

Lemma lev_row_bounded c s2 : forall prev left i j0,
  cells_bounded i j0 prev ->
  cells_bounded (S i) (S j0) (lev_row c s2 prev left).
Proof.
  induction s2 as [|d s2 IH]; intros prev left i j0 Hprev k x; cbn [lev_row].
  - intros H; discriminate.
  - destruct prev as [|diag [|up rest]]; try (intros H; discriminate).
    assert (Hdiag : (diag <= Nat.max i j0)%nat).
    { specialize (Hprev O diag eq_refl). now rewrite Nat.add_0_r in Hprev. }
    destruct k as [|k]; cbn.
    + intros [= <-]. destruct (Ascii.eqb c d); lia.
    + intros Hk.
      assert (Hshift : cells_bounded i (S j0) (up :: rest)).
      { intros k' y Hy. specialize (Hprev (S k') y Hy). lia. }
      specialize (IH _ _ _ _ Hshift k x Hk). lia.
Qed.

Lemma lev_rows_bounded s2 s1 : forall i row,
  cells_bounded i O row ->
  cells_bounded (i + Datatypes.length s1) O (lev_rows s1 s2 i row).
Proof.
  induction s1 as [|c s1 IH]; intros i row Hrow; cbn [lev_rows Datatypes.length].
  - now rewrite Nat.add_0_r.
  - replace (i + S (Datatypes.length s1))%nat
      with (S i + Datatypes.length s1)%nat by lia.
    apply IH. intros [|k] x; cbn.
    + intros [= <-]. lia.
    + intros Hk.
      pose proof (lev_row_bounded c s2 row (S i) i O Hrow k x Hk). lia.
Qed.

Lemma lev_row_length c s2 : forall prev left,
  (Datatypes.length (lev_row c s2 prev left) <= Datatypes.length s2)%nat.
Proof.
  induction s2 as [|d s2 IH]; intros prev left; cbn [lev_row Datatypes.length].
  - lia.
  - destruct prev as [|diag [|up rest]]; cbn [Datatypes.length]; try lia.
    specialize (IH (up :: rest)
                   (if Ascii.eqb c d then diag
                    else S (Nat.min up (Nat.min left diag)))).
    lia.
Qed.

Lemma lev_rows_length s2 s1 : forall i row,
  (Datatypes.length row <= S (Datatypes.length s2))%nat ->
  (Datatypes.length (lev_rows s1 s2 i row) <= S (Datatypes.length s2))%nat.
Proof.
  induction s1 as [|c s1 IH]; intros i row Hrow; cbn [lev_rows]; [assumption|].
  apply IH. cbn [Datatypes.length].
  pose proof (lev_row_length c s2 row (S i)). lia.
Qed.

Lemma last_lookup (l : list nat) :
  l = [] \/ l !! (Datatypes.length l - 1)%nat = Some (List.last l O).
Proof.
  induction l as [|x l IH]; [now left|right].
  destruct IH as [->|IH]; [reflexivity|].
  destruct l as [|y l]; [reflexivity|].
  cbn [Datatypes.length] in *.
  replace (S (S (Datatypes.length l)) - 1)%nat with (S (Datatypes.length l)) by lia.
  replace (S (Datatypes.length l) - 1)%nat with (Datatypes.length l) in IH by lia.
  exact IH.
Qed.

Lemma string_length_list s :
  Datatypes.length (list_ascii_of_string s) = String.length s.
Proof. induction s as [|c s IH]; cbn; congruence. Qed.

Lemma levenshteinDistance_bound s1 s2 :
  (levenshteinDistance s1 s2 <= Nat.max (String.length s1) (String.length s2))%nat.
Proof.
  unfold levenshteinDistance. cbv zeta.
  set (l1 := list_ascii_of_string s1). set (l2 := list_ascii_of_string s2).
  set (row := lev_rows l1 l2 O (seq O (S (Datatypes.length l2)))).
  assert (Hb : cells_bounded (Datatypes.length l1) O row).
  { apply (lev_rows_bounded l2 l1 O). intros k x Hk.
    apply lookup_seq in Hk. lia. }
  assert (Hl : (Datatypes.length row <= S (Datatypes.length l2))%nat).
  { apply lev_rows_length. rewrite length_seq. lia. }
  rewrite <- !string_length_list. fold l1 l2.
  destruct (last_lookup row) as [->|Hlast]; [cbn; lia|].
  specialize (Hb _ _ Hlast). lia.
Qed.


(** *** The table computes the edit distance *)

Lemma lev_rec_nil_r a : lev_rec a [] = Datatypes.length a.
Proof. destruct a; reflexivity. Qed.

Lemma lev_rec_cons x a y b :
  lev_rec (x :: a) (y :: b)
  = if Ascii.eqb x y then lev_rec a b
    else S (Nat.min (lev_rec a (y :: b))
              (Nat.min (lev_rec (x :: a) b) (lev_rec a b))).
Proof. reflexivity. Qed.

(** One row of the table, from the row above. *)
Lemma lev_row_spec c A : forall rest B,
  lev_row c rest (map (lev_rec A) (B :: longer_prefixes B rest))
    (lev_rec (c :: A) B)
  = map (lev_rec (c :: A)) (longer_prefixes B rest).
Proof.
  induction rest as [|e rest IH]; intros B; [reflexivity|].
  cbn [longer_prefixes map lev_row].
  rewrite <- lev_rec_cons. f_equal.
  exact (IH (e :: B)).
Qed.

(** All rows below, from one row. *)
Lemma lev_rows_spec s2 : forall s1 A,
  lev_rows s1 s2 (Datatypes.length A)
    (map (lev_rec A) ([] :: longer_prefixes [] s2))
  = map (lev_rec (rev s1 ++ A)) ([] :: longer_prefixes [] s2).
Proof.
  induction s1 as [|c s1 IH]; intros A; [reflexivity|].
  cbn [lev_rows rev]. rewrite <- app_assoc. cbn [app].
  rewrite <- (IH (c :: A)). cbn [Datatypes.length]. f_equal.
  rewrite <- (lev_rec_nil_r (c :: A)) at 2.
  rewrite (lev_row_spec c A s2 []). reflexivity.
Qed.

Lemma longer_prefixes_lengths rest : forall done,
  map Datatypes.length (longer_prefixes done rest)
  = seq (S (Datatypes.length done)) (Datatypes.length rest).
Proof.
  induction rest as [|e rest IH]; intros done; [reflexivity|].
  cbn [longer_prefixes map Datatypes.length seq]. f_equal. exact (IH (e :: done)).
Qed.

Lemma last_longer_prefix rest : forall done d,
  List.last (done :: longer_prefixes done rest) d = rev rest ++ done.
Proof.
  induction rest as [|e rest IH]; intros done d; [reflexivity|].
  cbn [longer_prefixes rev]. rewrite <- app_assoc. cbn [app].
  rewrite <- (IH (e :: done) d). reflexivity.
Qed.

Lemma last_any_default {A} (l : list A) : forall y d d',
  List.last (y :: l) d = List.last (y :: l) d'.
Proof.
  induction l as [|z l IH]; intros y d d'; [reflexivity|].
  exact (IH z d d').
Qed.

Lemma last_map {A B} (f : A -> B) (l : list A) : forall (x : A) (d : B),
  List.last (map f (x :: l)) d = f (List.last (x :: l) x).
Proof.
  induction l as [|y l IH]; intros x d; [reflexivity|].
  change (List.last (map f (y :: l)) d = f (List.last (y :: l) x)).
  rewrite IH. f_equal. apply last_any_default.
Qed.

(** The table distance is the recurrence on the LAST characters, that is,
    the recurrence on the reversed strings. *)
Lemma levenshteinDistance_rev s1 s2 :
  levenshteinDistance s1 s2
  = lev_rec (rev (list_ascii_of_string s1)) (rev (list_ascii_of_string s2)).
Proof.
  unfold levenshteinDistance. cbv zeta.
  set (l1 := list_ascii_of_string s1). set (l2 := list_ascii_of_string s2).
  assert (E : seq O (S (Datatypes.length l2))
              = map (lev_rec []) ([] :: longer_prefixes [] l2)).
  { cbn [seq map lev_rec Datatypes.length]. f_equal.
    symmetry. exact (longer_prefixes_lengths l2 []). }
  rewrite E. change O with (Datatypes.length (@nil ascii)) at 1.
  rewrite lev_rows_spec, app_nil_r, last_map, last_longer_prefix, app_nil_r.
  reflexivity.
Qed.

(** The recurrence is reached by an edit script. *)
Lemma edits_lev_rec a : forall b, edits a b (lev_rec a b).
Proof.
  induction a as [|x a IHa]; intros b.
  - induction b as [|y b IHb]; [constructor|]. cbn in *. now constructor.
  - induction b as [|y b IHb].
    + rewrite lev_rec_nil_r. cbn [Datatypes.length]. apply edits_delete.
      rewrite <- (lev_rec_nil_r a). apply IHa.
    + rewrite lev_rec_cons. destruct (Ascii.eqb_spec x y) as [->|Hne].
      * apply edits_keep, IHa.
      * destruct (Nat.min_dec (lev_rec a (y :: b))
                    (Nat.min (lev_rec (x :: a) b) (lev_rec a b))) as [E|E];
          rewrite E.
        -- apply edits_delete, IHa.
        -- destruct (Nat.min_dec (lev_rec (x :: a) b) (lev_rec a b)) as [E'|E'];
             rewrite E'.
           ++ apply edits_insert, IHb.
           ++ apply edits_substitute, IHa.
Qed.

(** One character more or less on either side moves the recurrence by at
    most one. *)
Lemma lev_rec_lipschitz n : forall a b,
  (Datatypes.length a + Datatypes.length b <= n)%nat ->
  (forall x, lev_rec (x :: a) b <= S (lev_rec a b))%nat
  /\ (forall y, lev_rec a (y :: b) <= S (lev_rec a b))%nat
  /\ (forall x, lev_rec a b <= S (lev_rec (x :: a) b))%nat
  /\ (forall y, lev_rec a b <= S (lev_rec a (y :: b)))%nat.
Proof.
  induction n as [|n IH]; intros a b Hn.
  - destruct a, b; cbn in Hn; try lia.
    repeat split; intros; cbn; lia.
  - repeat split.
    + (* a character more on the left *)
      intros x. destruct b as [|y b'].
      * rewrite !lev_rec_nil_r. cbn. lia.
      * rewrite lev_rec_cons. destruct (Ascii.eqb x y).
        -- cbn in Hn. destruct (IH a b' ltac:(lia)) as (_ & _ & _ & H4).
           apply H4.
        -- lia.
    + (* a character more on the right *)
      intros y. destruct a as [|x a'].
      * cbn. lia.
      * rewrite lev_rec_cons. destruct (Ascii.eqb x y).
        -- cbn in Hn. destruct (IH a' b ltac:(lia)) as (_ & _ & H3 & _).
           apply H3.
        -- lia.
    + (* a character less on the left *)
      intros x. destruct b as [|y b'].
      * rewrite !lev_rec_nil_r. cbn. lia.
      * cbn in Hn. destruct (IH a b' ltac:(lia)) as (_ & H2 & H3 & _).
        rewrite lev_rec_cons. specialize (H2 y). specialize (H3 x).
        destruct (Ascii.eqb x y); lia.
    + (* a character less on the right *)
      intros y. destruct a as [|x a'].
      * cbn. lia.
      * cbn in Hn. destruct (IH a' b ltac:(lia)) as (H1 & _ & _ & H4).
        rewrite lev_rec_cons. specialize (H1 x). specialize (H4 y).
        destruct (Ascii.eqb x y); lia.
Qed.

(** No edit script is shorter than the recurrence. *)
Lemma lev_rec_le_edits a b n : edits a b n -> (lev_rec a b <= n)%nat.
Proof.
  induction 1 as [|x a b n _ IH|x y a b n _ IH|x a b n _ IH|y a b n _ IH].
  - cbn. lia.
  - rewrite lev_rec_cons, Ascii.eqb_refl. exact IH.
  - rewrite lev_rec_cons. destruct (Ascii.eqb x y); lia.
  - destruct (lev_rec_lipschitz _ a b (Nat.le_refl _)) as (H1 & _).
    specialize (H1 x). lia.
  - destruct (lev_rec_lipschitz _ a b (Nat.le_refl _)) as (_ & H2 & _).
    specialize (H2 y). lia.
Qed.

(** Edit scripts read backwards. *)
Lemma edits_app a1 b1 n1 : edits a1 b1 n1 ->
  forall a2 b2 n2, edits a2 b2 n2 -> edits (a1 ++ a2) (b1 ++ b2) (n1 + n2).
Proof.
  induction 1; intros a2 b2 n2 H2; cbn; try (constructor; auto).
  exact H2.
Qed.

Lemma edits_rev a b n : edits a b n -> edits (rev a) (rev b) n.
Proof.
  induction 1 as [|x a b n _ IH|x y a b n _ IH|x a b n _ IH|y a b n _ IH];
    cbn [rev].
  - constructor.
  - rewrite <- (Nat.add_0_r n). apply edits_app; [exact IH|].
    apply edits_keep. constructor.
  - replace (S n) with (n + 1)%nat by lia. apply edits_app; [exact IH|].
    apply edits_substitute. constructor.
  - replace (S n) with (n + 1)%nat by lia.
    rewrite <- (app_nil_r (rev b)). apply edits_app; [exact IH|].
    apply edits_delete. constructor.
  - replace (S n) with (n + 1)%nat by lia.
    rewrite <- (app_nil_r (rev a)). apply edits_app; [exact IH|].
    apply edits_insert. constructor.
Qed.

Lemma lev_rec_rev a b : lev_rec (rev a) (rev b) = lev_rec a b.
Proof.
  apply Nat.le_antisymm.
  - apply lev_rec_le_edits, edits_rev, edits_lev_rec.
  - rewrite <- (rev_involutive a), <- (rev_involutive b) at 1.
    apply lev_rec_le_edits, edits_rev, edits_lev_rec.
Qed.

(** [levenshteinDistance] is the unit-cost edit distance: some script of
    insertions, deletions and substitutions of that length turns the first
    string into the second, and none is shorter. *)
Lemma levenshteinDistance_edit_distance s1 s2 :
  edits (list_ascii_of_string s1) (list_ascii_of_string s2)
    (levenshteinDistance s1 s2)
  /\ forall n,
       edits (list_ascii_of_string s1) (list_ascii_of_string s2) n ->
       (levenshteinDistance s1 s2 <= n)%nat.
Proof.
  rewrite levenshteinDistance_rev, lev_rec_rev. split.
  - apply edits_lev_rec.
  - intros n. apply lev_rec_le_edits.
Qed.

(** ** Doubles *)

(** *** Rounding to the nearest integer *)

Lemma half_even_floor x : Qfloor x <= half_even x <= Qfloor x + 1.
Proof.
  unfold half_even. cbv zeta.
  destruct (x - inject_Z (Qfloor x) ?= 1 # 2)%Q; [destruct (Z.even _)| |]; lia.
Qed.

Lemma half_even_mono x y : (x <= y)%Q -> half_even x <= half_even y.
Proof.
  intros Hxy. pose proof (Qfloor_resp_le _ _ Hxy) as Hf.
  pose proof (half_even_floor x). pose proof (half_even_floor y).
  destruct (Z.eq_dec (Qfloor x) (Qfloor y)) as [E|]; [|lia].
  unfold half_even. cbv zeta. rewrite <- E.
  assert (Hr : (x - inject_Z (Qfloor x) <= y - inject_Z (Qfloor x))%Q).
  { unfold Qminus. now apply Qplus_le_l. }
  destruct (Qcompare_spec (x - inject_Z (Qfloor x)) (1 # 2)) as [Ex|Lx|Gx];
  destruct (Qcompare_spec (y - inject_Z (Qfloor x)) (1 # 2)) as [Ey|Ly|Gy];
    try destruct (Z.even (Qfloor x)); try lia; exfalso; lra.
Qed.

Lemma half_even_int n : half_even (inject_Z n) = n.
Proof.
  unfold half_even. cbv zeta. rewrite Qfloor_Z.
  replace (inject_Z n - inject_Z n ?= 1 # 2)%Q with Lt; [reflexivity|].
  symmetry. apply Qlt_alt. unfold Qminus. rewrite Qplus_opp_r. reflexivity.
Qed.

(** *** Powers of two and the exponent of a number *)

Lemma two_neq_0 : ~ (2 == 0)%Q.
Proof. discriminate. Qed.

Lemma pow2_pos e : (0 < 2 ^ e)%Q.
Proof. now apply Qpower_0_lt. Qed.

Lemma pow2_le e e' : e <= e' -> (2 ^ e <= 2 ^ e')%Q.
Proof. intros H. now apply Qpower_le_compat_l. Qed.

Lemma pow2_lt e e' : e < e' -> (2 ^ e < 2 ^ e')%Q.
Proof. intros H. now apply Qpower_lt_compat_l. Qed.

Lemma pow2_Z n : 0 <= n -> (inject_Z (2 ^ n) == 2 ^ n)%Q.
Proof. intros H. now rewrite Zpower_Qpower. Qed.

Lemma binade_bounds (q : Q) :
  (0 < q)%Q -> (2 ^ binade q <= q)%Q /\ (q < 2 ^ (binade q + 1))%Q.
Proof.
  intros Hq. destruct q as [n d]. unfold Qlt in Hq. cbn in Hq.
  assert (Hn : 0 < n) by lia.
  pose proof (Z.log2_spec n Hn) as [Hn1 Hn2].
  pose proof (Z.log2_spec (Z.pos d) eq_refl) as [Hd1 Hd2].
  pose proof (Z.log2_nonneg n). pose proof (Z.log2_nonneg (Z.pos d)).
  set (a := Z.log2 n) in *. set (b := Z.log2 (Z.pos d)) in *.
  assert (Hqd : (n # d == inject_Z n / inject_Z (Z.pos d))%Q).
  { rewrite (Qmake_Qdiv n d). reflexivity. }
  assert (Hdpos : (0 < inject_Z (Z.pos d))%Q) by (rewrite <- (Zlt_Qlt 0); lia).
  assert (Hlow : (2 ^ (a - b - 1) <= n # d)%Q).
  { rewrite Hqd. apply Qle_shift_div_l; [exact Hdpos|].
    apply Qle_trans with (2 ^ (a - b - 1) * 2 ^ (b + 1))%Q.
    - apply Qmult_le_l; [apply pow2_pos|].
      rewrite <- pow2_Z by lia. rewrite <- Zle_Qle. lia.
    - rewrite <- Qpower_plus by apply two_neq_0.
      replace (a - b - 1 + (b + 1)) with a by lia.
      rewrite <- pow2_Z by lia. rewrite <- Zle_Qle. lia. }
  assert (Hhigh : (n # d < 2 ^ (a - b + 1))%Q).
  { rewrite Hqd. apply Qlt_shift_div_r; [exact Hdpos|].
    apply Qlt_le_trans with (2 ^ (a + 1))%Q.
    - rewrite <- pow2_Z by lia. rewrite <- Zlt_Qlt. lia.
    - replace (a + 1) with (a - b + 1 + b) by lia.
      rewrite Qpower_plus by apply two_neq_0.
      apply Qmult_le_l; [apply pow2_pos|].
      rewrite <- pow2_Z by lia. rewrite <- Zle_Qle. lia. }
  unfold binade. cbn [Qnum Qden]. fold a b.
  destruct (Qle_bool (2 ^ (a - b)) (n # d)) eqn:E.
  - apply Qle_bool_iff in E. split; [exact E|exact Hhigh].
  - split; [exact Hlow|].
    replace (a - b - 1 + 1) with (a - b) by lia.
    apply Qnot_le_lt. intros Hle. apply Qle_bool_iff in Hle. congruence.
Qed.

Lemma binade_mono q1 q2 :
  (0 < q1)%Q -> (q1 <= q2)%Q -> binade q1 <= binade q2.
Proof.
  intros H1 H12.
  assert (H2 : (0 < q2)%Q) by (eapply Qlt_le_trans; eassumption).
  destruct (binade_bounds q1 H1) as [L1 _].
  destruct (binade_bounds q2 H2) as [_ U2].
  assert (H : (2 ^ binade q1 < 2 ^ (binade q2 + 1))%Q).
  { eapply Qle_lt_trans; [exact L1|]. eapply Qle_lt_trans; eassumption. }
  apply Qpower_lt_compat_l_inv in H; [lia|reflexivity].
Qed.

(** *** The nearest double *)

Lemma scaled_bounds q :
  (0 < q)%Q ->
  (inject_Z (2 ^ 52) <= q / 2 ^ (binade q - 52))%Q
  /\ (q / 2 ^ (binade q - 52) <= inject_Z (2 ^ 53))%Q.
Proof.
  intros Hq. destruct (binade_bounds q Hq) as [L U].
  pose proof (pow2_pos (binade q - 52)) as He.
  rewrite (pow2_Z 52), (pow2_Z 53) by lia. split.
  - apply Qle_shift_div_l; [exact He|].
    rewrite <- Qpower_plus by apply two_neq_0.
    now replace (52 + (binade q - 52)) with (binade q) by lia.
  - apply Qle_shift_div_r; [exact He|].
    rewrite <- Qpower_plus by apply two_neq_0.
    replace (53 + (binade q - 52)) with (binade q + 1) by lia.
    now apply Qlt_le_weak.
Qed.

Lemma nearest_bounds q :
  (0 < q)%Q ->
  (2 ^ binade q <= nearest q)%Q /\ (nearest q <= 2 ^ (binade q + 1))%Q.
Proof.
  intros Hq. destruct (scaled_bounds q Hq) as [L U].
  apply half_even_mono in L, U. rewrite half_even_int in L, U.
  pose proof (pow2_pos (binade q - 52)) as He.
  unfold nearest. cbv zeta. split.
  - replace (binade q) with (52 + (binade q - 52)) at 1 by lia.
    rewrite Qpower_plus by apply two_neq_0.
    apply Qmult_le_compat_r; [|now apply Qlt_le_weak].
    rewrite <- (pow2_Z 52) by lia. now rewrite <- Zle_Qle.
  - replace (binade q + 1) with (53 + (binade q - 52)) by lia.
    rewrite Qpower_plus by apply two_neq_0.
    apply Qmult_le_compat_r; [|now apply Qlt_le_weak].
    rewrite <- (pow2_Z 53) by lia. now rewrite <- Zle_Qle.
Qed.

Lemma nearest_pos q : (0 < q)%Q -> (0 < nearest q)%Q.
Proof.
  intros Hq. eapply Qlt_le_trans; [apply (pow2_pos (binade q))|].
  now apply nearest_bounds.
Qed.

Lemma nearest_mono q1 q2 :
  (0 < q1)%Q -> (q1 <= q2)%Q -> (nearest q1 <= nearest q2)%Q.
Proof.
  intros H1 H12.
  assert (H2 : (0 < q2)%Q) by (eapply Qlt_le_trans; eassumption).
  pose proof (binade_mono q1 q2 H1 H12) as Hk.
  destruct (Z.eq_dec (binade q1) (binade q2)) as [E|Hne].
  - unfold nearest. cbv zeta. rewrite E.
    pose proof (pow2_pos (binade q2 - 52)) as He.
    apply Qmult_le_compat_r; [|now apply Qlt_le_weak].
    rewrite <- Zle_Qle. apply half_even_mono.
    apply Qmult_le_compat_r; [exact H12|].
    apply Qlt_le_weak, Qinv_lt_0_compat, He.
  - apply Qle_trans with (2 ^ (binade q1 + 1))%Q; [now apply nearest_bounds|].
    apply Qle_trans with (2 ^ binade q2)%Q; [apply pow2_le; lia|].
    now apply nearest_bounds.
Qed.

(** *** [binary64] is monotone *)

Lemma Qnum_pos q : (0 < q)%Q <-> exists p, Qnum q = Z.pos p.
Proof.
  destruct q as [[|p|p] d]; unfold Qlt; cbn; split; try lia.
  - intros [p' H]; discriminate.
  - intros _. now exists p.
  - intros [p' H]; discriminate.
Qed.

Lemma binary64_pos q : (0 < q)%Q -> (binary64 q == nearest q)%Q.
Proof.
  intros H. apply Qnum_pos in H as [p Hp]. unfold binary64. rewrite Hp.
  apply Qred_correct.
Qed.

Lemma binary64_zero q : (q == 0)%Q -> binary64 q = 0%Q.
Proof.
  destruct q as [[|p|p] d]; unfold Qeq; cbn; intros H; try lia. reflexivity.
Qed.

Lemma binary64_neg q : (q < 0)%Q -> (binary64 q == - nearest (- q))%Q.
Proof.
  destruct q as [[|p|p] d]; intros H.
  - exfalso. revert H. unfold Qlt. cbn. lia.
  - exfalso. revert H. unfold Qlt. cbn. lia.
  - unfold binary64. cbn [Qnum]. apply Qred_correct.
Qed.

Lemma binary64_nonneg q : (0 <= q)%Q -> (0 <= binary64 q)%Q.
Proof.
  intros H. apply Qle_lt_or_eq in H as [H|H].
  - rewrite (binary64_pos q H). now apply Qlt_le_weak, nearest_pos.
  - rewrite (binary64_zero q); [apply Qle_refl|now symmetry].
Qed.

Lemma binary64_nonpos q : (q <= 0)%Q -> (binary64 q <= 0)%Q.
Proof.
  intros H. apply Qle_lt_or_eq in H as [H|H].
  - rewrite (binary64_neg q H).
    assert (Hn : (0 < - q)%Q) by lra.
    pose proof (nearest_pos _ Hn). lra.
  - rewrite (binary64_zero q H). apply Qle_refl.
Qed.

Lemma binary64_mono q1 q2 : (q1 <= q2)%Q -> (binary64 q1 <= binary64 q2)%Q.
Proof.
  intros H.
  destruct (Qlt_le_dec 0 q1) as [P1|N1].
  - assert (P2 : (0 < q2)%Q) by lra.
    rewrite (binary64_pos q1 P1), (binary64_pos q2 P2). now apply nearest_mono.
  - destruct (Qlt_le_dec q2 0) as [N2|P2].
    + assert (N1' : (q1 < 0)%Q) by lra.
      rewrite (binary64_neg q1 N1'), (binary64_neg q2 N2).
      apply Qopp_le_compat. apply nearest_mono; lra.
    + apply Qle_trans with 0%Q; [now apply binary64_nonpos|now apply binary64_nonneg].
Qed.

Lemma binary64_eq q1 q2 : (q1 == q2)%Q -> binary64 q1 = binary64 q2.
Proof.
  intros H.
  assert (E : (binary64 q1 == binary64 q2)%Q).
  { apply Qle_antisym; apply binary64_mono; rewrite H; apply Qle_refl. }
  assert (R : forall q, Qred (binary64 q) = binary64 q).
  { intros q. unfold binary64. destruct (Qnum q); [reflexivity| |];
      apply Qred_complete, Qred_correct. }
  rewrite <- (R q1), <- (R q2). now apply Qred_complete.
Qed.

(** *** The error of a rounding *)

Lemma half_even_error x :
  (x - (1 # 2) <= inject_Z (half_even x))%Q
  /\ (inject_Z (half_even x) <= x + (1 # 2))%Q.
Proof.
  pose proof (Qfloor_le x) as Hf. pose proof (Qlt_floor x) as Hc.
  rewrite inject_Z_plus in Hc.
  unfold half_even. cbv zeta.
  destruct (Qcompare_spec (x - inject_Z (Qfloor x)) (1 # 2)) as [E|L|G];
    [destruct (Z.even (Qfloor x))| |]; rewrite ?inject_Z_plus;
    generalize dependent (inject_Z (Qfloor x)); intros f; intros;
    change (inject_Z 1) with 1%Q in *; split; lra.
Qed.

Lemma scaled_back q e : (q / 2 ^ e * 2 ^ e == q)%Q.
Proof. field. apply Qpower_not_0, two_neq_0. Qed.

Lemma half_pow2 e : ((1 # 2) * 2 ^ e == 2 ^ (e - 1))%Q.
Proof.
  replace (e - 1) with (e + -1) by lia.
  rewrite Qpower_plus by apply two_neq_0.
  change (2 ^ (-1))%Q with (1 # 2)%Q. apply Qmult_comm.
Qed.

Lemma nearest_error q :
  (0 < q)%Q ->
  (q - 2 ^ (binade q - 53) <= nearest q)%Q
  /\ (nearest q <= q + 2 ^ (binade q - 53))%Q.
Proof.
  intros Hq. set (e := binade q - 52).
  replace (binade q - 53) with (e - 1) by (unfold e; lia).
  rewrite <- half_pow2.
  pose proof (pow2_pos e) as He.
  destruct (half_even_error (q / 2 ^ e)) as [L U].
  unfold nearest. cbv zeta. fold e.
  rewrite <- (scaled_back q e) at 1 4.
  split.
  - apply Qle_trans with ((q / 2 ^ e - (1 # 2)) * 2 ^ e)%Q; [apply Qle_lteq; right; ring|].
    apply Qmult_le_compat_r; [exact L|now apply Qlt_le_weak].
  - apply Qle_trans with ((q / 2 ^ e + (1 # 2)) * 2 ^ e)%Q; [|apply Qle_lteq; right; ring].
    apply Qmult_le_compat_r; [exact U|now apply Qlt_le_weak].
Qed.

(** The relative error of a rounding is at most 2^-53. *)
Lemma binary64_error q :
  (0 <= q)%Q ->
  (q - q * 2 ^ (-53) <= binary64 q)%Q /\ (binary64 q <= q + q * 2 ^ (-53))%Q.
Proof.
  intros H. apply Qle_lt_or_eq in H as [H|H].
  - rewrite (binary64_pos q H).
    destruct (nearest_error q H) as [L U].
    destruct (binade_bounds q H) as [B _].
    assert (Hp : (2 ^ (binade q - 53) <= q * 2 ^ (-53))%Q).
    { replace (binade q - 53) with (binade q + -53) by lia.
      rewrite Qpower_plus by apply two_neq_0.
      apply Qmult_le_compat_r; [exact B|]. apply Qlt_le_weak, pow2_pos. }
    split; lra.
  - rewrite (binary64_zero q) by now symmetry.
    rewrite <- H. split; lra.
Qed.

(** *** The ratio *)

Lemma quotient_bounds maxLen distance :
  (0 < maxLen)%nat -> (distance <= maxLen)%nat ->
  (0 <= (Q_of_nat maxLen - Q_of_nat distance) / Q_of_nat maxLen)%Q
  /\ ((Q_of_nat maxLen - Q_of_nat distance) / Q_of_nat maxLen <= 1)%Q.
Proof.
  intros Hpos Hle. unfold Q_of_nat.
  assert (Hm : (0 < inject_Z (Z.of_nat maxLen))%Q).
  { rewrite <- (Zlt_Qlt 0). lia. }
  assert (Hd : (0 <= inject_Z (Z.of_nat maxLen) - inject_Z (Z.of_nat distance))%Q).
  { unfold Qminus. rewrite <- inject_Z_opp, <- inject_Z_plus.
    rewrite <- (Zle_Qle 0). lia. }
  assert (Hu : (inject_Z (Z.of_nat maxLen) - inject_Z (Z.of_nat distance)
                <= inject_Z (Z.of_nat maxLen))%Q).
  { unfold Qminus. rewrite <- inject_Z_opp, <- inject_Z_plus.
    rewrite <- Zle_Qle. lia. }
  split.
  - apply Qle_shift_div_l; [assumption|]. now rewrite Qmult_0_l.
  - apply Qle_shift_div_r; [assumption|]. now rewrite Qmult_1_l.
Qed.

Lemma fdiv_bounds maxLen distance :
  (0 < maxLen)%nat -> (distance <= maxLen)%nat ->
  (0 <= fdiv (Q_of_nat maxLen - Q_of_nat distance) (Q_of_nat maxLen))%Q
  /\ (fdiv (Q_of_nat maxLen - Q_of_nat distance) (Q_of_nat maxLen) <= 1)%Q.
Proof.
  intros Hpos Hle. destruct (quotient_bounds _ _ Hpos Hle) as [H0 H1].
  unfold fdiv. split.
  - now apply binary64_nonneg.
  - change 1%Q with (binary64 1). now apply binary64_mono.
Qed.

Lemma ratio_of_bounds maxLen distance :
  (0 < maxLen)%nat -> (distance <= maxLen)%nat ->
  (0 <= ratio_of maxLen distance /\ ratio_of maxLen distance <= 100)%Q.
Proof.
  intros Hpos Hle. destruct (fdiv_bounds _ _ Hpos Hle) as [H0 H1].
  unfold ratio_of, fmul. split.
  - apply binary64_nonneg. apply Qmult_le_0_compat; [exact H0|discriminate].
  - change 100%Q with (binary64 (1 * 100)) at 2. apply binary64_mono.
    apply Qmult_le_compat_r; [exact H1|discriminate].
Qed.

(** The rounded ratio is within 2^-45 of the exact one. *)
Lemma ratio_of_error maxLen distance :
  (0 < maxLen)%nat -> (distance <= maxLen)%nat ->
  (exact_ratio maxLen distance - 2 ^ (-45) < ratio_of maxLen distance)%Q
  /\ (ratio_of maxLen distance < exact_ratio maxLen distance + 2 ^ (-45))%Q.
Proof.
  intros Hpos Hle.
  destruct (quotient_bounds _ _ Hpos Hle) as [X0 X1].
  destruct (fdiv_bounds _ _ Hpos Hle) as [A0 A1].
  unfold ratio_of, exact_ratio, fmul. unfold fdiv in *.
  set (x := ((Q_of_nat maxLen - Q_of_nat distance) / Q_of_nat maxLen)%Q) in *.
  destruct (binary64_error x X0) as [L1 U1].
  set (a := binary64 x) in *.
  assert (Y0 : (0 <= a * 100)%Q) by (apply Qmult_le_0_compat; [exact A0|discriminate]).
  destruct (binary64_error (a * 100) Y0) as [L2 U2].
  set (r := binary64 (a * 100)) in *.
  change (2 ^ (-53))%Q with (1 # 9007199254740992)%Q in *.
  change (2 ^ (-45))%Q with (1 # 35184372088832)%Q.
  clearbody r a x. split; nra.
Qed.

Lemma round_half_up_bounds q :
  (0 <= q)%Q -> (q <= 100)%Q -> 0 <= round_half_up q <= 100.
Proof.
  intros H0 H100. unfold round_half_up. split.
  - change 0 with (Qfloor (0 + (1 # 2))). apply Qfloor_resp_le.
    now apply Qplus_le_l.
  - change 100 with (Qfloor (100 + (1 # 2))). apply Qfloor_resp_le.
    now apply Qplus_le_l.
Qed.

Lemma eqb_empty_lengths s1 s2 :
  Nat.max (String.length s1) (String.length s2) = O -> s1 = s2.
Proof. destruct s1, s2; cbn; intros; try lia; reflexivity. Qed.

Section Similarity.

Variables s1 s2 : string.

Let maxLen := Nat.max (String.length s1) (String.length s2).
Let distance := levenshteinDistance (cleanCompanyName s1) (cleanCompanyName s2).

Hypothesis different :
  String.eqb (cleanCompanyName s1) (cleanCompanyName s2) = false.

Lemma maxLen_positive : (0 < maxLen)%nat.
Proof.
  destruct (Nat.eq_dec maxLen O) as [E|]; [|lia].
  apply eqb_empty_lengths in E. subst maxLen. rewrite E in different.
  now rewrite String.eqb_refl in different.
Qed.

Lemma distance_le_maxLen : (distance <= maxLen)%nat.
Proof.
  subst distance maxLen.
  pose proof (levenshteinDistance_bound (cleanCompanyName s1) (cleanCompanyName s2)).
  pose proof (cleanCompanyName_length s1).
  pose proof (cleanCompanyName_length s2). lia.
Qed.

Lemma calculateSimilarity_unfold :
  calculateSimilarity s1 s2 =
  if includes s1 s2 || includes s2 s1
  then Qmin (fadd (ratio_of maxLen distance) 15) 95
  else ratio_of maxLen distance.
Proof.
  unfold calculateSimilarity. cbv zeta. rewrite different.
  fold maxLen. pose proof maxLen_positive as Hpos.
  destruct (Nat.eqb_spec maxLen O) as [E|_]; [lia|reflexivity].
Qed.

Lemma calculateSimilarity_range :
  (0 <= calculateSimilarity s1 s2 /\ calculateSimilarity s1 s2 <= 100)%Q.
Proof.
  rewrite calculateSimilarity_unfold.
  destruct (ratio_of_bounds maxLen distance maxLen_positive distance_le_maxLen)
    as [H0 H100].
  destruct (includes s1 s2 || includes s2 s1); [|auto].
  split.
  - apply Q.min_glb; [|discriminate].
    apply binary64_nonneg.
    apply Qle_trans with (0 + 0)%Q; [discriminate|].
    apply Qplus_le_compat; [assumption|discriminate].
  - apply Qle_trans with 95%Q; [apply Q.le_min_r|discriminate].
Qed.

End Similarity.

(** The sum with 15 is within 2^-44 of the exact quotient plus 15. *)
Lemma boost_error maxLen distance :
  (0 < maxLen)%nat -> (distance <= maxLen)%nat ->
  (exact_ratio maxLen distance + 15 - 2 ^ (-44)
   < fadd (ratio_of maxLen distance) 15)%Q
  /\ (fadd (ratio_of maxLen distance) 15
      < exact_ratio maxLen distance + 15 + 2 ^ (-44))%Q.
Proof.
  intros Hpos Hle.
  destruct (ratio_of_error _ _ Hpos Hle) as [L U].
  destruct (ratio_of_bounds _ _ Hpos Hle) as [R0 R100].
  assert (S0 : (0 <= ratio_of maxLen distance + 15)%Q) by lra.
  destruct (binary64_error _ S0) as [L2 U2]. unfold fadd.
  set (r := ratio_of maxLen distance) in *.
  set (s := binary64 (r + 15)) in *.
  set (x := exact_ratio maxLen distance) in *.
  change (2 ^ (-53))%Q with (1 # 9007199254740992)%Q in *.
  change (2 ^ (-45))%Q with (1 # 35184372088832)%Q in *.
  change (2 ^ (-44))%Q with (1 # 17592186044416)%Q.
  clearbody r s x. split; nra.
Qed.




(** The quotient is rounded: 22/24 of 100 is 275/3 exactly; the code has
    the double 91.66666666666666, that is 3225234108142933 / 2^45. *)
Example rounded_ratio :
  (exact_ratio 24 2 == 275 # 3)%Q
  /\ ratio_of 24 2 = 3225234108142933 # 35184372088832
  /\ (ratio_of 24 2 < exact_ratio 24 2)%Q.
Proof. repeat split; vm_compute; reflexivity. Qed.

(** A rounded quotient can fall below a half that the exact quotient
    reaches: 23/40 of 100 is 57.5 exactly, the code has the double
    57.49999999999999, and [Math.round] gives 57. *)
Example rounded_below_half :
  (exact_ratio 40 17 == 115 # 2)%Q
  /\ (ratio_of 40 17 < 115 # 2)%Q
  /\ round_half_up (ratio_of 40 17) = 57
  /\ round_half_up (exact_ratio 40 17) = 58.
Proof. repeat split; vm_compute; reflexivity. Qed.

(** The test [maxLen === 0] is never reached: two empty strings are equal
    once cleaned, and score 95. *)
Example similarity_of_empty_strings : calculateSimilarity "" "" = 95%Q.
Proof. reflexivity. Qed.

(** Claim C4, as the code has it.  For two strings whose cleaned forms are
    not identical and one of which, AS PASSED (before cleaning), contains
    the other, [calculateSimilarity] adds 15 to the ratio, in doubles, and
    caps the sum at 95: the sum is within 2^-44 of the exact quotient plus
    15, and the result is never above 95. *)
Theorem containment_boost (s1 s2 : string) :
  String.eqb (cleanCompanyName s1) (cleanCompanyName s2) = false ->
  includes s1 s2 || includes s2 s1 = true ->
  calculateSimilarity s1 s2 =
    Qmin (fadd (ratio_of (Nat.max (String.length s1) (String.length s2))
                  (levenshteinDistance (cleanCompanyName s1) (cleanCompanyName s2)))
            15) 95
  /\ (exact_ratio (Nat.max (String.length s1) (String.length s2))
        (levenshteinDistance (cleanCompanyName s1) (cleanCompanyName s2))
      + 15 - 2 ^ (-44)
      < fadd (ratio_of (Nat.max (String.length s1) (String.length s2))
                (levenshteinDistance (cleanCompanyName s1) (cleanCompanyName s2)))
          15)%Q
  /\ (fadd (ratio_of (Nat.max (String.length s1) (String.length s2))
              (levenshteinDistance (cleanCompanyName s1) (cleanCompanyName s2)))
        15
      < exact_ratio (Nat.max (String.length s1) (String.length s2))
          (levenshteinDistance (cleanCompanyName s1) (cleanCompanyName s2))
        + 15 + 2 ^ (-44))%Q
  /\ (calculateSimilarity s1 s2 <= 95)%Q.
Proof.
  intros Hdiff Hinc. rewrite calculateSimilarity_unfold, Hinc by assumption.
  split; [reflexivity|].
  destruct (boost_error (Nat.max (String.length s1) (String.length s2))
              (levenshteinDistance (cleanCompanyName s1) (cleanCompanyName s2)))
    as [L U]; [now apply maxLen_positive|now apply distance_le_maxLen|].
  split; [exact L|]. split; [exact U|apply Q.le_min_r].
Qed.

(** The theorem at a name of 30 characters that contains the other, of 23:
    the sum, 23/30 of 100 plus 15, stays below the cap. *)
Lemma containment_boost_witness :
  calculateSimilarity "abcdefghijklmnopqrstuvw1234567" "abcdefghijklmnopqrstuvw"
  = Qmin (fadd (ratio_of 30 7) 15) 95
  /\ (exact_ratio 30 7 + 15 - 2 ^ (-44) < fadd (ratio_of 30 7) 15)%Q
  /\ (fadd (ratio_of 30 7) 15 < exact_ratio 30 7 + 15 + 2 ^ (-44))%Q
  /\ (calculateSimilarity "abcdefghijklmnopqrstuvw1234567" "abcdefghijklmnopqrstuvw"
      <= 95)%Q.
Proof.
  apply (containment_boost "abcdefghijklmnopqrstuvw1234567" "abcdefghijklmnopqrstuvw");
    vm_compute; reflexivity.
Defined.

(** Against claim C4: "a.b" and "abc" clean to "ab" and "abc", and "abc"
    contains "ab"; but neither string as passed contains the other, so the
    code returns the bare ratio, two thirds of 100, and adds nothing. *)
Lemma cleaned_containment_not_boosted :
  cleanCompanyName "a.b" = "ab"
  /\ cleanCompanyName "abc" = "abc"
  /\ includes "abc" "ab" = true
  /\ includes "a.b" "abc" || includes "abc" "a.b" = false
  /\ calculateSimilarity "a.b" "abc" = ratio_of 3 1
  /\ (calculateSimilarity "a.b" "abc" < 67)%Q
  /\ (81 < Qmin (fadd (ratio_of 3 1) 15) 95)%Q
  /\ ~ (calculateSimilarity "a.b" "abc" == Qmin (fadd (ratio_of 3 1) 15) 95)%Q.
Proof.
  repeat split; try (vm_compute; reflexivity).
  vm_compute. discriminate.
Qed.

(** The sum is rounded as well: 23/30 of 100 plus 15 is 275/3 exactly, and
    the code has the double 91.66666666666667, above the double it has for
    22/24 of 100, which is 275/3 exactly too. *)
Example rounded_sum :
  (exact_ratio 30 7 + 15 == 275 # 3)%Q
  /\ fadd (ratio_of 30 7) 15 = 6450468216285867 # 70368744177664
  /\ (ratio_of 24 2 < fadd (ratio_of 30 7) 15)%Q.
Proof. repeat split; vm_compute; reflexivity. Qed.

(** ** Field validation: the fuzzy pass *)

Lemma insert_desc_elem x l y : y ∈ insert_desc x l -> y = x \/ y ∈ l.
Proof.
  induction l as [|z l IH]; cbn.
  - intros H. apply list_elem_of_singleton in H. now left.
  - destruct (Qle_bool (snd z) (snd x)).
    + intros [->|H]%elem_of_cons; auto.
    + intros [->|H]%elem_of_cons; [right; left|].
      destruct (IH H) as [->|H']; [now left|right; now right].
Qed.

Lemma sort_desc_elem l y : y ∈ sort_desc l -> y ∈ l.
Proof.
  induction l as [|x l IH]; cbn; [trivial|].
  intros H. apply insert_desc_elem in H as [->|H]; [left|right; auto].
Qed.

(** Every name the fuzzy pass returns is one of the choices. *)
Lemma simpleFuzzyMatch_names query choices limit m :
  m ∈ simpleFuzzyMatch query choices limit -> fst m ∈ choices.
Proof.
  unfold simpleFuzzyMatch. cbv zeta. intros H.
  apply elem_of_take in H as (i & H & _).
  apply list_elem_of_lookup_2, sort_desc_elem in H.
  apply list_elem_of_In, in_map_iff in H as (choice & <- & Hin).
  now apply list_elem_of_In.
Qed.

(** So the lookup by name in [to_alternative] always finds an item. *)
Lemma to_alternative_found masterData extractedValue limit m :
  m ∈ simpleFuzzyMatch extractedValue (map name masterData) limit ->
  exists item,
    List.find (fun i => String.eqb (name i) (fst m)) masterData = Some item
    /\ name item = fst m.
Proof.
  intros H. apply simpleFuzzyMatch_names in H.
  apply list_elem_of_In, in_map_iff in H as (item & E & Hin).
  destruct (List.find (fun i => String.eqb (name i) (fst m)) masterData)
    as [found|] eqn:F.
  - exists found. split; [reflexivity|].
    apply find_some in F as [_ F]. now apply String.eqb_eq in F.
  - exfalso. apply (find_none _ _ F) in Hin. rewrite E in Hin.
    now rewrite String.eqb_refl in Hin.
Qed.

(** ** Field validation: tiers *)

Section ValidationFacts.

Variable fetchMasterData : string -> DataType -> list MasterDataItem.
Variable chat_completion :
  string -> list Alternative -> string -> option DocumentContext -> option GptReply.

Local Abbreviation validate := (validateField fetchMasterData chat_completion).

(** [validateField] past its three early returns is [tier_decision] on the
    alternatives of the fuzzy pass. *)
Lemma validateField_fuzzy v fieldName clientId ctx :
  truthy v = true ->
  List.find (is_exact_match v)
    (fetchMasterData clientId (resolve_data_type fieldName)) = None ->
  fetchMasterData clientId (resolve_data_type fieldName) <> [] ->
  validate (Some v) fieldName clientId ctx =
  tier_decision chat_completion fieldName v ctx
    (fuzzy_alternatives v (fetchMasterData clientId (resolve_data_type fieldName))).
Proof.
  intros Hv Hex Hne. unfold validateField.
  destruct v as [|c v']; [discriminate|].
  destruct (fetchMasterData clientId (resolve_data_type fieldName)) as [|i md] eqn:E;
    [congruence|].
  cbn [length Nat.eqb]. cbv zeta. now rewrite Hex.
Qed.

Lemma tier_accept fieldName v ctx top rest :
  score top > 85 ->
  tier_decision chat_completion fieldName v ctx (top :: rest) =
  {| field := fieldName; extracted_value := v;
     matched_code := Some (alt_code top); matched_name := Some (alt_name top);
     confidence := score top;
     status := if score top >? 90 then fuzzy_high else fuzzy_medium;
     alternatives := take 5 rest |}.
Proof.
  intros H. unfold tier_decision.
  destruct (score top >? 85) eqn:E; [reflexivity|lia].
Qed.

Lemma tier_escalate fieldName v ctx top rest :
  60 < score top <= 85 ->
  tier_decision chat_completion fieldName v ctx (top :: rest) =
  escalate chat_completion fieldName v ctx (top :: rest).
Proof.
  intros H. unfold tier_decision.
  destruct (score top >? 85) eqn:E; [lia|].
  destruct (score top >? 60) eqn:E'; [reflexivity|lia].
Qed.

Lemma tier_reject fieldName v ctx alts :
  (forall top rest, alts = top :: rest -> score top <= 60) ->
  tier_decision chat_completion fieldName v ctx alts =
  no_good_match fieldName v alts.
Proof.
  intros H. unfold tier_decision. destruct alts as [|top rest]; [reflexivity|].
  specialize (H top rest eq_refl).
  destruct (score top >? 85) eqn:E; [lia|].
  destruct (score top >? 60) eqn:E'; [lia|reflexivity].
Qed.

(** The escalation branch never yields [exact] or [fuzzy_high]. *)
Lemma escalate_status fieldName v ctx alts :
  status (escalate chat_completion fieldName v ctx alts) = fuzzy_medium
  \/ status (escalate chat_completion fieldName v ctx alts) = fuzzy_low
  \/ status (escalate chat_completion fieldName v ctx alts) = no_match.
Proof.
  unfold escalate.
  destruct (selectBestMatchWithGPT _ _ _ _ _) as [sel|]; cbn.
  - destruct (sel_confidence sel >? 75); auto.
  - auto.
Qed.

End ValidationFacts.

(** Claim C1, as the code has it.  For a non-empty value without exact
    match whose fuzzy candidate list starts with [top], the score of [top]
    decides, and every score is covered.  Above 90 the winner is accepted
    with status [fuzzy_high].  From 86 to 90, both ends included (so at 89
    and at 90), the winner is accepted with status [fuzzy_medium].  At 85
    and below nothing is accepted directly: from 61 to 85 (so at 85) the
    result is that of the escalation branch, at 60 and below that of the
    last [return], and neither is ever [fuzzy_high].  So the test for direct
    acceptance is [> 85], and [fuzzy_high] is the status exactly of the
    winners above 90. *)
Theorem tier_boundaries
    (fetchMasterData : string -> DataType -> list MasterDataItem)
    (chat_completion :
       string -> list Alternative -> string -> option DocumentContext -> option GptReply)
    (v fieldName clientId : string) (ctx : option DocumentContext)
    (top : Alternative) (rest : list Alternative) :
  truthy v = true ->
  List.find (is_exact_match v)
    (fetchMasterData clientId (resolve_data_type fieldName)) = None ->
  fuzzy_alternatives v (fetchMasterData clientId (resolve_data_type fieldName))
    = top :: rest ->
  let result :=
    validateField fetchMasterData chat_completion (Some v) fieldName clientId ctx in
  (90 < score top ->
     result = {| field := fieldName; extracted_value := v;
                 matched_code := Some (alt_code top);
                 matched_name := Some (alt_name top);
                 confidence := score top; status := fuzzy_high;
                 alternatives := take 5 rest |})
  /\ (85 < score top <= 90 ->
        result = {| field := fieldName; extracted_value := v;
                    matched_code := Some (alt_code top);
                    matched_name := Some (alt_name top);
                    confidence := score top; status := fuzzy_medium;
                    alternatives := take 5 rest |})
  /\ (60 < score top <= 85 ->
        result = escalate chat_completion fieldName v ctx (top :: rest))
  /\ (score top <= 60 ->
        result = no_good_match fieldName v (top :: rest))
  /\ (score top <= 85 -> status result <> fuzzy_high)
  /\ (status result = fuzzy_high <-> 90 < score top).
Proof.
  intros Hv Hex Halts result.
  assert (Hne : fetchMasterData clientId (resolve_data_type fieldName) <> []).
  { intros E. rewrite E in Halts. discriminate. }
  assert (Hresult : result = tier_decision chat_completion fieldName v ctx (top :: rest)).
  { unfold result. now rewrite (validateField_fuzzy _ _ _ _ _ _ Hv Hex Hne), Halts. }
  assert (Hlow : score top <= 85 -> status result <> fuzzy_high).
  { intros H. rewrite Hresult.
    destruct (Z_lt_le_dec 60 (score top)) as [H60|H60].
    - rewrite tier_escalate by lia.
      destruct (escalate_status chat_completion fieldName v ctx (top :: rest))
        as [E|[E|E]]; rewrite E; discriminate.
    - rewrite tier_reject; [discriminate|]. now intros ? ? [= <- _]. }
  assert (Hmid : 85 < score top <= 90 -> status result = fuzzy_medium).
  { intros H. rewrite Hresult, tier_accept by lia. cbn.
    destruct (score top >? 90) eqn:E; [lia|reflexivity]. }
  repeat split.
  - intros H. rewrite Hresult, tier_accept by lia.
    destruct (score top >? 90) eqn:E; [reflexivity|lia].
  - intros H. rewrite Hresult, tier_accept by lia.
    destruct (score top >? 90) eqn:E; [lia|reflexivity].
  - intros H. rewrite Hresult. now apply tier_escalate.
  - intros H. rewrite Hresult. apply tier_reject. now intros ? ? [= <- _].
  - exact Hlow.
  - intros H. destruct (Z_lt_le_dec 90 (score top)) as [|H90]; [assumption|exfalso].
    destruct (Z_lt_le_dec 85 (score top)) as [H85|H85].
    + rewrite Hmid in H by lia. discriminate.
    + now apply Hlow.
  - intros H. rewrite Hresult, tier_accept by lia. cbn.
    destruct (score top >? 90) eqn:E; [reflexivity|lia].
Qed.

(** The theorem at the value "abcdefghij" against [sample_vendors], where
    the top candidate scores exactly 90. *)
Lemma tier_boundaries_witness :
  validateField (constant_provider sample_vendors) failing_chat
    (Some "abcdefghij") "invoicing_party" "client" None
  = {| field := "invoicing_party"; extracted_value := "abcdefghij";
       matched_code := Some "V1"; matched_name := Some "abcdefghik";
       confidence := 90; status := fuzzy_medium;
       alternatives := [ {| alt_code := "V2"; alt_name := "zzz"; score := 0 |} ] |}.
Proof.
  refine (proj1 (proj2
    (tier_boundaries (constant_provider sample_vendors) failing_chat
       "abcdefghij" "invoicing_party" "client" None
       {| alt_code := "V1"; alt_name := "abcdefghik"; score := 90 |}
       [ {| alt_code := "V2"; alt_name := "zzz"; score := 0 |} ]
       _ _ _)) _).
  - reflexivity.
  - vm_compute. reflexivity.
  - vm_compute. reflexivity.
  - cbn. lia.
Defined.

(** Against claim C1: with no exact match and a top candidate of score
    exactly 90, the status is [fuzzy_medium], not [fuzzy_high]. *)
Lemma score_90_is_not_fuzzy_high :
  List.find (is_exact_match "abcdefghij") sample_vendors = None
  /\ score <$> head (fuzzy_alternatives "abcdefghij" sample_vendors) = Some 90
  /\ status (validateField (constant_provider sample_vendors) failing_chat
               (Some "abcdefghij") "invoicing_party" "client" None) = fuzzy_medium
  /\ status (validateField (constant_provider sample_vendors) failing_chat
               (Some "abcdefghij") "invoicing_party" "client" None) <> fuzzy_high.
Proof.
  repeat split; try (vm_compute; reflexivity).
  vm_compute. discriminate.
Qed.

(** A top score of exactly 85 at work: the chat completion is asked, and its
    answer (candidate 1, confidence 70) makes the result [fuzzy_low]; when
    the chat completion fails the result is [no_match]. *)
Example score_85_is_escalated :
  score <$> head (fuzzy_alternatives "abcdefghijklmnopqrst" long_vendor) = Some 85
  /\ validateField (constant_provider long_vendor)
       (constant_chat {| selected_index := Some 1; reply_confidence := Some 70 |})
       (Some "abcdefghijklmnopqrst") "invoicing_party" "client" None
     = {| field := "invoicing_party"; extracted_value := "abcdefghijklmnopqrst";
          matched_code := Some "L1"; matched_name := Some "abcdefghijklmnopqxyz";
          confidence := 70; status := fuzzy_low; alternatives := [] |}
  /\ status (validateField (constant_provider long_vendor) failing_chat
               (Some "abcdefghijklmnopqrst") "invoicing_party" "client" None)
     = no_match.
Proof. repeat split; vm_compute; reflexivity. Qed.

(** Claim C9.  For a non-empty extracted value and any field name, an empty
    master data list for the resolved category makes [validateField] return
    [no_match] with confidence 0, no matched code, no matched name and no
    alternatives, whatever the value is. *)
Theorem empty_master_data_no_match
    (fetchMasterData : string -> DataType -> list MasterDataItem)
    (chat_completion :
       string -> list Alternative -> string -> option DocumentContext -> option GptReply)
    (v fieldName clientId : string) (ctx : option DocumentContext) :
  truthy v = true ->
  fetchMasterData clientId (resolve_data_type fieldName) = [] ->
  validateField fetchMasterData chat_completion (Some v) fieldName clientId ctx =
  {| field := fieldName; extracted_value := v;
     matched_code := None; matched_name := None;
     confidence := 0; status := no_match; alternatives := [] |}.
Proof.
  intros Hv Hempty. unfold validateField.
  destruct v as [|c v']; [discriminate|].
  rewrite Hempty. reflexivity.
Qed.

Lemma empty_master_data_no_match_witness :
  validateField (constant_provider []) failing_chat (Some "Acme") "cost_center"
    "client" None =
  {| field := "cost_center"; extracted_value := "Acme";
     matched_code := None; matched_name := None;
     confidence := 0; status := no_match; alternatives := [] |}.
Proof.
  apply (empty_master_data_no_match (constant_provider []) failing_chat
           "Acme" "cost_center" "client" None); reflexivity.
Defined.

(** ** Field validation: the matched code *)

Lemma no_good_match_code fieldName v alts c :
  matched_code (no_good_match fieldName v alts) = Some c ->
  exists top rest, alts = top :: rest /\ c = alt_code top /\ truthy c = true.
Proof.
  unfold no_good_match; cbn. destruct alts as [|top rest]; cbn; [discriminate|].
  unfold or_null. destruct (truthy (alt_code top)) eqn:E; [|discriminate].
  intros [= <-]. eauto.
Qed.

(** The best-effort code of a [no_match] result: the value "Zylo" against
    the single vendor "Acme" scores 0, the oracle is never asked, the
    status is [no_match], and the matched code is that of the first
    candidate of the similarity list. *)
Example no_match_with_matched_code :
  status (validateField (constant_provider acme_only) failing_chat
            (Some "Zylo") "invoicing_party" "client" None) = no_match
  /\ matched_code (validateField (constant_provider acme_only) failing_chat
                     (Some "Zylo") "invoicing_party" "client" None) = Some "A1"
  /\ alt_code <$> head (fuzzy_alternatives "Zylo" acme_only) = Some "A1"
  /\ confidence (validateField (constant_provider acme_only) failing_chat
                   (Some "Zylo") "invoicing_party" "client" None) = 0.
Proof. repeat split; vm_compute; reflexivity. Qed.

(** ** [validateDocumentFields] *)

Lemma fold_insert_lookup {V} (P : string -> bool) (f : string -> V)
    (keys : list string) (m : gmap string V) (k : string) :
  fold_left (fun results key => if P key then <[key := f key]> results else results)
    keys m !! k
  = if bool_decide (k ∈ keys) && P k then Some (f k) else m !! k.
Proof.
  revert m. induction keys as [|key keys IH]; intros m; cbn [fold_left].
  - reflexivity.
  - rewrite IH. destruct (P k) eqn:EP.
    + rewrite !andb_true_r.
      destruct (decide (k ∈ keys)) as [Hin|Hnin].
      * rewrite !bool_decide_eq_true_2; [reflexivity|now right|assumption].
      * rewrite (bool_decide_eq_false_2 (k ∈ keys)) by assumption.
        destruct (decide (key = k)) as [->|Hne].
        -- rewrite bool_decide_eq_true_2 by left.
           rewrite EP. apply lookup_insert_eq.
        -- rewrite bool_decide_eq_false_2
             by (intros [?|?]%elem_of_cons; congruence).
           destruct (P key); [|reflexivity]. now apply lookup_insert_ne.
    + rewrite !andb_false_r. destruct (P key) eqn:EK; [|reflexivity].
      apply lookup_insert_ne. congruence.
Qed.

(** The lookup in the result for string and [null] values. *)
Lemma validateDocumentFields_lookup
    (fetchMasterData : string -> DataType -> list MasterDataItem)
    (chat_completion :
       string -> list Alternative -> string -> option DocumentContext -> option GptReply)
    (extractedFields : gmap string (option string))
    (clientId fieldName : string) :
  validateDocumentFields fetchMasterData chat_completion extractedFields clientId
    !! fieldName
  = if bool_decide (fieldName ∈ LIST_MATCH_FIELDS)
       && is_truthy (field_value extractedFields fieldName)
    then Some (validateField fetchMasterData chat_completion
                 (field_value extractedFields fieldName) fieldName clientId
                 (Some (document_context extractedFields)))
    else None.
Proof.
  unfold validateDocumentFields. cbv zeta.
  rewrite (fold_insert_lookup
             (fun key => is_truthy (field_value extractedFields key))
             (fun key => validateField fetchMasterData chat_completion
                           (field_value extractedFields key) key clientId
                           (Some (document_context extractedFields)))).
  now rewrite lookup_empty.
Qed.

Section AnyFieldsFacts.

Variable fetchMasterData : string -> DataType -> list MasterDataItem.
Variable chat_completion :
  string -> list Alternative -> string -> FieldsContext -> option GptReply.
Variable not_a_function : Thrown.
Variable extractedFields : gmap string Json.
Variable clientId : string.

#[warnings="-inconsistent-scopes"]
Local Abbreviation validate_any fieldName :=
  (validateField_any fetchMasterData chat_completion not_a_function
     (extractedFields !! fieldName) fieldName clientId
     (fields_context extractedFields)).
Local Abbreviation step :=
  (validate_entry fetchMasterData chat_completion not_a_function
     extractedFields clientId (fields_context extractedFields)).

(** [validateField] throws exactly on a truthy value that is not a string,
    when there is master data for the field. *)
Lemma validateField_any_throws fieldName error :
  validate_any fieldName = inl error <->
  error = not_a_function
  /\ exists v,
       extractedFields !! fieldName = Some v /\ json_truthy v = true
       /\ (forall s, v <> JString s)
       /\ fetchMasterData clientId (resolve_data_type fieldName) <> [].
Proof.
  unfold validateField_any.
  destruct (extractedFields !! fieldName) as [v|]; cbv zeta.
  2:{ split; [discriminate|]. now intros (_ & v & [=] & _). }
  assert (Hother :
            (forall s, v <> JString s) ->
            (if json_truthy v
             then if Nat.eqb (length (fetchMasterData clientId
                                        (resolve_data_type fieldName))) 0
                  then inr {| any_field := fieldName; any_extracted_value := v;
                              any_matched_code := None; any_matched_name := None;
                              any_confidence := 0; any_status := no_match;
                              any_alternatives := [] |}
                  else inl not_a_function
             else inr (of_string_result (no_match_result fieldName "")))
            = (inl error : Thrown + AnyValidation) <->
            error = not_a_function
            /\ exists v0, Some v = Some v0 /\ json_truthy v0 = true
                 /\ (forall s, v0 <> JString s)
                 /\ fetchMasterData clientId (resolve_data_type fieldName) <> []).
  { intros Hv. destruct (json_truthy v) eqn:Ht.
    - destruct (fetchMasterData clientId (resolve_data_type fieldName)) as [|i md];
        cbn [length Nat.eqb].
      + split; [discriminate|]. now intros (_ & v0 & _ & _ & _ & H).
      + split.
        * intros [= <-]. split; [reflexivity|]. exists v. now repeat split.
        * now intros [-> _].
    - split; [discriminate|]. intros (_ & v0 & [= <-] & H & _). congruence. }
  destruct v; try (apply Hother; discriminate).
  split; [discriminate|]. intros (_ & v0 & [= <-] & _ & H & _). now destruct (H s).
Qed.

Lemma fold_step_thrown keys error :
  fold_left step keys (inl error) = inl error.
Proof. induction keys as [|key keys IH]; [reflexivity|exact IH]. Qed.

(** The loop over any list of field names. *)
Lemma fold_step_spec keys :
  forall results0,
    match fold_left step keys (inr results0) with
    | inr results =>
        forall fieldName,
          if bool_decide (fieldName ∈ keys)
             && value_truthy (extractedFields !! fieldName)
          then exists validation,
                 validate_any fieldName = inr validation
                 /\ results !! fieldName = Some validation
          else results !! fieldName = results0 !! fieldName
    | inl error =>
        exists fieldName,
          fieldName ∈ keys
          /\ value_truthy (extractedFields !! fieldName) = true
          /\ validate_any fieldName = inl error
    end.
Proof.
  induction keys as [|key keys IH]; intros results0; cbn [fold_left].
  { intros fieldName. rewrite bool_decide_eq_false_2 by apply not_elem_of_nil.
    reflexivity. }
  unfold validate_entry at 2.
  destruct (value_truthy (extractedFields !! key)) eqn:Hkey.
  - destruct (validate_any key) as [error|validation] eqn:Hvalidate.
    + rewrite fold_step_thrown. exists key. split; [left|]. now split.
    + specialize (IH (<[key := validation]> results0)).
      destruct (fold_left step keys (inr (<[key := validation]> results0)))
        as [error|results].
      * destruct IH as (fieldName & Hin & Ht & Hv).
        exists fieldName. split; [now right|]. now split.
      * intros fieldName. specialize (IH fieldName).
        destruct (decide (fieldName ∈ keys)) as [Hin|Hnin].
        -- rewrite bool_decide_eq_true_2 in IH by assumption.
           rewrite bool_decide_eq_true_2 by now right.
           destruct (value_truthy (extractedFields !! fieldName)) eqn:Ht;
             cbn [andb] in *; [exact IH|].
           rewrite IH. apply lookup_insert_ne. intros ->. congruence.
        -- rewrite bool_decide_eq_false_2 in IH by assumption.
           cbn [andb] in IH.
           destruct (decide (fieldName = key)) as [->|Hne].
           ++ rewrite bool_decide_eq_true_2 by left. rewrite Hkey. cbn [andb].
              exists validation. split; [assumption|].
              rewrite IH. apply lookup_insert_eq.
           ++ rewrite bool_decide_eq_false_2
                by (intros [?|?]%elem_of_cons; congruence).
              cbn [andb]. rewrite IH. now apply lookup_insert_ne.
  - specialize (IH results0).
    destruct (fold_left step keys (inr results0)) as [error|results].
    + destruct IH as (fieldName & Hin & Ht & Hv).
      exists fieldName. split; [now right|]. now split.
    + intros fieldName. specialize (IH fieldName).
      destruct (decide (fieldName ∈ keys)) as [Hin|Hnin].
      * rewrite bool_decide_eq_true_2 in IH by assumption.
        rewrite bool_decide_eq_true_2 by now right. exact IH.
      * rewrite bool_decide_eq_false_2 in IH by assumption.
        cbn [andb] in IH.
        destruct (decide (fieldName = key)) as [->|Hne].
        -- rewrite Hkey, andb_false_r. exact IH.
        -- rewrite bool_decide_eq_false_2
             by (intros [?|?]%elem_of_cons; congruence).
           exact IH.
Qed.

End AnyFieldsFacts.

Lemma json_truthy_spec (v : Json) : json_truthy v = true <-> ~ falsy_value v.
Proof.
  unfold falsy_value. destruct v as [|b|n|s|l|m]; cbn.
  - split; [discriminate|]. intros H. destruct H. now left.
  - destruct b.
    + split; [|reflexivity]. intros _ [H|[H|[H|(n & H & _)]]]; discriminate.
    + split; [discriminate|]. intros H. destruct H. right. now left.
  - split.
    + intros H [H'|[H'|[H'|(n' & [= <-] & Hn)]]]; try discriminate.
      apply Qeq_bool_iff in Hn. rewrite Hn in H. discriminate.
    + intros H. destruct (Qeq_bool n 0) eqn:E; [|reflexivity].
      destruct H. right. right. right. exists n. split; [reflexivity|].
      now apply Qeq_bool_iff.
  - destruct s as [|c s]; cbn.
    + split; [discriminate|]. intros H. destruct H. right. right. now left.
    + split; [|reflexivity]. intros _ [H|[H|[H|(n & H & _)]]]; discriminate.
  - split; [|reflexivity]. intros _ [H|[H|[H|(n & H & _)]]]; discriminate.
  - split; [|reflexivity]. intros _ [H|[H|[H|(n & H & _)]]]; discriminate.
Qed.

Lemma value_truthy_true (v : option Json) :
  value_truthy v = true <-> exists w, v = Some w /\ ~ falsy_value w.
Proof.
  destruct v as [w|]; cbn.
  - rewrite json_truthy_spec.
    split; [intros H; now exists w|now intros (w' & [= <-] & H)].
  - split; [discriminate|now intros (w & [=] & _)].
Qed.

(** Claim C10.  For every field map, whatever its values are, the map that
    [validateDocumentFields] returns has an entry exactly for the names
    among the 13 keys of [LIST_MATCH_FIELDS] whose value in the field map
    is present and truthy (not [null], [false], [0] or the empty string),
    and that entry is the result of [validateField] for the value; any
    other name, and a configured name with a falsy or absent value, has no
    entry.  The function returns a map whenever every truthy value of a
    configured field is a string or a value of a field without master
    data; otherwise the call of [validateField] throws on the value that
    is not a string, and no map is returned at all. *)
Theorem validateDocumentFields_entries
    (fetchMasterData : string -> DataType -> list MasterDataItem)
    (chat_completion :
       string -> list Alternative -> string -> FieldsContext -> option GptReply)
    (not_a_function : Thrown)
    (extractedFields : gmap string Json) (clientId : string) :
  length LIST_MATCH_FIELDS = 13%nat
  /\ (forall results,
        validateDocumentFields_any fetchMasterData chat_completion not_a_function
          extractedFields clientId = inr results ->
        forall fieldName,
          (is_Some (results !! fieldName) <->
             fieldName ∈ LIST_MATCH_FIELDS
             /\ exists v, extractedFields !! fieldName = Some v /\ ~ falsy_value v)
          /\ (forall validation,
                results !! fieldName = Some validation ->
                validateField_any fetchMasterData chat_completion not_a_function
                  (extractedFields !! fieldName) fieldName clientId
                  (fields_context extractedFields) = inr validation))
  /\ ((forall fieldName v,
         fieldName ∈ LIST_MATCH_FIELDS ->
         extractedFields !! fieldName = Some v -> ~ falsy_value v ->
         (exists s, v = JString s)
         \/ fetchMasterData clientId (resolve_data_type fieldName) = []) ->
      exists results,
        validateDocumentFields_any fetchMasterData chat_completion not_a_function
          extractedFields clientId = inr results)
  /\ (forall fieldName v,
        fieldName ∈ LIST_MATCH_FIELDS ->
        extractedFields !! fieldName = Some v -> ~ falsy_value v ->
        (forall s, v <> JString s) ->
        fetchMasterData clientId (resolve_data_type fieldName) <> [] ->
        validateDocumentFields_any fetchMasterData chat_completion not_a_function
          extractedFields clientId = inl not_a_function).
Proof.
  split; [reflexivity|].
  pose proof (fold_step_spec fetchMasterData chat_completion not_a_function
                extractedFields clientId LIST_MATCH_FIELDS ∅) as Hspec.
  unfold validateDocumentFields_any. cbv zeta.
  destruct (fold_left _ LIST_MATCH_FIELDS (inr ∅)) as [error|results] eqn:Hrun.
  - (* some call has thrown *)
    destruct Hspec as (thrower & Hin & Ht & Hthrown).
    apply validateField_any_throws in Hthrown as (-> & w & Hw & Hwt & Hws & Hmd).
    split; [discriminate|]. split; [|reflexivity].
    intros Hfine. exfalso. apply json_truthy_spec in Hwt.
    destruct (Hfine thrower w Hin Hw Hwt) as [[s ->]|Hempty];
      [now apply (Hws s)|now apply Hmd].
  - split; [|split].
    + intros results' [= <-] fieldName. specialize (Hspec fieldName).
      destruct (bool_decide (fieldName ∈ LIST_MATCH_FIELDS)
                && value_truthy (extractedFields !! fieldName)) eqn:Hcond.
      * apply andb_true_iff in Hcond as [Hin%bool_decide_eq_true Ht].
        destruct Hspec as (validation & Hv & Hlookup). split.
        -- split; [|intros _; now exists validation].
           intros _. split; [assumption|]. now apply value_truthy_true.
        -- intros validation' Hlookup'. congruence.
      * rewrite lookup_empty in Hspec. rewrite Hspec. split.
        -- split; [intros [? [=]]|].
           intros [Hin Ht%value_truthy_true]. exfalso.
           rewrite bool_decide_eq_true_2, Ht in Hcond by assumption.
           discriminate.
        -- discriminate.
    + intros _. now exists results.
    + intros fieldName v Hin Hv Ht Hs Hmd. exfalso.
      specialize (Hspec fieldName).
      rewrite bool_decide_eq_true_2 in Hspec by assumption.
      assert (Htruthy : value_truthy (extractedFields !! fieldName) = true)
        by (apply value_truthy_true; now exists v).
      rewrite Htruthy in Hspec. destruct Hspec as (validation & Hvalidation & _).
      assert (Hthrows :
                validateField_any fetchMasterData chat_completion not_a_function
                  (extractedFields !! fieldName) fieldName clientId
                  (fields_context extractedFields) = inl not_a_function).
      { apply validateField_any_throws. split; [reflexivity|].
        exists v. apply json_truthy_spec in Ht. now repeat split. }
      congruence.
Qed.

(** The theorem at [mixed_fields]: a map is returned; it has an entry for
    the vendor name, whose value is a string, and none for the amount,
    which is not configured, for the cost centre, which is [null], for the
    empty account and for the currency. *)
Lemma validateDocumentFields_entries_witness :
  exists results,
    validateDocumentFields_any (constant_provider sample_vendors) failing_chat_any
      NotAnError mixed_fields "client" = inr results
    /\ is_Some (results !! "invoicing_party")
    /\ results !! "invoice_gross_amount" = None
    /\ results !! "cost_center" = None
    /\ results !! "gl_account" = None
    /\ results !! "currency" = None.
Proof.
  destruct (validateDocumentFields_entries (constant_provider sample_vendors)
              failing_chat_any NotAnError mixed_fields "client")
    as (_ & Hentries & Hreturns & _).
  destruct Hreturns as [results Hresults].
  { intros fieldName v Hin Hv Ht. left.
    unfold LIST_MATCH_FIELDS in Hin.
    repeat (apply elem_of_cons in Hin as [->|Hin];
            [vm_compute in Hv; try discriminate;
             injection Hv as <-;
             try (destruct Ht; unfold falsy_value; tauto); now eexists|]).
    inversion Hin. }
  exists results. split; [exact Hresults|].
  assert (Hnone : forall fieldName,
             ~ (fieldName ∈ LIST_MATCH_FIELDS
                /\ exists v, mixed_fields !! fieldName = Some v /\ ~ falsy_value v) ->
             results !! fieldName = None).
  { intros fieldName Hnot.
    destruct (results !! fieldName) as [r|] eqn:E; [|reflexivity].
    destruct Hnot. apply (proj1 (Hentries results Hresults fieldName)).
    rewrite E. now eexists. }
  split.
  { apply (proj1 (Hentries results Hresults "invoicing_party")).
    split; [repeat constructor|].
    exists (JString "abcdefghij"). split; [vm_compute; reflexivity|].
    intros [H|[H|[H|(n & H & _)]]]; discriminate. }
  repeat split; apply Hnone.
  - intros [Hin _].
    assert (Hno : bool_decide ("invoice_gross_amount" ∈ LIST_MATCH_FIELDS) = false)
      by (vm_compute; reflexivity).
    exact (bool_decide_eq_false_1 _ Hno Hin).
  - intros (_ & v & Hv & Ht). vm_compute in Hv. injection Hv as <-.
    apply Ht. now left.
  - intros (_ & v & Hv & Ht). vm_compute in Hv. injection Hv as <-.
    apply Ht. right. right. now left.
  - intros [Hin _].
    assert (Hno : bool_decide ("currency" ∈ LIST_MATCH_FIELDS) = false)
      by (vm_compute; reflexivity).
    exact (bool_decide_eq_false_1 _ Hno Hin).
Defined.

(** The map for [mixed_fields], and what happens on [wrapped_fields]: the
    wrapped vendor name is an object, there is master data for vendors,
    and the call throws. *)
Example validateDocumentFields_examples :
  validateDocumentFields_any (constant_provider sample_vendors) failing_chat_any
    NotAnError mixed_fields "client"
  = inr {[ "invoicing_party" :=
             {| any_field := "invoicing_party";
                any_extracted_value := JString "abcdefghij";
                any_matched_code := Some "V1";
                any_matched_name := Some "abcdefghik";
                any_confidence := 90; any_status := fuzzy_medium;
                any_alternatives :=
                  [ {| alt_code := "V2"; alt_name := "zzz"; score := 0 |} ] |} ]}
  /\ validateDocumentFields_any (constant_provider sample_vendors) failing_chat_any
       NotAnError wrapped_fields "client"
     = inl NotAnError
  /\ validateDocumentFields_any (constant_provider []) failing_chat_any
       NotAnError wrapped_fields "client"
     = inr {[ "invoicing_party" :=
                {| any_field := "invoicing_party";
                   any_extracted_value :=
                     JObject [("value", JString "Acme");
                              ("confidence", JNumber (95 # 100))];
                   any_matched_code := None; any_matched_name := None;
                   any_confidence := 0; any_status := no_match;
                   any_alternatives := [] |} ]}.
Proof. repeat split; vm_compute; reflexivity. Qed.

(** *** Field maps of strings *)

(** On a field map whose values are strings or [null],
    [validateDocumentFields_any] returns the map of
    [validateDocumentFields], for a chat completion that reads the strings
    of the context. *)
Lemma string_field_lookup (extractedFields : gmap string (option string))
    (fieldName : string) :
  (string_or_null <$> extractedFields) !! fieldName
  = string_or_null <$> extractedFields !! fieldName.
Proof. apply lookup_fmap. Qed.

Lemma string_field_truthy (extractedFields : gmap string (option string))
    (fieldName : string) :
  value_truthy ((string_or_null <$> extractedFields) !! fieldName)
  = is_truthy (field_value extractedFields fieldName).
Proof.
  rewrite string_field_lookup. unfold field_value.
  destruct (extractedFields !! fieldName) as [[s|]|]; reflexivity.
Qed.

Lemma string_field_value (extractedFields : gmap string (option string))
    (fieldName : string) :
  string_of_value ((string_or_null <$> extractedFields) !! fieldName)
  = field_value extractedFields fieldName.
Proof.
  rewrite string_field_lookup. unfold field_value.
  destruct (extractedFields !! fieldName) as [[s|]|]; reflexivity.
Qed.

Lemma string_fields_context (extractedFields : gmap string (option string)) :
  strings_of_context (fields_context (string_or_null <$> extractedFields))
  = document_context extractedFields.
Proof.
  unfold strings_of_context, fields_context, document_context.
  cbn [context_vendor context_amount context_date context_description].
  rewrite !string_field_value. f_equal.
  unfold value_or, or_else, field_value. rewrite !string_field_lookup.
  destruct (extractedFields !! "invoicing_party") as [[s|]|],
    (extractedFields !! "vendor_name") as [[t|]|]; cbn; try reflexivity;
    destruct (truthy s); reflexivity.
Qed.

Lemma validateDocumentFields_any_strings
    (fetchMasterData : string -> DataType -> list MasterDataItem)
    (chat_completion :
       string -> list Alternative -> string -> option DocumentContext -> option GptReply)
    (not_a_function : Thrown)
    (extractedFields : gmap string (option string)) (clientId : string) :
  validateDocumentFields_any fetchMasterData
    (fun v candidates fieldName context =>
       chat_completion v candidates fieldName (Some (strings_of_context context)))
    not_a_function (string_or_null <$> extractedFields) clientId
  = inr (of_string_result
           <$> validateDocumentFields fetchMasterData chat_completion
                 extractedFields clientId).
Proof.
  unfold validateDocumentFields_any, validateDocumentFields. cbv zeta.
  rewrite <- string_fields_context.
  set (context := fields_context (string_or_null <$> extractedFields)).
  rewrite <- (fmap_empty of_string_result).
  generalize (∅ : gmap string ValidationResult).
  induction LIST_MATCH_FIELDS as [|key keys IH]; intros results;
    cbn [fold_left]; [reflexivity|].
  unfold validate_entry at 2. rewrite string_field_truthy.
  destruct (is_truthy (field_value extractedFields key)) eqn:Ht; [|apply IH].
  rewrite <- IH. f_equal. rewrite fmap_insert. f_equal.
  unfold field_value in *. rewrite string_field_lookup.
  destruct (extractedFields !! key) as [[s|]|]; try discriminate. reflexivity.
Qed.

(** ** The decoder: key and value markers *)

Lemma has_get {V} (m : JsMap.t V) k :
  JsMap.has m k = true <-> is_Some (JsMap.get m k).
Proof.
  unfold JsMap.has. destruct (JsMap.get m k); split; intros H;
    try discriminate; try reflexivity; eauto.
  destruct H; discriminate.
Qed.

(** The inner loop of [findValueBlock] keeps the last identifier found in
    the map. *)
Lemma find_value_inner (valueMap : JsMap.t Block) ids : forall valueBlock,
  fold_left
    (fun valueBlock valueId =>
       if JsMap.has valueMap (Some valueId)
       then JsMap.get valueMap (Some valueId)
       else valueBlock)
    ids valueBlock
  = match last (omap (fun id => JsMap.get valueMap (Some id)) ids) with
    | Some b => Some b
    | None => valueBlock
    end.
Proof.
  induction ids as [|id ids IH]; intros valueBlock; cbn [fold_left].
  - reflexivity.
  - rewrite IH. unfold JsMap.has. cbn [omap list_omap].
    destruct (JsMap.get valueMap (Some id)) as [b|] eqn:E; [|reflexivity].
    rewrite last_cons.
    destruct (last (omap _ ids)); reflexivity.
Qed.

Lemma find_value_outer (valueMap : JsMap.t Block) rels : forall valueBlock,
  fold_left
    (fun valueBlock relationship =>
       fold_left
         (fun valueBlock valueId =>
            if JsMap.has valueMap (Some valueId)
            then JsMap.get valueMap (Some valueId)
            else valueBlock)
         (ids_of_type "VALUE" relationship) valueBlock)
    rels valueBlock
  = match last (omap (fun id => JsMap.get valueMap (Some id))
                  (flat_map (ids_of_type "VALUE") rels)) with
    | Some b => Some b
    | None => valueBlock
    end.
Proof.
  induction rels as [|r rels IH]; intros valueBlock; cbn [fold_left flat_map].
  - reflexivity.
  - rewrite IH, find_value_inner, omap_app, last_app.
    destruct (last (omap _ (flat_map _ rels))); reflexivity.
Qed.

(** Claim C2, as the code has it.  A key marker is paired with the LAST
    value marker found in edge iteration order: the loop of [findValueBlock]
    overwrites its result at every identifier the value map holds, and does
    no scoring. *)
Theorem findValueBlock_last_found (keyBlock : Block) (valueMap : JsMap.t Block) :
  findValueBlock keyBlock valueMap =
  last (omap (fun id => JsMap.get valueMap (Some id)) (value_edge_ids keyBlock)).
Proof.
  unfold findValueBlock, value_edge_ids. rewrite find_value_outer.
  destruct (last _); reflexivity.
Qed.

(** Against claim C2: the key "Name" lists the value markers "v1" (Alice)
    then "v2" (Bob), both resolvable; the decoder pairs it with the second. *)
Lemma first_value_edge_does_not_win :
  value_edge_ids name_key = ["v1"; "v2"]
  /\ JsMap.get (valueMap (fold_left index_block sample_form no_maps)) (Some "v1")
     = Some alice_value
  /\ JsMap.get (valueMap (fold_left index_block sample_form no_maps)) (Some "v2")
     = Some bob_value
  /\ findValueBlock name_key (valueMap (fold_left index_block sample_form no_maps))
     = Some bob_value
  /\ keyValues (extractText sample_form) !! "Name" = Some "Bob".
Proof. repeat split; vm_compute; reflexivity. Qed.

(** ** The decoder: tables *)

(** *** Reading an array after a write *)

Lemma lookup_write_at {A} (n : nat) (v : A) (l : list (option A)) (n' : nat) :
  mjoin (JsArray.write_at n v l !! n')
  = if decide (n = n') then Some v else mjoin (l !! n').
Proof.
  unfold JsArray.write_at.
  destruct (Nat.ltb_spec n (Datatypes.length l)) as [Hlt|Hge].
  - destruct (decide (n = n')) as [<-|Hne].
    + now rewrite list_lookup_insert_eq.
    + now rewrite list_lookup_insert_ne.
  - destruct (decide (n' < Datatypes.length l)%nat) as [Hin|Hout].
    + rewrite lookup_app_l by assumption.
      destruct (decide (n = n')); [lia|reflexivity].
    + rewrite lookup_app_r by lia.
      rewrite (lookup_ge_None_2 l n') by lia.
      destruct (decide (n = n')) as [<-|Hne].
      * rewrite lookup_app_r by (rewrite length_replicate; lia).
        rewrite length_replicate, Nat.sub_diag. reflexivity.
      * destruct (decide (n' < n)%nat).
        -- rewrite lookup_app_l by (rewrite length_replicate; lia).
           rewrite lookup_replicate_2 by lia. reflexivity.
        -- rewrite lookup_app_r by (rewrite length_replicate; lia).
           rewrite length_replicate.
           destruct (n' - Datatypes.length l - (n - Datatypes.length l))%nat
             as [|m] eqn:E; [lia|reflexivity].
Qed.

Lemma is_index_nonneg k : JsArray.is_index k = true -> 0 <= k.
Proof. unfold JsArray.is_index. lia. Qed.

Lemma array_get_set {A} (a : JsArray.t A) (k k' : Z) (v : A) :
  JsArray.get (JsArray.set a k v) k'
  = if decide (k = k') then Some v else JsArray.get a k'.
Proof.
  unfold JsArray.get, JsArray.set.
  destruct (JsArray.is_index k) eqn:Hk, (JsArray.is_index k') eqn:Hk'; cbn;
    rewrite ?Hk'.
  - rewrite lookup_write_at.
    apply is_index_nonneg in Hk, Hk'.
    destruct (decide (Z.to_nat k = Z.to_nat k')), (decide (k = k'));
      try reflexivity; lia.
  - destruct (decide (k = k')); [congruence|reflexivity].
  - destruct (decide (k = k')); [congruence|reflexivity].
  - destruct (decide (k = k')) as [->|Hne].
    + apply lookup_insert_eq.
    + now apply lookup_insert_ne.
Qed.

Lemma array_get_empty {A} (k : Z) : JsArray.get (@JsArray.empty A) k = None.
Proof. unfold JsArray.get. destruct (JsArray.is_index k); reflexivity. Qed.

(** *** What one placement changes *)

Lemma set_lookup {A} (a : JsArray.t A) (k : Z) (v : A) (n : nat) :
  mjoin (JsArray.items (JsArray.set a k v) !! n)
  = if JsArray.is_index k && bool_decide (n = Z.to_nat k) then Some v
    else mjoin (JsArray.items a !! n).
Proof.
  unfold JsArray.set. destruct (JsArray.is_index k); cbn [JsArray.items andb];
    [|reflexivity].
  rewrite lookup_write_at.
  destruct (decide (Z.to_nat k = n)) as [<-|Hne].
  - now rewrite bool_decide_eq_true_2.
  - rewrite bool_decide_eq_false_2 by congruence. reflexivity.
Qed.

Lemma place_cell_eq (a : JsArray.t (JsArray.t string)) (c : Cell) :
  place_cell a c =
  match JsArray.get a (rowIndex c - 1) with
  | Some row =>
      JsArray.set a (rowIndex c - 1)
        (JsArray.set row (columnIndex c - 1) (text c))
  | None =>
      JsArray.set (JsArray.set a (rowIndex c - 1) JsArray.empty) (rowIndex c - 1)
        (JsArray.set JsArray.empty (columnIndex c - 1) (text c))
  end.
Proof.
  unfold place_cell. cbv zeta.
  destruct (JsArray.get a (rowIndex c - 1)) as [row|] eqn:E.
  - now rewrite E.
  - rewrite array_get_set.
    destruct (decide (rowIndex c - 1 = rowIndex c - 1)); [reflexivity|congruence].
Qed.

(** The element at position [n] after [place_cell]. *)
Lemma place_cell_items (a : JsArray.t (JsArray.t string)) (c : Cell) (n : nat) :
  mjoin (JsArray.items (place_cell a c) !! n)
  = if JsArray.is_index (rowIndex c - 1)
       && bool_decide (n = Z.to_nat (rowIndex c - 1))
    then Some (JsArray.set (default JsArray.empty (mjoin (JsArray.items a !! n)))
                 (columnIndex c - 1) (text c))
    else mjoin (JsArray.items a !! n).
Proof.
  rewrite place_cell_eq. set (r := rowIndex c - 1). set (col := columnIndex c - 1).
  destruct (JsArray.get a r) as [row|] eqn:E; rewrite ?set_lookup.
  - destruct (JsArray.is_index r) eqn:Hr; cbn [andb]; [|reflexivity].
    destruct (decide (n = Z.to_nat r)) as [->|Hne].
    + rewrite bool_decide_eq_true_2 by reflexivity.
      unfold JsArray.get in E. rewrite Hr in E. now rewrite E.
    + now rewrite bool_decide_eq_false_2.
  - destruct (JsArray.is_index r) eqn:Hr; cbn [andb]; [|reflexivity].
    destruct (decide (n = Z.to_nat r)) as [->|Hne].
    + rewrite bool_decide_eq_true_2 by reflexivity.
      unfold JsArray.get in E. rewrite Hr in E. now rewrite E.
    + now rewrite bool_decide_eq_false_2.
Qed.

Lemma set_items (row : JsArray.t string) (k : Z) (v : string) :
  JsArray.items (JsArray.set row k v)
  = if JsArray.is_index k then JsArray.write_at (Z.to_nat k) v (JsArray.items row)
    else JsArray.items row.
Proof. unfold JsArray.set. destruct (JsArray.is_index k); reflexivity. Qed.

(** The same, on the elements of the rows only. *)
Lemma place_cell_row_items (a : JsArray.t (JsArray.t string)) (c : Cell) (n : nat) :
  row_items (mjoin (JsArray.items (place_cell a c) !! n))
  = if JsArray.is_index (rowIndex c - 1)
       && bool_decide (n = Z.to_nat (rowIndex c - 1))
       && JsArray.is_index (columnIndex c - 1)
    then JsArray.write_at (Z.to_nat (columnIndex c - 1)) (text c)
           (row_items (mjoin (JsArray.items a !! n)))
    else row_items (mjoin (JsArray.items a !! n)).
Proof.
  rewrite place_cell_items.
  destruct (JsArray.is_index (rowIndex c - 1)
            && bool_decide (n = Z.to_nat (rowIndex c - 1))); cbn [andb];
    [|reflexivity].
  unfold row_items at 1. cbn [from_option id]. rewrite set_items. reflexivity.
Qed.

(** *** Surviving rows depend on the elements of the rows only *)

Lemma surviving_rows_items (a : JsArray.t (JsArray.t string)) :
  map JsArray.items (surviving_rows a)
  = List.filter nonempty (map row_items (JsArray.items a)).
Proof.
  unfold surviving_rows. induction (JsArray.items a) as [|[row|] l IH].
  - reflexivity.
  - change (omap id (Some row :: l)) with (row :: omap id l).
    cbn [List.filter map].
    change (nonempty (row_items (Some row))) with (0 <? JsArray.length row)%nat.
    change (row_items (Some row)) with (JsArray.items row).
    destruct (0 <? JsArray.length row)%nat; cbn [map]; now rewrite IH.
  - change (omap id (None :: l)) with (omap id l). rewrite IH. reflexivity.
Qed.

Lemma all_rows_empty (l : list (option (JsArray.t string))) :
  (forall n, row_items (mjoin (l !! n)) = []) ->
  List.filter nonempty (map row_items l) = [].
Proof.
  induction l as [|x l IH]; intros H; cbn; [reflexivity|].
  pose proof (H O) as H0. cbn in H0. rewrite H0. cbn.
  apply IH. intros n. exact (H (S n)).
Qed.

Lemma same_rows_same_survivors (l1 : list (option (JsArray.t string))) :
  forall l2,
    (forall n, row_items (mjoin (l1 !! n)) = row_items (mjoin (l2 !! n))) ->
    List.filter nonempty (map row_items l1) = List.filter nonempty (map row_items l2).
Proof.
  induction l1 as [|x l1 IH]; intros l2 H.
  - symmetry. apply all_rows_empty. intros n. now rewrite <- H.
  - destruct l2 as [|y l2].
    + apply all_rows_empty. intros n. now rewrite H.
    + pose proof (H O) as H0. cbn in H0. cbn. rewrite H0.
      rewrite (IH l2 (fun n => H (S n))). reflexivity.
Qed.

Lemma fold_place_same_rows (cells : list Cell) :
  forall a b : JsArray.t (JsArray.t string),
    (forall n, row_items (mjoin (JsArray.items a !! n))
               = row_items (mjoin (JsArray.items b !! n))) ->
    forall n,
      row_items (mjoin (JsArray.items (fold_left place_cell cells a) !! n))
      = row_items (mjoin (JsArray.items (fold_left place_cell cells b) !! n)).
Proof.
  induction cells as [|c cells IH]; intros a b H; cbn [fold_left]; [exact H|].
  apply IH. intros n. rewrite !place_cell_row_items, H. reflexivity.
Qed.

(** A cell whose row or column index is 0 is written under the key [-1]:
    no element of any row changes. *)
Lemma place_cell_unindexed (a : JsArray.t (JsArray.t string)) (c : Cell) :
  rowIndex c = 0 \/ columnIndex c = 0 ->
  forall n,
    row_items (mjoin (JsArray.items (place_cell a c) !! n))
    = row_items (mjoin (JsArray.items a !! n)).
Proof.
  intros H n. rewrite place_cell_row_items.
  destruct H as [-> | ->]; cbn [Z.sub Z.add Z.opp Z.pos_sub];
    change (JsArray.is_index (0 - 1)) with false; cbn [andb];
    rewrite ?andb_false_r; reflexivity.
Qed.

(** Where [place_cell] writes: the text stands under the key
    [columnIndex - 1] of what stands under the key [rowIndex - 1]. *)
Lemma place_cell_written (a : JsArray.t (JsArray.t string)) (c : Cell) :
  exists row,
    JsArray.get (place_cell a c) (rowIndex c - 1) = Some row
    /\ JsArray.get row (columnIndex c - 1) = Some (text c).
Proof.
  assert (Hcol : forall row : JsArray.t string,
             JsArray.get (JsArray.set row (columnIndex c - 1) (text c))
               (columnIndex c - 1) = Some (text c)).
  { intros row. rewrite array_get_set.
    destruct (decide (columnIndex c - 1 = columnIndex c - 1)); congruence. }
  rewrite place_cell_eq.
  destruct (JsArray.get a (rowIndex c - 1)) as [row|].
  - exists (JsArray.set row (columnIndex c - 1) (text c)).
    split; [|apply Hcol]. rewrite array_get_set.
    destruct (decide (rowIndex c - 1 = rowIndex c - 1)); congruence.
  - exists (JsArray.set JsArray.empty (columnIndex c - 1) (text c)).
    split; [|apply Hcol]. rewrite array_get_set.
    destruct (decide (rowIndex c - 1 = rowIndex c - 1)); congruence.
Qed.

(** A cell of another position leaves what is written in place. *)
Lemma place_cell_kept (a : JsArray.t (JsArray.t string)) (c : Cell)
    (r j : Z) (t : string) :
  rowIndex c - 1 <> r \/ columnIndex c - 1 <> j ->
  (exists row, JsArray.get a r = Some row /\ JsArray.get row j = Some t) ->
  exists row, JsArray.get (place_cell a c) r = Some row /\ JsArray.get row j = Some t.
Proof.
  intros Hother (row & Hrow & Ht). rewrite place_cell_eq.
  destruct (decide (rowIndex c - 1 = r)) as [Er|Er].
  - rewrite Er, Hrow. exists (JsArray.set row (columnIndex c - 1) (text c)).
    split.
    + rewrite array_get_set. destruct (decide (r = r)); congruence.
    + rewrite array_get_set.
      destruct (decide (columnIndex c - 1 = j)); [|assumption].
      destruct Hother; congruence.
  - exists row. split; [|assumption].
    destruct (JsArray.get a (rowIndex c - 1)).
    + rewrite array_get_set.
      destruct (decide (rowIndex c - 1 = r)); [congruence|assumption].
    + rewrite (array_get_set (JsArray.set a (rowIndex c - 1) JsArray.empty)).
      destruct (decide (rowIndex c - 1 = r)); [congruence|].
      rewrite array_get_set.
      destruct (decide (rowIndex c - 1 = r)); [congruence|assumption].
Qed.

Lemma place_cells_kept (cells : list Cell) (r j : Z) (t : string) :
  forall a : JsArray.t (JsArray.t string),
    (forall c, c ∈ cells -> rowIndex c - 1 <> r \/ columnIndex c - 1 <> j) ->
    (exists row, JsArray.get a r = Some row /\ JsArray.get row j = Some t) ->
    exists row,
      JsArray.get (fold_left place_cell cells a) r = Some row
      /\ JsArray.get row j = Some t.
Proof.
  induction cells as [|c cells IH]; intros a Hother H; cbn [fold_left]; [exact H|].
  apply IH.
  - intros c' Hin. apply Hother. now right.
  - apply place_cell_kept; [apply Hother; left|exact H].
Qed.

(** Claim C5, what the code does.  A cell block whose row index or column
    index is absent gets the index 0, not 1, and it is kept in [rawCells]
    with that 0.  Its text is then written under the key [0 - 1]: when the
    row index is absent, into an array that [rows] holds as its property
    [-1]; when the column index is absent, as the property [-1] of the row.
    Unless a later cell of the same indices overwrites it, the text is
    still there when the loop ends.  The key [-1] is no position of an
    array: row by row, the elements of the reconstructed table are those of
    the table without that cell. *)
Theorem missing_index_is_zero (cell : Block) (blockMap : JsMap.t Block)
    (before after : list Cell) :
  RowIndex cell = None \/ ColumnIndex cell = None ->
  let c := cell_record cell blockMap in
  (rowIndex c = 0 \/ columnIndex c = 0)
  /\ (RowIndex cell = None -> rowIndex c = 0)
  /\ (ColumnIndex cell = None -> columnIndex c = 0)
  /\ c ∈ rawCells (organize (before ++ c :: after))
  /\ ((forall c', c' ∈ after ->
         rowIndex c' <> rowIndex c \/ columnIndex c' <> columnIndex c) ->
      exists row,
        JsArray.get (place_cells (before ++ c :: after)) (rowIndex c - 1) = Some row
        /\ JsArray.get row (columnIndex c - 1) = Some (text c)
        /\ (RowIndex cell = None ->
            JsArray.props (place_cells (before ++ c :: after)) !! (-1) = Some row)
        /\ (ColumnIndex cell = None -> JsArray.props row !! (-1) = Some (text c)))
  /\ map JsArray.items (rows (organize (before ++ c :: after)))
     = map JsArray.items (rows (organize (before ++ after))).
Proof.
  intros Hmissing c.
  assert (Hrow : RowIndex cell = None -> rowIndex c = 0).
  { intros E. unfold c. cbn. now rewrite E. }
  assert (Hcol : ColumnIndex cell = None -> columnIndex c = 0).
  { intros E. unfold c. cbn. now rewrite E. }
  assert (Hzero : rowIndex c = 0 \/ columnIndex c = 0).
  { destruct Hmissing; auto. }
  split; [exact Hzero|]. split; [exact Hrow|]. split; [exact Hcol|]. split.
  { cbn. apply elem_of_app. right. left. }
  split.
  - intros Hafter.
    destruct (place_cells_kept after (rowIndex c - 1) (columnIndex c - 1) (text c)
                (place_cell (fold_left place_cell before JsArray.empty) c))
      as (row & Hget & Htext).
    { intros c' Hin. destruct (Hafter c' Hin); [left|right]; lia. }
    { apply place_cell_written. }
    exists row. unfold place_cells. rewrite fold_left_app. cbn [fold_left].
    split; [exact Hget|]. split; [exact Htext|]. split.
    + intros E. rewrite (Hrow E) in Hget. exact Hget.
    + intros E. rewrite (Hcol E) in Htext. exact Htext.
  - cbn [organize rows]. rewrite !surviving_rows_items.
    apply same_rows_same_survivors. unfold place_cells.
    rewrite !fold_left_app. cbn [fold_left].
    apply fold_place_same_rows. now apply place_cell_unindexed.
Qed.

(** The theorem at a cell without indices, followed by a cell of row 1,
    column 2: the text "Alice" is the property [-1] of the property [-1] of
    [rows], and the table is that of the second cell alone. *)
Lemma missing_index_is_zero_witness :
  (exists row,
     JsArray.props
       (place_cells
          ([] ++ cell_record unplaced_cell [(Some "w2", word "w2" "Alice")]
              :: [second_column_cell])) !! (-1) = Some row
     /\ JsArray.props row !! (-1) = Some "Alice")
  /\ map JsArray.items
       (rows (organize
                ([] ++ cell_record unplaced_cell [(Some "w2", word "w2" "Alice")]
                    :: [second_column_cell])))
     = map JsArray.items (rows (organize ([] ++ [second_column_cell]))).
Proof.
  pose proof (missing_index_is_zero unplaced_cell [(Some "w2", word "w2" "Alice")]
                [] [second_column_cell] (or_introl eq_refl))
    as (_ & _ & _ & _ & Hwritten & Hrows).
  split; [|exact Hrows].
  destruct Hwritten as (row & _ & _ & Hrow & Hcol).
  { intros c' Hin. apply list_elem_of_singleton in Hin as ->.
    left. discriminate. }
  exists row. split; [exact (Hrow eq_refl)|exact (Hcol eq_refl)].
Defined.

(** Against claim C5: a table whose only cell has neither row nor column
    index.  The cell is recorded with the indices 0 and 0, its text "Alice"
    is written as the property [-1] of the property [-1] of [rows], and the
    reconstructed table has no row at all: the text is not at row 0,
    column 0. *)
Lemma missing_index_not_row_0_col_0 :
  RowIndex unplaced_cell = None
  /\ ColumnIndex unplaced_cell = None
  /\ (let maps := fold_left index_block unplaced_table no_maps in
      JsArray.props
        (place_cells
           (table_cells (with_edges [("CHILD", ["c1"])] (block "t" "TABLE"))
              (cellMap maps) (blockMap maps))) !! (-1)
      ≫= (fun row => JsArray.props row !! (-1)))
     = Some "Alice"
  /\ map (fun t => (rowIndex <$> rawCells t, text <$> rawCells t))
       (let maps := fold_left index_block unplaced_table no_maps in
        [ extractTable (with_edges [("CHILD", ["c1"])] (block "t" "TABLE"))
            (cellMap maps) (blockMap maps) ])
     = [ ([0], ["Alice"]) ]
  /\ rows (let maps := fold_left index_block unplaced_table no_maps in
           extractTable (with_edges [("CHILD", ["c1"])] (block "t" "TABLE"))
             (cellMap maps) (blockMap maps))
     = []
  /\ tables (extractText unplaced_table) = [].
Proof. repeat split; vm_compute; reflexivity. Qed.

(** *** Where the written positions come from *)

Lemma placed_by_step cells a c :
  placed_by cells a -> placed_by (cells ++ [c]) (place_cell a c).
Proof.
  intros Inv n row j t Hrow Hget. rewrite place_cell_items in Hrow.
  destruct (JsArray.is_index (rowIndex c - 1)) eqn:Hr; cbn [andb] in Hrow.
  - destruct (decide (n = Z.to_nat (rowIndex c - 1))) as [Hn|Hn].
    + rewrite bool_decide_eq_true_2 in Hrow by assumption.
      injection Hrow as <-. rewrite array_get_set in Hget.
      destruct (decide (columnIndex c - 1 = j)) as [Hj|Hj].
      * injection Hget as <-. exists c. split; [apply elem_of_app; right; left|].
        apply is_index_nonneg in Hr. repeat split; [lia|assumption].
      * destruct (mjoin (JsArray.items a !! n)) as [row0|] eqn:E; cbn in Hget.
        -- destruct (Inv n row0 j t E Hget) as (c' & Hin & H1 & H2 & H3).
           exists c'. split; [apply elem_of_app; now left|auto].
        -- rewrite array_get_empty in Hget. discriminate.
    + rewrite bool_decide_eq_false_2 in Hrow by assumption.
      destruct (Inv n row j t Hrow Hget) as (c' & Hin & H1 & H2 & H3).
      exists c'. split; [apply elem_of_app; now left|auto].
  - destruct (Inv n row j t Hrow Hget) as (c' & Hin & H1 & H2 & H3).
    exists c'. split; [apply elem_of_app; now left|auto].
Qed.

Lemma placed_by_fold cells : forall done a,
  placed_by done a -> placed_by (done ++ cells) (fold_left place_cell cells a).
Proof.
  induction cells as [|c cells IH]; intros done a Inv; cbn [fold_left].
  - now rewrite app_nil_r.
  - replace (done ++ c :: cells) with ((done ++ [c]) ++ cells)
      by now rewrite <- app_assoc.
    apply IH. now apply placed_by_step.
Qed.

Lemma placed_by_cells cells : placed_by cells (place_cells cells).
Proof.
  apply (placed_by_fold cells [] JsArray.empty).
  intros n row j t H. cbn in H. rewrite lookup_nil in H. discriminate.
Qed.

(** Claim C6, as the code has it.  Every row of a reconstructed table is
    one of the row arrays the placements allocated, and every position of
    it that no cell placement wrote is a hole, which reads as [undefined]
    (never the empty string): a row is a sequence of strings with holes. *)
Theorem unwritten_positions_are_holes (cells : list Cell) (row : JsArray.t string) :
  row ∈ rows (organize cells) ->
  exists n : nat,
    JsArray.items (place_cells cells) !! n = Some (Some row)
    /\ forall j : Z,
         (forall c, c ∈ cells -> rowIndex c - 1 = Z.of_nat n ->
                    columnIndex c - 1 <> j) ->
         JsArray.get row j = None.
Proof.
  cbn [organize rows]. unfold surviving_rows. intros Hin.
  apply list_elem_of_In, filter_In in Hin as [Hin _].
  apply list_elem_of_In, list_elem_of_omap in Hin as (o & Ho & Hid).
  cbn in Hid. subst o.
  apply list_elem_of_lookup in Ho as [n Hn].
  exists n. split; [exact Hn|]. intros j Hfree.
  destruct (JsArray.get row j) as [t|] eqn:E; [|reflexivity].
  assert (Hrow : mjoin (JsArray.items (place_cells cells) !! n) = Some row)
    by now rewrite Hn.
  destruct (placed_by_cells cells n row j t Hrow E) as (c & Hc & H1 & H2 & _).
  now destruct (Hfree c Hc H1).
Qed.

Lemma unwritten_positions_are_holes_witness :
  exists n : nat,
    JsArray.items (place_cells [second_column_cell]) !! n
    = Some (Some (JsArray.mk [None; Some "Bob"] ∅))
    /\ forall j : Z,
         (forall c, c ∈ [second_column_cell] -> rowIndex c - 1 = Z.of_nat n ->
                    columnIndex c - 1 <> j) ->
         JsArray.get (JsArray.mk [None; Some "Bob"] ∅) j = None.
Proof.
  apply (unwritten_positions_are_holes [second_column_cell]
           (JsArray.mk [None; Some "Bob"] ∅)).
  vm_compute. left.
Defined.

(** Against claim C6: a table whose only cell is in row 1, column 2.  Its
    row survives with length 2, and position 0, which no cell wrote, is a
    hole and not the empty string. *)
Lemma unwritten_position_is_not_empty_string :
  rows (organize [second_column_cell]) = [ JsArray.mk [None; Some "Bob"] ∅ ]
  /\ JsArray.length (JsArray.mk [None; Some "Bob"] (∅ : gmap Z string)) = 2%nat
  /\ JsArray.get (JsArray.mk [None; Some "Bob"] ∅) 0 = None
  /\ JsArray.get (JsArray.mk [None; Some "Bob"] ∅) 0 <> Some "".
Proof.
  repeat split; try (vm_compute; reflexivity).
  vm_compute. discriminate.
Qed.

(** ** The decoder under a reordering of the blocks *)

(** *** The maps of the first loop *)

Lemma index_block_maps l : forall m,
  blockMap (fold_left index_block l m) = index_by (fun _ => true) l (blockMap m)
  /\ keyMap (fold_left index_block l m) = index_by in_keyMap l (keyMap m)
  /\ valueMap (fold_left index_block l m) = index_by in_valueMap l (valueMap m)
  /\ tableMap (fold_left index_block l m) = index_by in_tableMap l (tableMap m)
  /\ cellMap (fold_left index_block l m) = index_by in_cellMap l (cellMap m).
Proof.
  induction l as [|b l IH]; intros m; cbn [fold_left].
  - repeat split.
  - destruct (IH (index_block m b)) as (H1 & H2 & H3 & H4 & H5).
    rewrite H1, H2, H3, H4, H5. clear.
    unfold index_by, in_keyMap, in_valueMap, in_tableMap, in_cellMap,
      index_block; cbn [fold_left].
    destruct (has_type "KEY_VALUE_SET" b); [destruct (is_key b)|];
      [| |destruct (has_type "TABLE" b); [|destruct (has_type "CELL" b)]];
      cbn; repeat split.
Qed.

Lemma set_fresh {V} (k : option string) (v : V) (m : JsMap.t V) :
  k ∉ m.*1 -> JsMap.set k v m = m ++ [(k, v)].
Proof.
  induction m as [|[k' v'] m IH]; intros Hk; cbn; [reflexivity|].
  destruct (decide (k' = k)) as [->|Hne].
  - exfalso. apply Hk. left.
  - rewrite IH; [reflexivity|]. intros Hin. apply Hk. now right.
Qed.

Lemma index_by_cons (P : Block -> bool) b l acc :
  index_by P (b :: l) acc
  = index_by P l (if P b then JsMap.set (Id b) b acc else acc).
Proof. reflexivity. Qed.

Lemma index_by_fresh (P : Block -> bool) l : forall acc,
  NoDup (Id <$> l) ->
  (forall b, b ∈ l -> Id b ∉ acc.*1) ->
  index_by P l acc = acc ++ (entry <$> filter P l).
Proof.
  induction l as [|b l IH]; intros acc Hnd Hfresh.
  - cbn. now rewrite app_nil_r.
  - rewrite fmap_cons in Hnd. apply NoDup_cons in Hnd as [Hb Hnd].
    rewrite index_by_cons. destruct (P b) eqn:HP.
    + rewrite filter_cons_True by now rewrite HP.
      rewrite set_fresh by (apply Hfresh; left).
      rewrite IH; [now rewrite <- app_assoc|assumption|].
      intros b' Hb'. rewrite fmap_app. intros [Hin|Hin]%elem_of_app.
      * revert Hin. apply Hfresh. now right.
      * cbn in Hin. apply list_elem_of_singleton in Hin.
        apply Hb. rewrite <- Hin. now apply list_elem_of_fmap_2.
    + rewrite filter_cons_False by now rewrite HP.
      apply IH; [assumption|]. intros b' Hb'. apply Hfresh. now right.
Qed.

Lemma filter_all (l : list Block) : filter (fun _ : Block => true) l = l.
Proof.
  induction l as [|b l IH]; [reflexivity|].
  rewrite filter_cons_True by reflexivity. now rewrite IH.
Qed.

Lemma values_entries (l : list Block) : JsMap.values (entry <$> l) = l.
Proof.
  unfold JsMap.values. induction l as [|b l IH]; cbn; [reflexivity|].
  now f_equal.
Qed.

(** With distinct identifiers, the maps are the blocks of each kind in
    input order. *)
Lemma maps_of_distinct (l : list Block) :
  NoDup (Id <$> l) ->
  blockMap (fold_left index_block l no_maps) = entry <$> l
  /\ keyMap (fold_left index_block l no_maps) = entry <$> filter in_keyMap l
  /\ valueMap (fold_left index_block l no_maps) = entry <$> filter in_valueMap l
  /\ tableMap (fold_left index_block l no_maps) = entry <$> filter in_tableMap l
  /\ cellMap (fold_left index_block l no_maps) = entry <$> filter in_cellMap l.
Proof.
  intros Hnd.
  destruct (index_block_maps l no_maps) as (H1 & H2 & H3 & H4 & H5).
  rewrite H1, H2, H3, H4, H5. cbn [no_maps blockMap keyMap valueMap tableMap cellMap].
  rewrite !index_by_fresh by (try assumption; intros b _ Hin; inversion Hin).
  cbn [app]. now rewrite filter_all.
Qed.

(** *** Looking a block up by identifier *)

Lemma get_entries (l : list Block) k b :
  JsMap.get (entry <$> l) k = Some b -> b ∈ l /\ Id b = k.
Proof.
  induction l as [|x l IH]; cbn; [discriminate|].
  destruct (decide (Id x = k)) as [Hk|Hk].
  - intros [= <-]. split; [left|assumption].
  - intros H. destruct (IH H). split; [now right|assumption].
Qed.

Lemma get_entries_elem (l : list Block) b :
  NoDup (Id <$> l) -> b ∈ l -> JsMap.get (entry <$> l) (Id b) = Some b.
Proof.
  induction l as [|x l IH]; intros Hnd Hin; [inversion Hin|].
  rewrite fmap_cons in Hnd. apply NoDup_cons in Hnd as [Hx Hnd]. cbn.
  apply elem_of_cons in Hin as [->|Hin].
  - destruct (decide (Id x = Id x)); [reflexivity|congruence].
  - destruct (decide (Id x = Id b)) as [E|_]; [|now apply IH].
    exfalso. apply Hx. rewrite E. now apply list_elem_of_fmap_2.
Qed.

Lemma get_entries_perm (l1 l2 : list Block) k :
  NoDup (Id <$> l1) -> l1 ≡ₚ l2 ->
  JsMap.get (entry <$> l1) k = JsMap.get (entry <$> l2) k.
Proof.
  intros Hnd1 Hperm.
  assert (Hnd2 : NoDup (Id <$> l2)) by now rewrite <- Hperm.
  destruct (JsMap.get (entry <$> l1) k) as [b|] eqn:E1.
  - apply get_entries in E1 as [Hin <-]. symmetry.
    apply get_entries_elem; [assumption|]. now rewrite <- Hperm.
  - destruct (JsMap.get (entry <$> l2) k) as [b|] eqn:E2; [|reflexivity].
    apply get_entries in E2 as [Hin <-].
    rewrite get_entries_elem in E1; [discriminate|assumption|].
    now rewrite Hperm.
Qed.

Lemma NoDup_ids_filter (P : Block -> bool) l :
  NoDup (Id <$> l) -> NoDup (Id <$> filter P l).
Proof.
  induction l as [|b l IH]; intros Hnd; [constructor|].
  rewrite fmap_cons in Hnd. apply NoDup_cons in Hnd as [Hb Hnd].
  destruct (P b) eqn:HP.
  - rewrite filter_cons_True by now rewrite HP.
    rewrite fmap_cons. apply NoDup_cons. split; [|now apply IH].
    intros (b' & E & Hin)%list_elem_of_fmap.
    apply list_elem_of_filter in Hin as [_ Hin].
    apply Hb. rewrite E. now apply list_elem_of_fmap_2.
  - rewrite filter_cons_False by now rewrite HP. now apply IH.
Qed.

(** *** The readers depend on the maps through their lookups only *)

Lemma fold_left_ext {A B} (f g : A -> B -> A) :
  (forall a x, f a x = g a x) -> forall l a, fold_left f l a = fold_left g l a.
Proof.
  intros H l. induction l as [|x l IH]; intros a; cbn; [reflexivity|].
  now rewrite H, IH.
Qed.

Section SameLookups.

Variables blockMap1 blockMap2 : JsMap.t Block.
Hypothesis same_blocks : forall k, JsMap.get blockMap1 k = JsMap.get blockMap2 k.

Lemma getText_ext block : getText block blockMap1 = getText block blockMap2.
Proof.
  unfold getText. f_equal. apply fold_left_ext. intros t rel.
  apply fold_left_ext. intros t' childId. now rewrite same_blocks.
Qed.

Lemma cell_record_ext cell : cell_record cell blockMap1 = cell_record cell blockMap2.
Proof. unfold cell_record. now rewrite getText_ext. Qed.

Variables cellMap1 cellMap2 : JsMap.t Block.
Hypothesis same_cells : forall k, JsMap.get cellMap1 k = JsMap.get cellMap2 k.

Lemma extractTable_ext tableBlock :
  extractTable tableBlock cellMap1 blockMap1
  = extractTable tableBlock cellMap2 blockMap2.
Proof.
  unfold extractTable, table_cells. f_equal. apply fold_left_ext. intros cs rel.
  apply fold_left_ext. intros cs' cellId. rewrite same_cells.
  destruct (JsMap.get cellMap2 (Some cellId)); [|reflexivity].
  now rewrite cell_record_ext.
Qed.

End SameLookups.

Lemma findValueBlock_ext (valueMap1 valueMap2 : JsMap.t Block) keyBlock :
  (forall k, JsMap.get valueMap1 k = JsMap.get valueMap2 k) ->
  findValueBlock keyBlock valueMap1 = findValueBlock keyBlock valueMap2.
Proof.
  intros H. unfold findValueBlock. apply fold_left_ext. intros vb rel.
  apply fold_left_ext. intros vb' valueId. unfold JsMap.has. now rewrite H.
Qed.

(** *** The loops as maps and filters *)

Lemma fold_add_key_value maps keyBlocks : forall keyValues,
  fold_left (add_key_value maps) keyBlocks keyValues
  = fold_left set_pair (omap (key_value_pair maps) keyBlocks) keyValues.
Proof.
  induction keyBlocks as [|kb kbs IH]; intros kv; [reflexivity|].
  cbn [fold_left omap list_omap]. rewrite IH. unfold add_key_value.
  destruct (key_value_pair maps kb) as [[k v]|]; reflexivity.
Qed.

Lemma fold_add_table maps tableBlocks : forall acc,
  fold_left (add_table maps) tableBlocks acc
  = acc ++ omap (table_of maps) tableBlocks.
Proof.
  induction tableBlocks as [|tb tbs IH]; intros acc.
  - cbn. now rewrite app_nil_r.
  - cbn [fold_left omap list_omap]. rewrite IH. unfold add_table.
    destruct (table_of maps tb) as [t|]; [|reflexivity].
    now rewrite <- app_assoc.
Qed.

Lemma append_assoc (a b c : string) : (a +:+ b) +:+ c = a +:+ (b +:+ c).
Proof.
  induction a as [|x a IH]; [reflexivity|].
  change (String x ((a +:+ b) +:+ c) = String x (a +:+ (b +:+ c))).
  f_equal. exact IH.
Qed.

Lemma append_empty (a : string) : a +:+ "" = a.
Proof.
  induction a as [|x a IH]; [reflexivity|].
  change (String x (a +:+ "") = String x a). f_equal. exact IH.
Qed.

Lemma scan_text_fold blocks : forall s,
  scan_text (fold_left scan_block blocks s)
  = scan_text s +:+ lines_text (omap line_of blocks).
Proof.
  induction blocks as [|b bs IH]; intros s.
  - cbn. now rewrite append_empty.
  - cbn [fold_left omap list_omap]. rewrite IH. cbn [scan_block scan_text].
    destruct (line_of b) as [t|]; [|reflexivity].
    cbn [lines_text]. now rewrite !append_assoc.
Qed.

(** What [push_layout] adds to each of the four sequences. *)
Lemma push_layout_entries l b :
  titles (push_layout l b)
    = titles l ++ option_list (layout_entry "LAYOUT_TITLE" b)
  /\ headers (push_layout l b)
    = headers l ++ option_list (layout_entry "LAYOUT_HEADER" b)
  /\ sections (push_layout l b)
    = sections l ++ option_list (layout_entry "LAYOUT_SECTION_HEADER" b)
  /\ lists (push_layout l b)
    = lists l ++ option_list (layout_entry "LAYOUT_LIST" b).
Proof.
  unfold push_layout, layout_entry, has_type.
  destruct (BlockType b) as [ty|].
  2:{ rewrite !bool_decide_eq_false_2 by discriminate. cbn.
      now rewrite !app_nil_r. }
  destruct (String.eqb_spec ty "LAYOUT_TITLE") as [->|H1].
  { cbn. now rewrite !app_nil_r. }
  destruct (String.eqb_spec ty "LAYOUT_HEADER") as [->|H2].
  { cbn. now rewrite !app_nil_r. }
  destruct (String.eqb_spec ty "LAYOUT_SECTION_HEADER") as [->|H3].
  { cbn. now rewrite !app_nil_r. }
  destruct (String.eqb_spec ty "LAYOUT_LIST") as [->|H4].
  { cbn. now rewrite !app_nil_r. }
  rewrite !bool_decide_eq_false_2 by congruence.
  destruct (startsWith ty "LAYOUT_"); cbn; now rewrite !app_nil_r.
Qed.

Lemma scan_layout_fold blocks : forall s,
  titles (scan_layout (fold_left scan_block blocks s))
    = titles (scan_layout s) ++ omap (layout_entry "LAYOUT_TITLE") blocks
  /\ headers (scan_layout (fold_left scan_block blocks s))
    = headers (scan_layout s) ++ omap (layout_entry "LAYOUT_HEADER") blocks
  /\ sections (scan_layout (fold_left scan_block blocks s))
    = sections (scan_layout s)
      ++ omap (layout_entry "LAYOUT_SECTION_HEADER") blocks
  /\ lists (scan_layout (fold_left scan_block blocks s))
    = lists (scan_layout s) ++ omap (layout_entry "LAYOUT_LIST") blocks.
Proof.
  induction blocks as [|b bs IH]; intros s.
  - cbn. now rewrite !app_nil_r.
  - cbn [fold_left]. destruct (IH (scan_block s b)) as (H1 & H2 & H3 & H4).
    rewrite H1, H2, H3, H4. cbn [scan_block scan_layout].
    destruct (push_layout_entries (scan_layout s) b) as (E1 & E2 & E3 & E4).
    rewrite E1, E2, E3, E4. cbn [omap list_omap].
    repeat split; rewrite <- app_assoc; f_equal;
      match goal with
      | |- context [layout_entry ?ty b] => destruct (layout_entry ty b)
      end; reflexivity.
Qed.

(** *** Distinct keys are written in any order *)

Lemma set_pair_other obj p k :
  k <> fst p -> set_pair obj p !! k = obj !! k.
Proof.
  intros Hne. unfold set_pair, object_set.
  destruct (String.eqb (fst p) "__proto__"); [reflexivity|].
  now apply lookup_insert_ne.
Qed.

Lemma fold_set_pair_other pairs k : forall obj,
  k ∉ pairs.*1 -> fold_left set_pair pairs obj !! k = obj !! k.
Proof.
  induction pairs as [|p ps IH]; intros obj Hk; [reflexivity|].
  cbn [fold_left]. rewrite IH.
  - apply set_pair_other. intros ->. apply Hk. left.
  - intros Hin. apply Hk. now right.
Qed.

Lemma fold_set_pair_proto pairs : forall obj,
  fold_left set_pair pairs obj !! "__proto__" = obj !! "__proto__".
Proof.
  induction pairs as [|p ps IH]; intros obj; [reflexivity|].
  cbn [fold_left]. rewrite IH. unfold set_pair, object_set.
  destruct (String.eqb_spec (fst p) "__proto__") as [E|E]; [reflexivity|].
  now apply lookup_insert_ne.
Qed.

Lemma fold_set_pair_elem pairs k v : forall obj,
  NoDup pairs.*1 -> (k, v) ∈ pairs -> k <> "__proto__" ->
  fold_left set_pair pairs obj !! k = Some v.
Proof.
  induction pairs as [|p ps IH]; intros obj Hnd Hin Hk; [inversion Hin|].
  rewrite fmap_cons in Hnd. apply NoDup_cons in Hnd as [Hp Hnd].
  cbn [fold_left]. apply elem_of_cons in Hin as [<-|Hin].
  - rewrite fold_set_pair_other by assumption.
    unfold set_pair, object_set. cbn [fst snd].
    destruct (String.eqb_spec k "__proto__") as [E|E]; [congruence|].
    apply lookup_insert_eq.
  - now apply IH.
Qed.

(** The value of a key is that of the last pair written under it. *)
Lemma fold_set_pair_last pairs k : forall obj,
  k <> "__proto__" ->
  fold_left set_pair pairs obj !! k
  = match last (filter (fun p => fst p = k) pairs) with
    | Some p => Some (snd p)
    | None => obj !! k
    end.
Proof.
  induction pairs as [|p ps IH]; intros obj Hk; [reflexivity|].
  cbn [fold_left]. rewrite IH by assumption.
  destruct (decide (fst p = k)) as [E|E].
  - rewrite filter_cons_True by assumption. rewrite last_cons.
    destruct (last (filter (fun p => fst p = k) ps)); [reflexivity|].
    unfold set_pair, object_set. rewrite E.
    destruct (String.eqb_spec k "__proto__") as [E'|_]; [congruence|].
    apply lookup_insert_eq.
  - rewrite filter_cons_False by assumption.
    destruct (last (filter (fun p => fst p = k) ps)); [reflexivity|].
    apply set_pair_other. congruence.
Qed.

Lemma fold_set_pair_perm pairs1 pairs2 obj :
  NoDup pairs1.*1 -> pairs1 ≡ₚ pairs2 ->
  fold_left set_pair pairs1 obj = fold_left set_pair pairs2 obj.
Proof.
  intros Hnd1 Hperm.
  assert (Hnd2 : NoDup pairs2.*1) by now rewrite <- Hperm.
  apply map_eq. intros k.
  destruct (decide (k = "__proto__")) as [->|Hk].
  { now rewrite !fold_set_pair_proto. }
  destruct (decide (k ∈ pairs1.*1)) as [Hin|Hout].
  - apply list_elem_of_fmap in Hin as ([k' v] & -> & Hin). cbn [fst] in *.
    rewrite (fold_set_pair_elem pairs1 k' v) by assumption.
    rewrite (fold_set_pair_elem pairs2 k' v); [reflexivity|assumption| |assumption].
    now rewrite <- Hperm.
  - rewrite !fold_set_pair_other; [reflexivity| |assumption].
    now rewrite <- Hperm.
Qed.

(** *** The decoded document of a reordered collection *)

Lemma omap_ext_all {A B} (f g : A -> option B) (l : list A) :
  (forall x, f x = g x) -> omap f l = omap g l.
Proof.
  intros H. induction l as [|x l IH]; [reflexivity|].
  cbn [omap list_omap]. now rewrite H, IH.
Qed.

Section Reordered.

Variables blocks blocks' : list Block.
Hypothesis distinct : NoDup (Id <$> blocks).
Hypothesis reordered : blocks ≡ₚ blocks'.

Let maps := fold_left index_block blocks no_maps.
Let maps' := fold_left index_block blocks' no_maps.

Lemma distinct' : NoDup (Id <$> blocks').
Proof. now rewrite <- reordered. Qed.

Lemma maps_distinct :
  blockMap maps = entry <$> blocks
  /\ keyMap maps = entry <$> filter in_keyMap blocks
  /\ valueMap maps = entry <$> filter in_valueMap blocks
  /\ tableMap maps = entry <$> filter in_tableMap blocks
  /\ cellMap maps = entry <$> filter in_cellMap blocks.
Proof. exact (maps_of_distinct blocks distinct). Qed.

Lemma maps_distinct' :
  blockMap maps' = entry <$> blocks'
  /\ keyMap maps' = entry <$> filter in_keyMap blocks'
  /\ valueMap maps' = entry <$> filter in_valueMap blocks'
  /\ tableMap maps' = entry <$> filter in_tableMap blocks'
  /\ cellMap maps' = entry <$> filter in_cellMap blocks'.
Proof. exact (maps_of_distinct blocks' distinct'). Qed.

Lemma same_blockMap k : JsMap.get (blockMap maps') k = JsMap.get (blockMap maps) k.
Proof.
  destruct maps_distinct as (-> & _). destruct maps_distinct' as (-> & _).
  symmetry. now apply get_entries_perm.
Qed.

Lemma same_valueMap k : JsMap.get (valueMap maps') k = JsMap.get (valueMap maps) k.
Proof.
  destruct maps_distinct as (_ & _ & -> & _).
  destruct maps_distinct' as (_ & _ & -> & _).
  symmetry. apply get_entries_perm; [now apply NoDup_ids_filter|].
  now rewrite reordered.
Qed.

Lemma same_cellMap k : JsMap.get (cellMap maps') k = JsMap.get (cellMap maps) k.
Proof.
  destruct maps_distinct as (_ & _ & _ & _ & ->).
  destruct maps_distinct' as (_ & _ & _ & _ & ->).
  symmetry. apply get_entries_perm; [now apply NoDup_ids_filter|].
  now rewrite reordered.
Qed.

Lemma same_key_value_pair keyBlock :
  key_value_pair maps' keyBlock = key_value_pair maps keyBlock.
Proof.
  unfold key_value_pair.
  rewrite (findValueBlock_ext _ _ keyBlock same_valueMap).
  destruct (findValueBlock keyBlock (valueMap maps)) as [vb|]; [|reflexivity].
  now rewrite !(getText_ext _ _ same_blockMap).
Qed.

Lemma same_table_of tableBlock : table_of maps' tableBlock = table_of maps tableBlock.
Proof.
  unfold table_of.
  now rewrite (extractTable_ext _ _ same_blockMap _ _ same_cellMap).
Qed.

Lemma emitted_pairs_eq :
  emitted_pairs blocks = omap (key_value_pair maps) (filter in_keyMap blocks).
Proof.
  unfold emitted_pairs. cbv zeta. fold maps.
  destruct maps_distinct as (_ & -> & _). now rewrite values_entries.
Qed.

Lemma keyValues_eq :
  keyValues (extractText blocks) = fold_left set_pair (emitted_pairs blocks) ∅.
Proof.
  unfold extractText, emitted_pairs. cbn [keyValues]. apply fold_add_key_value.
Qed.

Lemma emitted_pairs_reordered : emitted_pairs blocks' ≡ₚ emitted_pairs blocks.
Proof.
  rewrite emitted_pairs_eq.
  unfold emitted_pairs. cbv zeta. fold maps'.
  destruct maps_distinct' as (_ & -> & _). rewrite values_entries.
  rewrite (omap_ext_all _ _ _ same_key_value_pair).
  now rewrite reordered.
Qed.

Lemma tables_eq :
  tables (extractText blocks) = omap (table_of maps) (filter in_tableMap blocks).
Proof.
  unfold extractText. cbn [tables]. fold maps. rewrite fold_add_table.
  cbn [app]. destruct maps_distinct as (_ & _ & _ & -> & _).
  now rewrite values_entries.
Qed.

End Reordered.

Lemma layout_eq blocks :
  titles (layout (extractText blocks)) = omap (layout_entry "LAYOUT_TITLE") blocks
  /\ headers (layout (extractText blocks))
     = omap (layout_entry "LAYOUT_HEADER") blocks
  /\ sections (layout (extractText blocks))
     = omap (layout_entry "LAYOUT_SECTION_HEADER") blocks
  /\ lists (layout (extractText blocks)) = omap (layout_entry "LAYOUT_LIST") blocks.
Proof. unfold extractText. cbn [layout]. apply scan_layout_fold. Qed.

Lemma fullText_eq blocks :
  fullText (extractText blocks) = lines_text (omap line_of blocks).
Proof. unfold extractText. cbn [fullText]. now rewrite scan_text_fold. Qed.

(** Claim C7, as the code has it.  For a collection of blocks with distinct
    identifiers and any reordering of it: the four layout sequences and the
    list of tables of the reordered collection hold the same entries as
    those of the original, but in the order of the reordered input, as the
    lines of the full text do; the key-value mapping is the same provided
    that no two key markers emit the same key text (in general a key is
    mapped to the value of the last key marker, in input order, that emits
    it).  [extractText] being a function of the blocks, decoding the same
    collection again gives the same document. *)
Theorem extractText_reordered (blocks blocks' : list Block) :
  NoDup (Id <$> blocks) ->
  blocks ≡ₚ blocks' ->
  (titles (layout (extractText blocks')) ≡ₚ titles (layout (extractText blocks))
   /\ headers (layout (extractText blocks')) ≡ₚ headers (layout (extractText blocks))
   /\ sections (layout (extractText blocks'))
      ≡ₚ sections (layout (extractText blocks))
   /\ lists (layout (extractText blocks')) ≡ₚ lists (layout (extractText blocks)))
  /\ tables (extractText blocks') ≡ₚ tables (extractText blocks)
  /\ (NoDup (emitted_pairs blocks).*1 ->
      keyValues (extractText blocks') = keyValues (extractText blocks))
  /\ fullText (extractText blocks') = lines_text (omap line_of blocks')
  /\ titles (layout (extractText blocks'))
     = omap (layout_entry "LAYOUT_TITLE") blocks'
  /\ headers (layout (extractText blocks'))
     = omap (layout_entry "LAYOUT_HEADER") blocks'
  /\ sections (layout (extractText blocks'))
     = omap (layout_entry "LAYOUT_SECTION_HEADER") blocks'
  /\ lists (layout (extractText blocks'))
     = omap (layout_entry "LAYOUT_LIST") blocks'
  /\ tables (extractText blocks')
     = omap (table_of (fold_left index_block blocks' no_maps))
         (filter in_tableMap blocks')
  /\ (forall k, k <> "__proto__" ->
      keyValues (extractText blocks') !! k
      = snd <$> last (filter (fun p => fst p = k) (emitted_pairs blocks'))).
Proof.
  intros Hnd Hperm.
  assert (Hnd' : NoDup (Id <$> blocks')) by now rewrite <- Hperm.
  destruct (layout_eq blocks) as (T & H & S & L).
  destruct (layout_eq blocks') as (T' & H' & S' & L').
  split; [|split; [|split; [|repeat split]]];
    try assumption; try apply fullText_eq; try now apply tables_eq.
  4:{ intros k Hk. rewrite keyValues_eq, fold_set_pair_last by assumption.
      destruct (last _); reflexivity. }
  - rewrite T, H, S, L, T', H', S', L'. now rewrite Hperm.
  - rewrite (tables_eq blocks Hnd), (tables_eq blocks' Hnd').
    rewrite (omap_ext_all _ _ _ (same_table_of blocks blocks' Hnd Hperm)).
    apply omap_Permutation, filter_Permutation. now symmetry.
  - intros Hkeys. rewrite !keyValues_eq. symmetry.
    apply fold_set_pair_perm; [assumption|]. symmetry.
    now apply emitted_pairs_reordered.
Qed.

Lemma extractText_reordered_witness :
  keyValues (extractText (rev sample_form)) = keyValues (extractText sample_form).
Proof.
  refine (proj1 (proj2 (proj2
    (extractText_reordered sample_form (rev sample_form) _ _))) _).
  - apply (bool_decide_unpack _). vm_compute. exact I.
  - apply Permutation_rev.
  - apply (bool_decide_unpack _). vm_compute. exact I.
Defined.

(** Against claim C7: exchanging two title blocks exchanges the two titles,
    so the layout sequences are not the same; and exchanging two key
    markers with the same key text changes the value the key is mapped
    to. *)
Lemma reordering_changes_layout_and_keyValues :
  two_titles ≡ₚ rev two_titles
  /\ NoDup (Id <$> two_titles)
  /\ titles (layout (extractText two_titles)) = ["A"; "B"]
  /\ titles (layout (extractText (rev two_titles))) = ["B"; "A"]
  /\ same_key_twice false ≡ₚ same_key_twice true
  /\ NoDup (Id <$> same_key_twice false)
  /\ keyValues (extractText (same_key_twice false)) !! "Name" = Some "Bob"
  /\ keyValues (extractText (same_key_twice true)) !! "Name" = Some "Alice".
Proof.
  split; [apply Permutation_rev|].
  split; [apply (bool_decide_unpack _); vm_compute; exact I|].
  split; [vm_compute; reflexivity|].
  split; [vm_compute; reflexivity|].
  split; [unfold same_key_twice; apply Permutation_app_head, perm_swap|].
  split; [apply (bool_decide_unpack _); vm_compute; exact I|].
  split; vm_compute; reflexivity.
Qed.


(** * Further properties *)

(** ** [levenshteinDistance] as a distance *)

Lemma lev_rec_same a : lev_rec a a = O.
Proof.
  induction a as [|x a IH]; [reflexivity|].
  now rewrite lev_rec_cons, Ascii.eqb_refl.
Qed.

Lemma edits_none a b n : edits a b n -> n = O -> a = b.
Proof.
  induction 1 as [|x a b n _ IH| | |]; intros E; try discriminate.
  - reflexivity.
  - f_equal. now apply IH.
Qed.

Lemma edits_sym a b n : edits a b n -> edits b a n.
Proof. induction 1; now constructor. Qed.

Lemma lev_rec_sym a b : lev_rec a b = lev_rec b a.
Proof.
  apply Nat.le_antisymm; apply lev_rec_le_edits, edits_sym, edits_lev_rec.
Qed.

(** Two scripts in a row make a script that is not longer than both. *)
Lemma edits_trans b c m :
  edits b c m ->
  forall a n, edits a b n -> exists k, (k <= n + m)%nat /\ edits a c k.
Proof.
  induction 1 as [|x b c m H2 IH|x y b c m H2 IH|x b c m H2 IH|y b c m H2 IH].
  - intros a n H1. exists n. split; [lia|exact H1].
  - (* the second script keeps [x] *)
    intros a n H1. remember (x :: b) as xb eqn:E.
    induction H1 as [|z a b' n H1 _|z w a b' n H1 _|z a b' n H1 IH1|w a b' n H1 _].
    + discriminate.
    + injection E as -> ->. destruct (IH _ _ H1) as (k & Hk & Hac).
      exists k. split; [lia|now constructor].
    + injection E as -> ->. destruct (IH _ _ H1) as (k & Hk & Hac).
      exists (S k). split; [lia|now constructor].
    + destruct (IH1 E) as (k & Hk & Hac).
      exists (S k). split; [lia|now constructor].
    + injection E as -> ->. destruct (IH _ _ H1) as (k & Hk & Hac).
      exists (S k). split; [lia|now apply edits_insert].
  - (* the second script substitutes [y] for [x] *)
    intros a n H1. remember (x :: b) as xb eqn:E.
    induction H1 as [|z a b' n H1 _|z w a b' n H1 _|z a b' n H1 IH1|w a b' n H1 _].
    + discriminate.
    + injection E as -> ->. destruct (IH _ _ H1) as (k & Hk & Hac).
      exists (S k). split; [lia|now constructor].
    + injection E as -> ->. destruct (IH _ _ H1) as (k & Hk & Hac).
      exists (S k). split; [lia|now constructor].
    + destruct (IH1 E) as (k & Hk & Hac).
      exists (S k). split; [lia|now constructor].
    + injection E as -> ->. destruct (IH _ _ H1) as (k & Hk & Hac).
      exists (S k). split; [lia|now apply edits_insert].
  - (* the second script deletes [x] *)
    intros a n H1. remember (x :: b) as xb eqn:E.
    induction H1 as [|z a b' n H1 _|z w a b' n H1 _|z a b' n H1 IH1|w a b' n H1 _].
    + discriminate.
    + injection E as -> ->. destruct (IH _ _ H1) as (k & Hk & Hac).
      exists (S k). split; [lia|now apply edits_delete].
    + injection E as -> ->. destruct (IH _ _ H1) as (k & Hk & Hac).
      exists (S k). split; [lia|now apply edits_delete].
    + destruct (IH1 E) as (k & Hk & Hac).
      exists (S k). split; [lia|now constructor].
    + injection E as -> ->. destruct (IH _ _ H1) as (k & Hk & Hac).
      exists k. split; [lia|exact Hac].
  - (* the second script inserts [y] *)
    intros a n H1. destruct (IH _ _ H1) as (k & Hk & Hac).
    exists (S k). split; [lia|now apply edits_insert].
Qed.

Lemma list_ascii_of_string_inj s1 s2 :
  list_ascii_of_string s1 = list_ascii_of_string s2 -> s1 = s2.
Proof.
  intros E. rewrite <- (string_of_list_ascii_of_string s1),
    <- (string_of_list_ascii_of_string s2). now rewrite E.
Qed.

Lemma levenshteinDistance_lev_rec s1 s2 :
  levenshteinDistance s1 s2
  = lev_rec (list_ascii_of_string s1) (list_ascii_of_string s2).
Proof. now rewrite levenshteinDistance_rev, lev_rec_rev. Qed.

(** [levenshteinDistance] is a distance on strings: it is 0 exactly between
    a string and itself, it is symmetric, and it satisfies the triangle
    inequality. *)
Theorem levenshteinDistance_metric (s1 s2 s3 : string) :
  (levenshteinDistance s1 s2 = O <-> s1 = s2)
  /\ levenshteinDistance s1 s2 = levenshteinDistance s2 s1
  /\ (levenshteinDistance s1 s3
      <= levenshteinDistance s1 s2 + levenshteinDistance s2 s3)%nat.
Proof.
  rewrite !levenshteinDistance_lev_rec. split; [split|split].
  - intros E. apply list_ascii_of_string_inj.
    apply (edits_none _ _ _ (edits_lev_rec _ _) E).
  - intros ->. apply lev_rec_same.
  - apply lev_rec_sym.
  - destruct (edits_trans _ _ _
                (edits_lev_rec (list_ascii_of_string s2) (list_ascii_of_string s3))
                _ _
                (edits_lev_rec (list_ascii_of_string s1) (list_ascii_of_string s2)))
      as (k & Hk & Hac).
    apply lev_rec_le_edits in Hac. lia.
Qed.

(** [calculateSimilarity] does not depend on the order of its arguments. *)
Theorem calculateSimilarity_symmetric (s1 s2 : string) :
  calculateSimilarity s1 s2 = calculateSimilarity s2 s1.
Proof.
  unfold calculateSimilarity. cbv zeta.
  rewrite (String.eqb_sym (cleanCompanyName s1) (cleanCompanyName s2)).
  rewrite (Nat.max_comm (String.length s1) (String.length s2)).
  rewrite (orb_comm (includes s1 s2) (includes s2 s1)).
  rewrite !levenshteinDistance_lev_rec.
  rewrite (lev_rec_sym (list_ascii_of_string (cleanCompanyName s1))).
  reflexivity.
Qed.

(** ** What [cleanCompanyName] leaves *)

Lemma single_spaced_collapse x : forall in_run,
  single_spaced in_run (collapse_spaces in_run x) = true.
Proof.
  induction x as [|c x IH]; intros in_run; [reflexivity|].
  cbn [collapse_spaces]. destruct (is_space c) eqn:Hc.
  - destruct in_run; [apply IH|].
    cbn [single_spaced]. change (is_space " ") with true. cbn. apply IH.
  - cbn [single_spaced]. rewrite Hc. apply IH.
Qed.

Lemma collapse_single_spaced y : forall in_run,
  single_spaced in_run y = true -> collapse_spaces in_run y = y.
Proof.
  induction y as [|c y IH]; intros in_run H; [reflexivity|].
  cbn [single_spaced collapse_spaces] in *. destruct (is_space c) eqn:Hc.
  - apply andb_true_iff in H as [H H3]. apply andb_true_iff in H as [H1 H2].
    apply Ascii.eqb_eq in H1. destruct in_run; [discriminate|].
    rewrite (IH true H3). now subst c.
  - now rewrite (IH false H).
Qed.

Lemma single_spaced_trimStart y : forall in_run in_run',
  single_spaced in_run y = true -> single_spaced in_run' (trimStart y) = true.
Proof.
  induction y as [|c y IH]; intros b b' H; [reflexivity|].
  cbn [trimStart]. cbn [single_spaced] in H. destruct (is_space c) eqn:Hc.
  - apply andb_true_iff in H as [_ H]. now apply (IH true).
  - cbn [single_spaced]. now rewrite Hc.
Qed.

Lemma single_spaced_trimEnd y : forall in_run,
  single_spaced in_run y = true -> single_spaced in_run (trimEnd y) = true.
Proof.
  induction y as [|c y IH]; intros b H; [reflexivity|].
  cbn [trimEnd]. cbn [single_spaced] in H.
  destruct (is_space c) eqn:Hc.
  - apply andb_true_iff in H as [H H3]. specialize (IH true H3).
    destruct (trimEnd y) as [|d t]; [reflexivity|].
    cbn [single_spaced]. rewrite Hc, H. exact IH.
  - specialize (IH false H).
    destruct (trimEnd y) as [|d t]; cbn [single_spaced]; rewrite Hc;
      [reflexivity|exact IH].
Qed.

Lemma trimEnd_idempotent y : trimEnd (trimEnd y) = trimEnd y.
Proof.
  induction y as [|c y IH]; [reflexivity|].
  cbn [trimEnd]. destruct (trimEnd y) as [|d t] eqn:E.
  - destruct (is_space c) eqn:Hc; [reflexivity|]. cbn [trimEnd]. now rewrite Hc.
  - cbn [trimEnd]. cbn [trimEnd] in IH. rewrite IH. reflexivity.
Qed.

Lemma starts_clean_trimStart y : starts_clean (trimStart y) = true.
Proof.
  induction y as [|c y IH]; [reflexivity|].
  cbn [trimStart]. destruct (is_space c) eqn:Hc; [exact IH|].
  cbn. now rewrite Hc.
Qed.

Lemma starts_clean_trimEnd y : starts_clean y = true -> starts_clean (trimEnd y) = true.
Proof.
  destruct y as [|c y]; [reflexivity|]. cbn [starts_clean trimEnd]. intros Hc.
  destruct (trimEnd y); [|exact Hc].
  destruct (is_space c) eqn:E; [reflexivity|]. cbn. now rewrite E.
Qed.

Lemma trimStart_clean y : starts_clean y = true -> trimStart y = y.
Proof.
  destruct y as [|c y]; [reflexivity|]. cbn.
  now destruct (is_space c).
Qed.

Lemma trim_trim y : trim (trim y) = trim y.
Proof.
  unfold trim.
  rewrite (trimStart_clean (trimEnd (trimStart y)))
    by apply starts_clean_trimEnd, starts_clean_trimStart.
  apply trimEnd_idempotent.
Qed.

Lemma no_punctuation_removed x : all_chars not_punctuation (remove_punctuation x) = true.
Proof.
  induction x as [|c x IH]; [reflexivity|].
  cbn [remove_punctuation]. destruct (is_punctuation c) eqn:Hc; [exact IH|].
  cbn [all_chars]. unfold not_punctuation at 1. now rewrite Hc.
Qed.

Lemma no_punctuation_collapse x : forall in_run,
  all_chars not_punctuation x = true ->
  all_chars not_punctuation (collapse_spaces in_run x) = true.
Proof.
  induction x as [|c x IH]; intros b H; [reflexivity|].
  cbn [all_chars collapse_spaces] in *. apply andb_true_iff in H as [Hc H].
  destruct (is_space c); [destruct b|]; cbn [all_chars]; rewrite ?Hc;
    now apply IH.
Qed.

Lemma no_punctuation_trimStart x :
  all_chars not_punctuation x = true ->
  all_chars not_punctuation (trimStart x) = true.
Proof.
  induction x as [|c x IH]; intros H; [reflexivity|].
  cbn [trimStart]. destruct (is_space c); [|exact H].
  cbn [all_chars] in H. apply andb_true_iff in H as [_ H]. now apply IH.
Qed.

Lemma no_punctuation_trimEnd x :
  all_chars not_punctuation x = true ->
  all_chars not_punctuation (trimEnd x) = true.
Proof.
  induction x as [|c x IH]; intros H; [reflexivity|].
  cbn [all_chars] in H. apply andb_true_iff in H as [Hc H]. specialize (IH H).
  cbn [trimEnd]. destruct (trimEnd x) as [|d t].
  - destruct (is_space c); [reflexivity|]. cbn [all_chars]. now rewrite Hc.
  - cbn [all_chars] in *. now rewrite Hc.
Qed.

Lemma remove_no_punctuation x :
  all_chars not_punctuation x = true -> remove_punctuation x = x.
Proof.
  induction x as [|c x IH]; intros H; [reflexivity|].
  cbn [all_chars] in H. apply andb_true_iff in H as [Hc H].
  cbn [remove_punctuation]. unfold not_punctuation in Hc.
  destruct (is_punctuation c); [discriminate|]. now rewrite IH.
Qed.

(** A cleaned name is in normal form for the last three passes of
    [cleanCompanyName]: it holds no character of the punctuation class,
    every white space in it is one single space, it neither begins nor ends
    with white space; and it is not longer than the name. *)
Theorem cleanCompanyName_normal_form (name : string) :
  remove_punctuation (cleanCompanyName name) = cleanCompanyName name
  /\ collapse_spaces false (cleanCompanyName name) = cleanCompanyName name
  /\ trim (cleanCompanyName name) = cleanCompanyName name
  /\ (String.length (cleanCompanyName name) <= String.length name)%nat.
Proof.
  unfold cleanCompanyName.
  set (y := collapse_spaces false (remove_punctuation (remove_suffixes None O name))).
  split; [|split; [|split]].
  - apply remove_no_punctuation. unfold trim.
    apply no_punctuation_trimEnd, no_punctuation_trimStart.
    apply no_punctuation_collapse, no_punctuation_removed.
  - apply collapse_single_spaced. unfold trim.
    apply single_spaced_trimEnd, (single_spaced_trimStart y false false).
    apply single_spaced_collapse.
  - apply trim_trim.
  - apply cleanCompanyName_length.
Qed.

(** ** The fuzzy pass: a stable descending sort *)

Lemma calculateSimilarity_bounds s1 s2 :
  (0 <= calculateSimilarity s1 s2 /\ calculateSimilarity s1 s2 <= 100)%Q.
Proof.
  destruct (String.eqb (cleanCompanyName s1) (cleanCompanyName s2)) eqn:E.
  - unfold calculateSimilarity. cbv zeta. rewrite E. split; discriminate.
  - now apply calculateSimilarity_range.
Qed.

Lemma round_half_up_mono q1 q2 :
  (q1 <= q2)%Q -> round_half_up q1 <= round_half_up q2.
Proof.
  intros H. unfold round_half_up. apply Qfloor_resp_le. now apply Qplus_le_l.
Qed.

Lemma insert_desc_perm x l : insert_desc x l ≡ₚ x :: l.
Proof.
  induction l as [|y l IH]; cbn; [reflexivity|].
  destruct (Qle_bool (snd y) (snd x)); [reflexivity|].
  rewrite IH. apply perm_swap.
Qed.

Lemma sort_desc_perm l : sort_desc l ≡ₚ l.
Proof.
  induction l as [|x l IH]; cbn; [reflexivity|].
  now rewrite insert_desc_perm, IH.
Qed.

Lemma insert_desc_descending x l : descending l -> descending (insert_desc x l).
Proof.
  unfold descending. induction 1 as [|y l Hl IH Hy]; cbn.
  - repeat constructor.
  - destruct (Qle_bool (snd y) (snd x)) eqn:E.
    + apply Qle_bool_iff in E. constructor; [now constructor|].
      constructor; [exact E|].
      rewrite List.Forall_forall in *. intros z Hz.
      apply Qle_trans with (snd y); auto.
    + assert (Hlt : (snd x < snd y)%Q).
      { apply Qnot_le_lt. intros H. apply Qle_bool_iff in H. congruence. }
      constructor; [exact IH|].
      rewrite List.Forall_forall in *. intros z Hz.
      apply list_elem_of_In in Hz. rewrite insert_desc_perm in Hz.
      apply elem_of_cons in Hz as [->|Hz]; [now apply Qlt_le_weak|].
      apply Hy. now apply list_elem_of_In.
Qed.

Lemma sort_desc_descending l : descending (sort_desc l).
Proof.
  induction l as [|x l IH]; cbn; [constructor|].
  now apply insert_desc_descending.
Qed.

(** Stability: the entries of any one score keep the order they came in. *)
Lemma insert_desc_stable (q : Q) x l :
  List.filter (fun p => Qeq_bool (snd p) q) (insert_desc x l)
  = List.filter (fun p => Qeq_bool (snd p) q) (x :: l).
Proof.
  induction l as [|y l IH]; [reflexivity|].
  cbn [insert_desc]. destruct (Qle_bool (snd y) (snd x)) eqn:E; [reflexivity|].
  assert (Hlt : (snd x < snd y)%Q).
  { apply Qnot_le_lt. intros H. apply Qle_bool_iff in H. congruence. }
  cbn [List.filter] in *. rewrite IH.
  destruct (Qeq_bool (snd y) q) eqn:Ey, (Qeq_bool (snd x) q) eqn:Ex;
    try reflexivity.
  apply Qeq_bool_iff in Ey, Ex. rewrite Ey, Ex in Hlt.
  now apply Qlt_irrefl in Hlt.
Qed.

Lemma sort_desc_stable (q : Q) l :
  List.filter (fun p => Qeq_bool (snd p) q) (sort_desc l)
  = List.filter (fun p => Qeq_bool (snd p) q) l.
Proof.
  induction l as [|x l IH]; [reflexivity|].
  cbn [sort_desc foldr]. fold (sort_desc l). rewrite insert_desc_stable.
  cbn [List.filter]. now rewrite IH.
Qed.

(** [simpleFuzzyMatch] sorts: without a limit that cuts, its result holds
    exactly the choices, each with its similarity, in descending order of
    similarity, and choices of equal similarity stay in the order of the
    list of choices. *)
Theorem simpleFuzzyMatch_sorts (query : string) (choices : list string) (limit : nat) :
  (length choices <= limit)%nat ->
  simpleFuzzyMatch query choices limit
    ≡ₚ map (fun choice => (choice, choice_similarity query choice)) choices
  /\ descending (simpleFuzzyMatch query choices limit)
  /\ forall q : Q,
       List.filter (fun p => Qeq_bool (snd p) q)
         (simpleFuzzyMatch query choices limit)
       = List.filter (fun p => Qeq_bool (snd p) q)
           (map (fun choice => (choice, choice_similarity query choice)) choices).
Proof.
  intros Hlimit. unfold simpleFuzzyMatch. cbv zeta.
  fold (choice_similarity query).
  change (fun choice : string =>
            (choice, calculateSimilarity (toLowerCase query) (toLowerCase choice)))
    with (fun choice : string => (choice, choice_similarity query choice)).
  rewrite take_ge.
  2:{ rewrite (Permutation_length (sort_desc_perm _)), length_map. exact Hlimit. }
  split; [apply sort_desc_perm|]. split; [apply sort_desc_descending|].
  intros q. apply sort_desc_stable.
Qed.

Lemma simpleFuzzyMatch_sorts_witness :
  simpleFuzzyMatch near_tie_value [near_tie_first; near_tie_second] 20
    ≡ₚ map (fun choice => (choice, choice_similarity near_tie_value choice))
         [near_tie_first; near_tie_second]
  /\ descending (simpleFuzzyMatch near_tie_value [near_tie_first; near_tie_second] 20)
  /\ forall q : Q,
       List.filter (fun p => Qeq_bool (snd p) q)
         (simpleFuzzyMatch near_tie_value [near_tie_first; near_tie_second] 20)
       = List.filter (fun p => Qeq_bool (snd p) q)
           (map (fun choice => (choice, choice_similarity near_tie_value choice))
              [near_tie_first; near_tie_second]).
Proof.
  apply (simpleFuzzyMatch_sorts near_tie_value [near_tie_first; near_tie_second] 20).
  simpl. lia.
Defined.

(** The two names of [near_tie] do not tie in doubles: the second scores
    91.66666666666667 and goes in front of the first, which scores
    91.66666666666666. *)
Example near_tie_order :
  simpleFuzzyMatch near_tie_value [near_tie_first; near_tie_second] 20
  = [ (near_tie_second, 6450468216285867 # 70368744177664);
      (near_tie_first, 3225234108142933 # 35184372088832) ].
Proof. vm_compute. reflexivity. Qed.

(** So the item of the second name is the winner of [validateField]. *)
Example near_tie_winner :
  validateField (constant_provider near_tie) failing_chat
    (Some near_tie_value) "invoicing_party" "client" None
  = {| field := "invoicing_party"; extracted_value := near_tie_value;
       matched_code := Some "B"; matched_name := Some near_tie_second;
       confidence := 92; status := fuzzy_high;
       alternatives :=
         [ {| alt_code := "A"; alt_name := near_tie_first; score := 92 |} ] |}.
Proof. vm_compute. reflexivity. Qed.

(** ** The fuzzy pass: the winner *)

Lemma descending_head x l y :
  descending (x :: l) -> y ∈ x :: l -> (snd y <= snd x)%Q.
Proof.
  intros H Hy. apply StronglySorted_inv in H as [_ H].
  apply elem_of_cons in Hy as [->|Hy]; [apply Qle_refl|].
  rewrite List.Forall_forall in H. apply H. now apply list_elem_of_In.
Qed.

(** The first entry of the sorted list is the first of the entries of
    greatest score. *)
Lemma sort_desc_head l : forall x rest,
  sort_desc l = x :: rest ->
  exists before after,
    l = before ++ x :: after
    /\ (forall y, y ∈ before -> (snd y < snd x)%Q)
    /\ (forall y, y ∈ after -> (snd y <= snd x)%Q).
Proof.
  induction l as [|z l IH]; intros x rest E; [discriminate|].
  cbn [sort_desc foldr] in E. fold (sort_desc l) in E.
  destruct (sort_desc l) as [|h t] eqn:Es.
  - assert (l = []) as ->.
    { apply Permutation_nil. rewrite <- Es. apply sort_desc_perm. }
    cbn in E. injection E as <- <-. exists [], [].
    repeat split; intros y Hy; inversion Hy.
  - destruct (IH h t eq_refl) as (before & after & -> & Hb & Ha).
    cbn [insert_desc] in E. destruct (Qle_bool (snd h) (snd z)) eqn:Ez.
    + injection E as <- <-. apply Qle_bool_iff in Ez.
      exists [], (before ++ h :: after). split; [reflexivity|].
      split; [intros y Hy; inversion Hy|].
      intros y [Hy|Hy]%elem_of_app.
      * apply Qle_trans with (snd h); [apply Qlt_le_weak; auto|exact Ez].
      * apply elem_of_cons in Hy as [->|Hy]; [exact Ez|].
        apply Qle_trans with (snd h); auto.
    + injection E as <- <-.
      assert (Hlt : (snd z < snd h)%Q).
      { apply Qnot_le_lt. intros H. apply Qle_bool_iff in H. congruence. }
      exists (z :: before), after. split; [reflexivity|]. split; [|exact Ha].
      intros y [->|Hy]%elem_of_cons; auto.
Qed.

(** The winner of the fuzzy pass: the first choice, in the order of the
    list, whose similarity is the greatest; every choice before it scores
    strictly less, and no choice after it scores more. *)
Theorem simpleFuzzyMatch_winner (query : string) (choices : list string) (limit : nat)
    (winner : string) (s : Q) (rest : list (string * Q)) :
  simpleFuzzyMatch query choices limit = (winner, s) :: rest ->
  exists before after,
    choices = before ++ winner :: after
    /\ s = choice_similarity query winner
    /\ (forall c, c ∈ before -> (choice_similarity query c < s)%Q)
    /\ (forall c, c ∈ after -> (choice_similarity query c <= s)%Q).
Proof.
  unfold simpleFuzzyMatch. cbv zeta.
  change (fun choice : string =>
            (choice, calculateSimilarity (toLowerCase query) (toLowerCase choice)))
    with (fun choice : string => (choice, choice_similarity query choice)).
  intros E.
  destruct (sort_desc (map (fun choice => (choice, choice_similarity query choice))
                         choices)) as [|x t] eqn:Es.
  { now rewrite take_nil in E. }
  destruct limit as [|limit]; [discriminate|]. cbn [take] in E.
  injection E as -> _.
  destruct (sort_desc_head _ _ _ Es) as (before & after & Hl & Hb & Ha).
  change (map (fun choice => (choice, choice_similarity query choice)) choices)
    with ((fun choice => (choice, choice_similarity query choice)) <$> choices) in Hl.
  apply fmap_app_inv in Hl as (cb & ca' & -> & Hca & ->).
  symmetry in Hca. apply fmap_cons_inv in Hca as (c & ca & Hc & -> & ->).
  injection Hc as -> ->.
  exists cb, ca. split; [reflexivity|]. split; [reflexivity|]. split.
  - intros c' Hc'.
    apply (Hb (c', choice_similarity query c')).
    apply (list_elem_of_fmap_2 (fun choice => (choice, choice_similarity query choice))).
    exact Hc'.
  - intros c' Hc'.
    apply (Ha (c', choice_similarity query c')).
    apply (list_elem_of_fmap_2 (fun choice => (choice, choice_similarity query choice))).
    exact Hc'.
Qed.

Lemma simpleFuzzyMatch_winner_witness :
  exists before after,
    [near_tie_first; near_tie_second] = before ++ near_tie_second :: after
    /\ (6450468216285867 # 70368744177664)%Q
       = choice_similarity near_tie_value near_tie_second
    /\ (forall c, c ∈ before ->
          (choice_similarity near_tie_value c
           < 6450468216285867 # 70368744177664)%Q)
    /\ (forall c, c ∈ after ->
          (choice_similarity near_tie_value c
           <= 6450468216285867 # 70368744177664)%Q).
Proof.
  apply (simpleFuzzyMatch_winner near_tie_value [near_tie_first; near_tie_second] 20
           near_tie_second (6450468216285867 # 70368744177664)%Q
           [(near_tie_first, (3225234108142933 # 35184372088832)%Q)]).
  vm_compute. reflexivity.
Defined.

(** ** The alternatives of the fuzzy pass *)

Lemma scored_choice query choices limit m :
  m ∈ simpleFuzzyMatch query choices limit ->
  fst m ∈ choices /\ snd m = choice_similarity query (fst m).
Proof.
  intros H. split; [now apply simpleFuzzyMatch_names in H|].
  unfold simpleFuzzyMatch in H. cbv zeta in H.
  apply elem_of_take in H as (i & H & _).
  apply list_elem_of_lookup_2, sort_desc_elem in H.
  apply list_elem_of_In, in_map_iff in H as (choice & <- & _). reflexivity.
Qed.

Lemma fuzzy_alternatives_elem v md a :
  a ∈ fuzzy_alternatives v md ->
  exists item,
    item ∈ md /\ alt_code a = code item /\ alt_name a = name item
    /\ score a = item_score v item.
Proof.
  unfold fuzzy_alternatives. cbv zeta. intros H.
  apply list_elem_of_In, in_map_iff in H as (m & <- & Hm).
  apply list_elem_of_In in Hm.
  destruct (scored_choice _ _ _ _ Hm) as [_ Hs].
  destruct (to_alternative_found _ _ _ _ Hm) as (item & Hfind & Hname).
  exists item. unfold to_alternative. rewrite Hfind. cbn.
  apply find_some in Hfind as [Hin _]. apply list_elem_of_In in Hin.
  repeat split; [exact Hin|]. unfold item_score. now rewrite Hs, Hname.
Qed.

Lemma item_score_bounds v item : 0 <= item_score v item <= 100.
Proof.
  unfold item_score, choice_similarity.
  destruct (calculateSimilarity_bounds (toLowerCase v) (toLowerCase (name item))).
  now apply round_half_up_bounds.
Qed.

Lemma fuzzy_alternatives_length v md :
  length (fuzzy_alternatives v md) = Nat.min 20 (length md).
Proof.
  unfold fuzzy_alternatives, simpleFuzzyMatch. cbv zeta.
  rewrite length_map, length_take.
  now rewrite (Permutation_length (sort_desc_perm _)), !length_map.
Qed.

Lemma StronglySorted_take {A} (R : A -> A -> Prop) (l : list A) : forall n,
  StronglySorted R l -> StronglySorted R (take n l).
Proof.
  induction l as [|x l IH]; intros n H; [now rewrite take_nil|].
  destruct n as [|n]; [constructor|]. cbn [take].
  apply StronglySorted_inv in H as [Hl Hx]. constructor; [now apply IH|].
  rewrite List.Forall_forall in *. intros y Hy. apply Hx.
  apply list_elem_of_In in Hy. apply list_elem_of_In.
  apply elem_of_take in Hy as (i & Hy & _). now apply list_elem_of_lookup_2 in Hy.
Qed.

Lemma StronglySorted_map {A B} (R : A -> A -> Prop) (R' : B -> B -> Prop)
    (f : A -> B) (l : list A) :
  (forall x y, R x y -> R' (f x) (f y)) ->
  StronglySorted R l -> StronglySorted R' (map f l).
Proof.
  intros Hf. induction 1 as [|x l _ IH Hx]; cbn; constructor; [exact IH|].
  rewrite List.Forall_forall in *. intros y Hy.
  apply in_map_iff in Hy as (z & <- & Hz). auto.
Qed.

Lemma to_alternative_score md m : score (to_alternative md m) = round_half_up (snd m).
Proof. unfold to_alternative. now destruct (List.find _ md). Qed.

Lemma fuzzy_alternatives_sorted v md :
  StronglySorted (fun a b => score b <= score a) (fuzzy_alternatives v md).
Proof.
  unfold fuzzy_alternatives, simpleFuzzyMatch. cbv zeta.
  apply (StronglySorted_map (fun x y => (snd y <= snd x)%Q)).
  - intros x y H. rewrite !to_alternative_score. now apply round_half_up_mono.
  - apply StronglySorted_take, sort_desc_descending.
Qed.

Lemma fuzzy_alternatives_best v md best others :
  fuzzy_alternatives v md = best :: others ->
  forall item, item ∈ md -> item_score v item <= score best.
Proof.
  unfold fuzzy_alternatives, simpleFuzzyMatch. cbv zeta.
  change (fun choice : string =>
            (choice, calculateSimilarity (toLowerCase v) (toLowerCase choice)))
    with (fun choice : string => (choice, choice_similarity v choice)).
  intros E item Hitem.
  set (scored := map (fun choice => (choice, choice_similarity v choice))
                   (map name md)) in *.
  pose proof (sort_desc_descending scored) as Hdesc.
  pose proof (sort_desc_perm scored) as Hperm.
  destruct (sort_desc scored) as [|x t] eqn:Es; [discriminate|].
  cbn [take map] in E. injection E as <- _.
  rewrite to_alternative_score. unfold item_score. apply round_half_up_mono.
  apply (descending_head x t (name item, choice_similarity v (name item)) Hdesc).
  rewrite Hperm. subst scored.
  apply list_elem_of_In, in_map_iff. exists (name item). split; [reflexivity|].
  apply in_map. now apply list_elem_of_In.
Qed.

(** The alternatives of the fuzzy pass: the twenty best-scoring items (all
    of them when there are fewer); each is the code and name of an item of
    the master data with that item's score, an integer from 0 to 100; they
    stand in descending order of score, and the first one scores at least
    as much as every item of the master data. *)
Theorem fuzzy_alternatives_invariants
    (extractedValue : string) (masterData : list MasterDataItem) :
  length (fuzzy_alternatives extractedValue masterData)
    = Nat.min 20 (length masterData)
  /\ (forall a, a ∈ fuzzy_alternatives extractedValue masterData ->
        exists item,
          item ∈ masterData /\ alt_code a = code item /\ alt_name a = name item
          /\ score a = item_score extractedValue item /\ 0 <= score a <= 100)
  /\ StronglySorted (fun a b => score b <= score a)
       (fuzzy_alternatives extractedValue masterData)
  /\ (forall best others,
        fuzzy_alternatives extractedValue masterData = best :: others ->
        forall item, item ∈ masterData ->
                     item_score extractedValue item <= score best).
Proof.
  split; [apply fuzzy_alternatives_length|].
  split; [|split; [apply fuzzy_alternatives_sorted|apply fuzzy_alternatives_best]].
  intros a Ha. destruct (fuzzy_alternatives_elem _ _ _ Ha) as (item & H1 & H2 & H3 & H4).
  exists item. repeat split; try assumption; rewrite H4; apply item_score_bounds.
Qed.

(** ** The result of [validateField], path by path *)

Section Paths.

Variable fetchMasterData : string -> DataType -> list MasterDataItem.
Variable chat_completion :
  string -> list Alternative -> string -> option DocumentContext -> option GptReply.

Local Abbreviation validate := (validateField fetchMasterData chat_completion).
Local Abbreviation path := (validate_path fetchMasterData chat_completion).

Lemma validateField_path extractedValue fieldName clientId ctx :
  path extractedValue fieldName clientId ctx
    (validate extractedValue fieldName clientId ctx).
Proof.
  unfold validateField.
  destruct extractedValue as [[|ch v']|]; try (now apply path_no_value).
  set (v := String ch v').
  destruct (fetchMasterData clientId (resolve_data_type fieldName)) as [|i md] eqn:Emd.
  { cbn [length Nat.eqb]. now apply (path_no_master_data _ _ _ _ _ _ v). }
  cbn [length Nat.eqb]. cbv zeta.
  destruct (List.find (is_exact_match v) (i :: md)) as [em|] eqn:Ex.
  { apply (path_exact _ _ _ _ _ _ v em); try reflexivity. now rewrite Emd. }
  destruct (fuzzy_alternatives v (i :: md)) as [|best others] eqn:Ealts.
  { pose proof (fuzzy_alternatives_length v (i :: md)) as Hlen.
    rewrite Ealts in Hlen. cbn in Hlen. lia. }
  unfold tier_decision.
  destruct (score best >? 85) eqn:E85.
  { apply (path_accept _ _ _ _ _ _ v best others); rewrite ?Emd; try reflexivity;
      try assumption. lia. }
  destruct (score best >? 60) eqn:E60.
  - unfold escalate.
    destruct (selectBestMatchWithGPT chat_completion v (take 10 (best :: others))
                fieldName ctx) as [sel|] eqn:Esel.
    + apply (path_oracle _ _ _ _ _ _ v best others sel); rewrite ?Emd;
        try reflexivity; try assumption. lia.
    + apply (path_no_good_match _ _ _ _ _ _ v best others); rewrite ?Emd;
        try reflexivity; try assumption. right. split; [lia|assumption].
  - apply (path_no_good_match _ _ _ _ _ _ v best others); rewrite ?Emd;
      try reflexivity; try assumption. left. lia.
Qed.

End Paths.

(** ** What every result of [validateField] satisfies *)

Section Results.

Variable fetchMasterData : string -> DataType -> list MasterDataItem.
Variable chat_completion :
  string -> list Alternative -> string -> option DocumentContext -> option GptReply.

Local Abbreviation validate := (validateField fetchMasterData chat_completion).

(** The selection of the chat completion is one of the candidates. *)
Lemma selection_is_candidate v candidates fieldName ctx sel :
  selectBestMatchWithGPT chat_completion v candidates fieldName ctx = Some sel ->
  exists a, a ∈ candidates /\ sel_code sel = alt_code a /\ sel_name sel = alt_name a.
Proof.
  unfold selectBestMatchWithGPT.
  destruct (chat_completion v candidates fieldName ctx) as [reply|]; [|discriminate].
  destruct (selected_index reply) as [idx|]; [|discriminate].
  destruct ((0 <? idx) && (idx <=? Z.of_nat (length candidates))); [|discriminate].
  destruct (candidates !! Z.to_nat (idx - 1)) as [a|] eqn:Ea; [|discriminate].
  intros [= <-]. exists a. split; [|split; reflexivity].
  now apply list_elem_of_lookup_2 in Ea.
Qed.

(** Every result names the field it was asked about and repeats the
    extracted value, the empty string standing for a value that is null,
    absent or empty. *)
Theorem result_echoes_input
    (extractedValue : option string) (fieldName clientId : string)
    (ctx : option DocumentContext) :
  field (validate extractedValue fieldName clientId ctx) = fieldName
  /\ extracted_value (validate extractedValue fieldName clientId ctx)
     = default "" extractedValue.
Proof.
  destruct (validateField_path fetchMasterData chat_completion
              extractedValue fieldName clientId ctx)
    as [Hv|v -> _ _|v em -> _ _|v b o -> _ _ _ _|v b o sel -> _ _ _ _ _
        |v b o -> _ _ _ _]; cbn; try (split; reflexivity).
  destruct extractedValue as [[|c s]|]; try discriminate; split; reflexivity.
Qed.

(** A matched code is never invented: whenever a result carries a matched
    code, it is the code of an item of the fetched master data, and a
    matched name it carries is the name of that same item; this holds for
    the selection of the chat completion too. *)
Theorem matched_code_from_master_data
    (extractedValue : option string) (fieldName clientId : string)
    (ctx : option DocumentContext) (c : string) :
  matched_code (validate extractedValue fieldName clientId ctx) = Some c ->
  exists item,
    item ∈ fetchMasterData clientId (resolve_data_type fieldName)
    /\ code item = c
    /\ forall n,
         matched_name (validate extractedValue fieldName clientId ctx) = Some n ->
         n = name item.
Proof.
  destruct (validateField_path fetchMasterData chat_completion
              extractedValue fieldName clientId ctx)
    as [Hv|v -> _ _|v em -> _ Hfind|v b o -> _ _ Halts _
        |v b o sel -> _ _ Halts _ Hsel|v b o -> _ _ Halts _]; cbn;
    try discriminate.
  - intros [= <-]. apply find_some in Hfind as [Hin _].
    exists em. split; [now apply list_elem_of_In|]. split; [reflexivity|].
    now intros n [= <-].
  - intros [= <-].
    destruct (fuzzy_alternatives_elem v
                (fetchMasterData clientId (resolve_data_type fieldName)) b)
      as (item & Hin & Hc & Hn & _).
    { rewrite Halts. left. }
    exists item. split; [exact Hin|]. split; [now rewrite Hc|].
    intros n [= <-]. exact Hn.
  - intros [= <-].
    destruct (selection_is_candidate _ _ _ _ _ Hsel) as (a & Ha & Hc & Hn).
    apply elem_of_take in Ha as (i & Ha & _). apply list_elem_of_lookup_2 in Ha.
    destruct (fuzzy_alternatives_elem v
                (fetchMasterData clientId (resolve_data_type fieldName)) a)
      as (item & Hin & Hc' & Hn' & _).
    { now rewrite Halts. }
    exists item. split; [exact Hin|]. split; [now rewrite Hc, Hc'|].
    intros n [= <-]. now rewrite Hn, Hn'.
  - unfold or_null. destruct (truthy (alt_code b)); [|discriminate].
    intros [= <-].
    destruct (fuzzy_alternatives_elem v
                (fetchMasterData clientId (resolve_data_type fieldName)) b)
      as (item & Hin & Hc & Hn & _).
    { rewrite Halts. left. }
    exists item. split; [exact Hin|]. split; [now rewrite Hc|].
    destruct (truthy (alt_name b)); [|discriminate].
    intros n [= <-]. exact Hn.
Qed.

Lemma length_take_le {A} (n : nat) (l : list A) : (length (take n l) <= n)%nat.
Proof. rewrite length_take. lia. Qed.

(** A result carries at most five alternatives, each the code and name of
    an item of the fetched master data with a score from 0 to 100; and in a
    [fuzzy_low] result, whose winner the chat completion selected, no
    alternative carries the matched code. *)
Theorem alternatives_of_result
    (extractedValue : option string) (fieldName clientId : string)
    (ctx : option DocumentContext) :
  (length (alternatives (validate extractedValue fieldName clientId ctx)) <= 5)%nat
  /\ (forall a,
        a ∈ alternatives (validate extractedValue fieldName clientId ctx) ->
        (exists item,
           item ∈ fetchMasterData clientId (resolve_data_type fieldName)
           /\ alt_code a = code item /\ alt_name a = name item)
        /\ 0 <= score a <= 100)
  /\ (status (validate extractedValue fieldName clientId ctx) = fuzzy_low ->
      forall a,
        a ∈ alternatives (validate extractedValue fieldName clientId ctx) ->
        matched_code (validate extractedValue fieldName clientId ctx)
        <> Some (alt_code a)).
Proof.
  assert (Hfrom : forall v a,
             a ∈ fuzzy_alternatives v
                   (fetchMasterData clientId (resolve_data_type fieldName)) ->
             (exists item,
                item ∈ fetchMasterData clientId (resolve_data_type fieldName)
                /\ alt_code a = code item /\ alt_name a = name item)
             /\ 0 <= score a <= 100).
  { intros v a Ha.
    destruct (fuzzy_alternatives_elem _ _ _ Ha) as (item & H1 & H2 & H3 & H4).
    split; [now exists item|]. rewrite H4. apply item_score_bounds. }
  destruct (validateField_path fetchMasterData chat_completion
              extractedValue fieldName clientId ctx)
    as [Hv|v -> _ _|v em -> _ _|v b o -> _ _ Halts _
        |v b o sel -> _ _ Halts _ Hsel|v b o -> _ _ Halts _];
    cbn [alternatives status matched_code no_match_result no_good_match].
  1-3: (split; [cbn; lia|]; split; [intros a Ha; inversion Ha|discriminate]).
  - split; [apply length_take_le|]. split.
    + intros a Ha. apply (Hfrom v). rewrite Halts. right.
      apply elem_of_take in Ha as (i & Ha & _). now apply list_elem_of_lookup_2 in Ha.
    + destruct (score b >? 90); discriminate.
  - split; [apply length_take_le|]. split.
    + intros a Ha. apply (Hfrom v). rewrite Halts.
      apply elem_of_take in Ha as (i & Ha & _). apply list_elem_of_lookup_2 in Ha.
      apply list_elem_of_In, filter_In in Ha as [Ha _]. now apply list_elem_of_In.
    + intros _ a Ha [= E].
      apply elem_of_take in Ha as (i & Ha & _). apply list_elem_of_lookup_2 in Ha.
      apply list_elem_of_In, filter_In in Ha as [_ Ha].
      rewrite E, String.eqb_refl in Ha. discriminate.
  - split; [apply length_take_le|]. split; [|discriminate].
    intros a Ha. apply (Hfrom v). rewrite Halts.
    apply elem_of_take in Ha as (i & Ha & _). now apply list_elem_of_lookup_2 in Ha.
Qed.

(** The status tells the band of the confidence: [exact] is 100,
    [fuzzy_high] is above 90 and at most 100, [fuzzy_medium] is above 75,
    [fuzzy_low] is at most 75, and [no_match] is between 0 and 85. *)
Theorem confidence_by_status
    (extractedValue : option string) (fieldName clientId : string)
    (ctx : option DocumentContext) :
  match status (validate extractedValue fieldName clientId ctx) with
  | exact => confidence (validate extractedValue fieldName clientId ctx) = 100
  | fuzzy_high =>
      90 < confidence (validate extractedValue fieldName clientId ctx) <= 100
  | fuzzy_medium => 75 < confidence (validate extractedValue fieldName clientId ctx)
  | fuzzy_low => confidence (validate extractedValue fieldName clientId ctx) <= 75
  | no_match =>
      0 <= confidence (validate extractedValue fieldName clientId ctx) <= 85
  end.
Proof.
  assert (Hb : forall v b o,
             fuzzy_alternatives v
               (fetchMasterData clientId (resolve_data_type fieldName)) = b :: o ->
             0 <= score b <= 100).
  { intros v b o E.
    destruct (fuzzy_alternatives_elem v
                (fetchMasterData clientId (resolve_data_type fieldName)) b)
      as (item & _ & _ & _ & ->).
    - rewrite E. left.
    - apply item_score_bounds. }
  destruct (validateField_path fetchMasterData chat_completion
              extractedValue fieldName clientId ctx)
    as [Hv|v -> _ _|v em -> _ _|v b o -> _ _ Halts Hs
        |v b o sel -> _ _ Halts Hs Hsel|v b o -> _ _ Halts Hs]; cbn; try lia.
  - specialize (Hb _ _ _ Halts). destruct (score b >? 90) eqn:E; lia.
  - destruct (sel_confidence sel >? 75) eqn:E; lia.
  - specialize (Hb _ _ _ Halts). lia.
Qed.

End Results.

(** ** The matched code, status by status *)

Section MatchedCode.

Variable fetchMasterData : string -> DataType -> list MasterDataItem.
Variable chat_completion :
  string -> list Alternative -> string -> option DocumentContext -> option GptReply.

Local Abbreviation validate := (validateField fetchMasterData chat_completion).

(** Claim C8.  A result carries a matched code if and only if its status is
    [exact], [fuzzy_high], [fuzzy_medium] or [fuzzy_low], or it is a
    [no_match] result with the best-effort code of the first candidate of
    the similarity list.  A [fuzzy_low] result is one where the oracle,
    asked about the first ten candidates of the similarity list, selected
    one of them, and the matched code is the code of that candidate.  A
    [no_match] result with a matched code has the non-empty code of the
    first candidate of the similarity list, and then either the oracle was
    not asked (the top score is 60 or less) or it was asked and selected
    nothing: the code is never one from the oracle. *)
Theorem matched_code_by_status
    (extractedValue : option string) (fieldName clientId : string)
    (ctx : option DocumentContext) :
  let result := validate extractedValue fieldName clientId ctx in
  let masterData := fetchMasterData clientId (resolve_data_type fieldName) in
  (is_Some (matched_code result) <->
     status result = exact \/ status result = fuzzy_high
     \/ status result = fuzzy_medium \/ status result = fuzzy_low
     \/ (status result = no_match
         /\ exists v top rest,
              extractedValue = Some v
              /\ fuzzy_alternatives v masterData = top :: rest
              /\ matched_code result = Some (alt_code top)))
  /\ (status result = fuzzy_low ->
      exists v sel candidate,
        extractedValue = Some v
        /\ selectBestMatchWithGPT chat_completion v
             (take 10 (fuzzy_alternatives v masterData)) fieldName ctx = Some sel
        /\ candidate ∈ take 10 (fuzzy_alternatives v masterData)
        /\ sel_code sel = alt_code candidate
        /\ matched_code result = Some (sel_code sel))
  /\ (forall c,
        status result = no_match -> matched_code result = Some c ->
        exists v top rest,
          extractedValue = Some v
          /\ fuzzy_alternatives v masterData = top :: rest
          /\ c = alt_code top /\ truthy c = true
          /\ (score top <= 60
              \/ (60 < score top <= 85
                  /\ selectBestMatchWithGPT chat_completion v
                       (take 10 (top :: rest)) fieldName ctx = None))).
Proof.
  cbv zeta.
  destruct (validateField_path fetchMasterData chat_completion
              extractedValue fieldName clientId ctx)
    as [Hv|v Ev Hv Hmd|v em Ev Hv Hex|v b o Ev Hv Hex Halts Hscore
        |v b o sel Ev Hv Hex Halts Hscore Hsel
        |v b o Ev Hv Hex Halts Hscore].
  - (* no value *)
    cbn. split; [split|split].
    + intros [c Hc]. discriminate.
    + intros [H|[H|[H|[H|(_ & v0 & t0 & r0 & _ & _ & H)]]]]; discriminate.
    + discriminate.
    + intros c _ Hc. discriminate.
  - (* no master data *)
    cbn. split; [split|split].
    + intros [c Hc]. discriminate.
    + intros [H|[H|[H|[H|(_ & v0 & t0 & r0 & _ & _ & H)]]]]; discriminate.
    + discriminate.
    + intros c _ Hc. discriminate.
  - (* exact match *)
    cbn. split; [split|split].
    + intros _. now left.
    + intros _. now eexists.
    + discriminate.
    + discriminate.
  - (* accepted directly *)
    cbn. split; [split|split].
    + intros _. destruct (score b >? 90); [right; now left|right; right; now left].
    + intros _. now eexists.
    + destruct (score b >? 90); discriminate.
    + intros c H. destruct (score b >? 90); discriminate.
  - (* selected by the oracle *)
    cbn. split; [split|split].
    + intros _. destruct (sel_confidence sel >? 75);
        [right; right; now left|right; right; right; now left].
    + intros _. now eexists.
    + intros _. rewrite <- Halts in Hsel.
      destruct (selection_is_candidate _ _ _ _ _ _ Hsel) as (a & Ha & Hcode & _).
      exists v, sel, a. auto.
    + intros c H. destruct (sel_confidence sel >? 75); discriminate.
  - (* the last return *)
    split; [split|split].
    + intros [c Hc]. right; right; right; right. split; [reflexivity|].
      destruct (no_good_match_code _ _ _ _ Hc) as (top & rest & Heq & Hcode & _).
      injection Heq as <- <-. subst c.
      exists v, b, o. auto.
    + intros [H|[H|[H|[H|(_ & v0 & t0 & r0 & _ & _ & H)]]]]; try discriminate.
      rewrite H. now eexists.
    + discriminate.
    + intros c _ Hc.
      destruct (no_good_match_code _ _ _ _ Hc) as (top & rest & Heq & Hcode & Ht).
      injection Heq as <- <-. exists v, b, o. auto.
Qed.

End MatchedCode.

(** The theorem at a top score of 85 for which the chat completion selects
    the first candidate with confidence 70: the result is [fuzzy_low], and
    its matched code is the code of that candidate of the similarity
    list. *)
Lemma matched_code_by_status_witness :
  exists v sel candidate,
    Some "abcdefghijklmnopqrst" = Some v
    /\ selectBestMatchWithGPT
         (constant_chat {| selected_index := Some 1; reply_confidence := Some 70 |})
         v (take 10 (fuzzy_alternatives v long_vendor)) "invoicing_party" None
       = Some sel
    /\ candidate ∈ take 10 (fuzzy_alternatives v long_vendor)
    /\ sel_code sel = alt_code candidate
    /\ matched_code
         (validateField (constant_provider long_vendor)
            (constant_chat {| selected_index := Some 1; reply_confidence := Some 70 |})
            (Some "abcdefghijklmnopqrst") "invoicing_party" "client" None)
       = Some (sel_code sel).
Proof.
  pose proof (matched_code_by_status (constant_provider long_vendor)
                (constant_chat {| selected_index := Some 1; reply_confidence := Some 70 |})
                (Some "abcdefghijklmnopqrst") "invoicing_party" "client" None)
    as H.
  cbv zeta in H. destruct H as (_ & Hlow & _).
  apply Hlow. vm_compute. reflexivity.
Defined.

Lemma matched_code_from_master_data_witness :
  exists item,
    item ∈ constant_provider sample_vendors "client" (resolve_data_type "invoicing_party")
    /\ code item = "V1"
    /\ forall n,
         matched_name (validateField (constant_provider sample_vendors) failing_chat
                         (Some "abcdefghij") "invoicing_party" "client" None)
         = Some n ->
         n = name item.
Proof.
  apply (matched_code_from_master_data (constant_provider sample_vendors)
           failing_chat (Some "abcdefghij") "invoicing_party" "client" None "V1").
  vm_compute. reflexivity.
Defined.

(** ** From the master data to the result *)

Section Decisions.

Variable fetchMasterData : string -> DataType -> list MasterDataItem.

Section OneCompletion.

Variable chat_completion :
  string -> list Alternative -> string -> option DocumentContext -> option GptReply.

Local Abbreviation validate := (validateField fetchMasterData chat_completion).
Local Abbreviation masterData fieldName clientId :=
  (fetchMasterData clientId (resolve_data_type fieldName)).

Lemma find_exact_none v (md : list MasterDataItem) :
  (forall i, i ∈ md -> is_exact_match v i = false) ->
  List.find (is_exact_match v) md = None.
Proof.
  intros H. destruct (List.find (is_exact_match v) md) as [em|] eqn:E; [|reflexivity].
  apply find_some in E as [Hin Hm]. apply list_elem_of_In in Hin.
  rewrite (H _ Hin) in Hm. discriminate.
Qed.

(** The result for a value that matches no item exactly while some item
    scores above 85: the second [return] of the fuzzy part. *)
Lemma validateField_accepts v fieldName clientId ctx item :
  truthy v = true ->
  (forall i, i ∈ masterData fieldName clientId -> is_exact_match v i = false) ->
  item ∈ masterData fieldName clientId ->
  85 < item_score v item ->
  exists best others,
    fuzzy_alternatives v (masterData fieldName clientId) = best :: others
    /\ validate (Some v) fieldName clientId ctx
       = {| field := fieldName; extracted_value := v;
            matched_code := Some (alt_code best);
            matched_name := Some (alt_name best);
            confidence := score best;
            status := if score best >? 90 then fuzzy_high else fuzzy_medium;
            alternatives := take 5 others |}.
Proof.
  intros Hv Hno Hitem Hs.
  pose proof (find_exact_none _ _ Hno) as Hfind.
  destruct (validateField_path fetchMasterData chat_completion
              (Some v) fieldName clientId ctx)
    as [Hf|w [= <-] _ Hmd|w em [= <-] _ Hf|w b o [= <-] _ _ Halts Hb
        |w b o sel [= <-] _ _ Halts Hb _|w b o [= <-] _ _ Halts Hb].
  - cbn in Hf. congruence.
  - rewrite Hmd in Hitem. inversion Hitem.
  - congruence.
  - now exists b, o.
  - pose proof (fuzzy_alternatives_best _ _ _ _ Halts item Hitem). lia.
  - pose proof (fuzzy_alternatives_best _ _ _ _ Halts item Hitem). lia.
Qed.

(** When the value matches no item exactly and some item scores above 85,
    the result is decided by the scores alone: it names an item whose
    score no other item exceeds, with that score as its confidence, and
    its status is [fuzzy_high] above 90 and [fuzzy_medium] otherwise. *)
Theorem high_score_accepted
    (v fieldName clientId : string) (ctx : option DocumentContext)
    (item : MasterDataItem) :
  truthy v = true ->
  (forall i, i ∈ masterData fieldName clientId -> is_exact_match v i = false) ->
  item ∈ masterData fieldName clientId ->
  85 < item_score v item ->
  exists winner,
    winner ∈ masterData fieldName clientId
    /\ matched_code (validate (Some v) fieldName clientId ctx) = Some (code winner)
    /\ matched_name (validate (Some v) fieldName clientId ctx) = Some (name winner)
    /\ confidence (validate (Some v) fieldName clientId ctx) = item_score v winner
    /\ (forall i, i ∈ masterData fieldName clientId ->
          item_score v i <= confidence (validate (Some v) fieldName clientId ctx))
    /\ status (validate (Some v) fieldName clientId ctx)
       = if confidence (validate (Some v) fieldName clientId ctx) >? 90
         then fuzzy_high else fuzzy_medium.
Proof.
  intros Hv Hno Hitem Hs.
  destruct (validateField_accepts v fieldName clientId ctx item Hv Hno Hitem Hs)
    as (b & o & Halts & ->).
  destruct (fuzzy_alternatives_elem v (masterData fieldName clientId) b)
    as (winner & Hin & Hc & Hn & Hsc).
  { rewrite Halts. left. }
  exists winner. cbn. rewrite Hc, Hn, Hsc.
  repeat split; try reflexivity; try exact Hin.
  intros i Hi. rewrite <- Hsc. exact (fuzzy_alternatives_best _ _ _ _ Halts i Hi).
Qed.

(** A value whose cleaned lower-case form equals that of an item's name
    (the two differ only in company suffixes, punctuation and spacing)
    is accepted without the chat completion: unless some item matches
    exactly, the status is [fuzzy_high] and the confidence at least 95. *)
Theorem suffix_variant_is_fuzzy_high
    (v fieldName clientId : string) (ctx : option DocumentContext)
    (item : MasterDataItem) :
  truthy v = true ->
  (forall i, i ∈ masterData fieldName clientId -> is_exact_match v i = false) ->
  item ∈ masterData fieldName clientId ->
  cleanCompanyName (toLowerCase v) = cleanCompanyName (toLowerCase (name item)) ->
  status (validate (Some v) fieldName clientId ctx) = fuzzy_high
  /\ 95 <= confidence (validate (Some v) fieldName clientId ctx)
  /\ matched_code (validate (Some v) fieldName clientId ctx) <> None.
Proof.
  intros Hv Hno Hitem Hclean.
  assert (Hs : item_score v item = 95).
  { unfold item_score, choice_similarity, calculateSimilarity. cbv zeta.
    rewrite Hclean, String.eqb_refl. reflexivity. }
  destruct (validateField_accepts v fieldName clientId ctx item Hv Hno Hitem)
    as (b & o & Halts & ->); [lia|].
  pose proof (fuzzy_alternatives_best _ _ _ _ Halts item Hitem) as Hbest.
  rewrite Hs in Hbest. cbn.
  split; [|split; [exact Hbest|discriminate]].
  destruct (score b >? 90) eqn:E; [reflexivity|lia].
Qed.

(** An exact match comes first: when an item's code or name equals the
    value up to letter case, the result is the first such item of the
    master data, with status [exact], confidence 100 and no alternatives,
    whatever the scores. *)
Theorem exact_match_first
    (v fieldName clientId : string) (ctx : option DocumentContext)
    (before after : list MasterDataItem) (item : MasterDataItem) :
  truthy v = true ->
  masterData fieldName clientId = before ++ item :: after ->
  (forall i, i ∈ before ->
     toLowerCase (code i) <> toLowerCase v /\ toLowerCase (name i) <> toLowerCase v) ->
  toLowerCase (code item) = toLowerCase v \/ toLowerCase (name item) = toLowerCase v ->
  validate (Some v) fieldName clientId ctx
  = {| field := fieldName; extracted_value := v;
       matched_code := Some (code item); matched_name := Some (name item);
       confidence := 100; status := exact; alternatives := [] |}.
Proof.
  intros Hv Hmd Hbefore Hitem.
  assert (Hfind : List.find (is_exact_match v) (masterData fieldName clientId)
                  = Some item).
  { rewrite Hmd. clear Hmd. induction before as [|x before IH]; cbn [app List.find].
    - replace (is_exact_match v item) with true; [reflexivity|].
      unfold is_exact_match. symmetry. apply orb_true_iff.
      destruct Hitem as [H|H]; [left|right]; now apply String.eqb_eq.
    - replace (is_exact_match v x) with false.
      + apply IH. intros i Hi. apply Hbefore. now right.
      + destruct (Hbefore x) as [H1 H2]; [left|].
        unfold is_exact_match. symmetry. apply orb_false_iff.
        split; now apply String.eqb_neq. }
  unfold validateField. destruct v as [|c v]; [discriminate|].
  cbv zeta. rewrite Hfind.
  destruct (masterData fieldName clientId) as [|x l] eqn:E; [discriminate|].
  reflexivity.
Qed.

End OneCompletion.

Local Abbreviation masterData fieldName clientId :=
  (fetchMasterData clientId (resolve_data_type fieldName)).

Lemma toLowerCase_truthy v v' :
  toLowerCase v = toLowerCase v' -> truthy v = truthy v'.
Proof. destruct v, v'; cbn; intros H; congruence. Qed.

Lemma fuzzy_alternatives_case v v' md :
  toLowerCase v = toLowerCase v' ->
  fuzzy_alternatives v md = fuzzy_alternatives v' md.
Proof.
  intros H. unfold fuzzy_alternatives, simpleFuzzyMatch. cbv zeta. now rewrite H.
Qed.

(** Validation ignores the letter case of the extracted value: two values
    with the same lower-case form, for which the chat completion answers
    alike, get the same matched code and name, confidence, status and
    alternatives. *)
Theorem validation_ignores_case
    (chat_completion :
       string -> list Alternative -> string -> option DocumentContext -> option GptReply)
    (v v' fieldName clientId : string) (ctx : option DocumentContext) :
  toLowerCase v = toLowerCase v' ->
  (forall candidates, chat_completion v candidates fieldName ctx
                      = chat_completion v' candidates fieldName ctx) ->
  let r := validateField fetchMasterData chat_completion (Some v) fieldName clientId ctx in
  let r' := validateField fetchMasterData chat_completion (Some v') fieldName clientId ctx in
  matched_code r = matched_code r' /\ matched_name r = matched_name r'
  /\ confidence r = confidence r' /\ status r = status r'
  /\ alternatives r = alternatives r'.
Proof.
  intros Hlow Hchat. cbv zeta.
  pose proof (toLowerCase_truthy _ _ Hlow) as Ht.
  unfold validateField.
  destruct v as [|c v], v' as [|c' v']; try discriminate Ht; [now repeat split|].
  cbv zeta. destruct (masterData fieldName clientId) as [|x l] eqn:Emd;
    [now repeat split|]. cbn [length Nat.eqb].
  replace (is_exact_match (String c' v')) with (is_exact_match (String c v)).
  2:{ unfold is_exact_match. now rewrite Hlow. }
  destruct (List.find (is_exact_match (String c v)) (x :: l)); [now repeat split|].
  rewrite <- (fuzzy_alternatives_case _ _ (x :: l) Hlow).
  unfold tier_decision.
  destruct (fuzzy_alternatives (String c v) (x :: l)) as [|b o];
    [now repeat split|].
  destruct (score b >? 85); [now repeat split|].
  destruct (score b >? 60); [|now repeat split].
  unfold escalate, selectBestMatchWithGPT. rewrite <- Hchat.
  destruct (chat_completion (String c v) (take 10 (b :: o)) fieldName ctx)
    as [reply|]; [|now repeat split].
  destruct (selected_index reply) as [idx|]; [|now repeat split].
  destruct ((0 <? idx) && (idx <=? Z.of_nat (length (take 10 (b :: o)))));
    [|now repeat split].
  destruct (take 10 (b :: o) !! Z.to_nat (idx - 1)); now repeat split.
Qed.

(** The result without any chat completion, when the scores leave the
    band from 61 to 85. *)
Lemma validateField_without_chat
    (chat_completion :
       string -> list Alternative -> string -> option DocumentContext -> option GptReply)
    ev fieldName clientId (ctx : option DocumentContext) :
  (forall v, ev = Some v ->
     (exists item, item ∈ masterData fieldName clientId
        /\ (is_exact_match v item = true \/ 85 < item_score v item))
     \/ (forall item, item ∈ masterData fieldName clientId -> item_score v item <= 60)) ->
  validateField fetchMasterData chat_completion ev fieldName clientId ctx
  = validateField fetchMasterData failing_chat ev fieldName clientId None.
Proof.
  intros H. destruct ev as [v|]; [|reflexivity]. specialize (H v eq_refl).
  unfold validateField. destruct v as [|c v]; [reflexivity|]. cbv zeta.
  destruct (Nat.eqb _ 0); [reflexivity|].
  destruct (List.find _ _) as [em|] eqn:Hfind; [reflexivity|].
  unfold tier_decision.
  destruct (fuzzy_alternatives _ _) as [|b o] eqn:Halts; [reflexivity|].
  destruct (score b >? 85) eqn:E85; [reflexivity|].
  destruct (score b >? 60) eqn:E60; [|reflexivity].
  exfalso. destruct H as [(item & Hin & [Hex|Hs])|Hall].
  - apply list_elem_of_In in Hin.
    pose proof (find_none _ _ Hfind _ Hin). congruence.
  - pose proof (fuzzy_alternatives_best _ _ _ _ Halts item Hin). lia.
  - destruct (fuzzy_alternatives_elem (String c v) (masterData fieldName clientId) b)
      as (item & Hin & _ & _ & Hsc).
    { rewrite Halts. left. }
    specialize (Hall item Hin). lia.
Qed.

(** The chat completion and the document context matter only in the band
    from 61 to 85: when some item matches the value exactly or scores
    above 85, or when every item scores at most 60, the result is the
    same for any two chat completions and any two document contexts. *)
Theorem chat_completion_only_in_band
    (chat1 chat2 :
       string -> list Alternative -> string -> option DocumentContext -> option GptReply)
    (ev : option string) (fieldName clientId : string)
    (ctx1 ctx2 : option DocumentContext) :
  (forall v, ev = Some v ->
     (exists item, item ∈ masterData fieldName clientId
        /\ (is_exact_match v item = true \/ 85 < item_score v item))
     \/ (forall item, item ∈ masterData fieldName clientId -> item_score v item <= 60)) ->
  validateField fetchMasterData chat1 ev fieldName clientId ctx1
  = validateField fetchMasterData chat2 ev fieldName clientId ctx2.
Proof.
  intros H.
  rewrite (validateField_without_chat chat1 ev fieldName clientId ctx1 H).
  now rewrite (validateField_without_chat chat2 ev fieldName clientId ctx2 H).
Qed.

End Decisions.

Lemma high_score_accepted_witness :
  exists winner,
    winner ∈ constant_provider sample_vendors "client" (resolve_data_type "invoicing_party")
    /\ matched_code (validateField (constant_provider sample_vendors) failing_chat
                       (Some "abcdefghij") "invoicing_party" "client" None)
       = Some (code winner)
    /\ matched_name (validateField (constant_provider sample_vendors) failing_chat
                       (Some "abcdefghij") "invoicing_party" "client" None)
       = Some (name winner)
    /\ confidence (validateField (constant_provider sample_vendors) failing_chat
                     (Some "abcdefghij") "invoicing_party" "client" None)
       = item_score "abcdefghij" winner
    /\ (forall i,
          i ∈ constant_provider sample_vendors "client"
                (resolve_data_type "invoicing_party") ->
          item_score "abcdefghij" i
          <= confidence (validateField (constant_provider sample_vendors) failing_chat
                           (Some "abcdefghij") "invoicing_party" "client" None))
    /\ status (validateField (constant_provider sample_vendors) failing_chat
                 (Some "abcdefghij") "invoicing_party" "client" None)
       = if confidence (validateField (constant_provider sample_vendors) failing_chat
                          (Some "abcdefghij") "invoicing_party" "client" None) >? 90
         then fuzzy_high else fuzzy_medium.
Proof.
  apply (high_score_accepted (constant_provider sample_vendors) failing_chat
           "abcdefghij" "invoicing_party" "client" None (item "V1" "abcdefghik")).
  - reflexivity.
  - apply Forall_forall. repeat constructor.
  - left.
  - vm_compute. reflexivity.
Defined.

Lemma suffix_variant_is_fuzzy_high_witness :
  status (validateField (constant_provider acme_only) failing_chat
            (Some "ACME, Inc.") "invoicing_party" "client" None) = fuzzy_high
  /\ 95 <= confidence (validateField (constant_provider acme_only) failing_chat
                         (Some "ACME, Inc.") "invoicing_party" "client" None)
  /\ matched_code (validateField (constant_provider acme_only) failing_chat
                     (Some "ACME, Inc.") "invoicing_party" "client" None) <> None.
Proof.
  apply (suffix_variant_is_fuzzy_high (constant_provider acme_only) failing_chat
           "ACME, Inc." "invoicing_party" "client" None (item "A1" "Acme")).
  - reflexivity.
  - apply Forall_forall. repeat constructor.
  - left.
  - vm_compute. reflexivity.
Defined.

Lemma exact_match_first_witness :
  validateField (constant_provider two_exact) failing_chat
    (Some "V1") "invoicing_party" "client" None
  = {| field := "invoicing_party"; extracted_value := "V1";
       matched_code := Some "C"; matched_name := Some "v1";
       confidence := 100; status := exact; alternatives := [] |}.
Proof.
  apply (exact_match_first (constant_provider two_exact) failing_chat
           "V1" "invoicing_party" "client" None
           [item "A" "Zeta"] [item "V1" "Other"] (item "C" "v1")).
  - reflexivity.
  - reflexivity.
  - apply Forall_forall. repeat constructor; vm_compute; discriminate.
  - right. vm_compute. reflexivity.
Defined.

Lemma validation_ignores_case_witness :
  let r := validateField (constant_provider sample_vendors) failing_chat
             (Some "ABCDEFGHIJ") "invoicing_party" "client" None in
  let r' := validateField (constant_provider sample_vendors) failing_chat
              (Some "abcdefghij") "invoicing_party" "client" None in
  matched_code r = matched_code r' /\ matched_name r = matched_name r'
  /\ confidence r = confidence r' /\ status r = status r'
  /\ alternatives r = alternatives r'.
Proof.
  apply (validation_ignores_case (constant_provider sample_vendors) failing_chat
           "ABCDEFGHIJ" "abcdefghij" "invoicing_party" "client" None).
  - vm_compute. reflexivity.
  - reflexivity.
Defined.

Lemma chat_completion_only_in_band_witness :
  validateField (constant_provider sample_vendors) failing_chat
    (Some "abcdefghij") "invoicing_party" "client" None
  = validateField (constant_provider sample_vendors)
      (constant_chat {| selected_index := Some 2; reply_confidence := Some 99 |})
      (Some "abcdefghij") "invoicing_party" "client"
      (Some {| vendor := Some "zzz"; amount := None; date := None;
               ctx_description := None |}).
Proof.
  apply (chat_completion_only_in_band (constant_provider sample_vendors)).
  intros v [= <-]. left. exists (item "V1" "abcdefghik").
  split; [left|]. right. vm_compute. reflexivity.
Defined.

(** ** The text of a block *)

Lemma spaced_app ws ws' : spaced (ws ++ ws') = spaced ws +:+ spaced ws'.
Proof.
  induction ws as [|w ws IH]; [reflexivity|].
  cbn [app spaced]. now rewrite IH, !append_assoc.
Qed.

Lemma getText_inner blockMap ids : forall text,
  fold_left
    (fun text childId =>
       match JsMap.get blockMap (Some childId) with
       | Some childBlock =>
           if bool_decide (BlockType childBlock = Some "WORD")
           then text +:+ text_or_undefined (Text childBlock) +:+ " "
           else text
       | None => text
       end)
    ids text
  = text +:+ spaced (omap (word_of blockMap) ids).
Proof.
  induction ids as [|childId ids IH]; intros text; cbn [fold_left omap list_omap].
  - cbn [spaced]. now rewrite append_empty.
  - rewrite IH. unfold word_of at 2.
    destruct (JsMap.get blockMap (Some childId)) as [childBlock|]; [|reflexivity].
    destruct (bool_decide (BlockType childBlock = Some "WORD")); [|reflexivity].
    cbn [spaced]. now rewrite !append_assoc.
Qed.

Lemma getText_outer blockMap rels : forall text,
  fold_left
    (fun text relationship =>
       fold_left
         (fun text childId =>
            match JsMap.get blockMap (Some childId) with
            | Some childBlock =>
                if bool_decide (BlockType childBlock = Some "WORD")
                then text +:+ text_or_undefined (Text childBlock) +:+ " "
                else text
            | None => text
            end)
         (ids_of_type "CHILD" relationship) text)
    rels text
  = text +:+ spaced (omap (word_of blockMap) (flat_map (ids_of_type "CHILD") rels)).
Proof.
  induction rels as [|relationship rels IH]; intros text; cbn [fold_left flat_map].
  - cbn. now rewrite append_empty.
  - rewrite IH, getText_inner, omap_app, spaced_app. now rewrite append_assoc.
Qed.

Lemma getText_spaced block blockMap :
  getText block blockMap = trim (spaced (child_words block blockMap)).
Proof. unfold getText, child_words. now rewrite getText_outer. Qed.

Lemma trimStart_same_length w :
  String.length (trimStart w) = String.length w -> starts_clean w = true.
Proof.
  destruct w as [|c w]; [reflexivity|]. cbn.
  destruct (is_space c); [|reflexivity].
  pose proof (trimStart_length w). cbn [String.length]. lia.
Qed.

Lemma trimmed_word_ends w :
  trimmed_word w -> starts_clean w = true /\ trimEnd w = w.
Proof.
  intros [_ Ht]. unfold trim in Ht.
  assert (Hs : starts_clean w = true).
  { apply trimStart_same_length.
    pose proof (trimStart_length w). pose proof (trimEnd_length (trimStart w)).
    rewrite Ht in *. lia. }
  split; [exact Hs|]. now rewrite (trimStart_clean _ Hs) in Ht.
Qed.

Lemma trimEnd_app_space a : trimEnd (a +:+ " ") = trimEnd a.
Proof.
  induction a as [|c a IH]; [reflexivity|].
  change (String c a +:+ " ") with (String c (a +:+ " ")).
  cbn [trimEnd]. now rewrite IH.
Qed.

Lemma trimEnd_app a b :
  trimEnd b <> "" -> trimEnd (a +:+ b) = a +:+ trimEnd b.
Proof.
  intros Hb. induction a as [|c a IH]; [reflexivity|].
  change (String c a +:+ b) with (String c (a +:+ b)).
  cbn [trimEnd]. rewrite IH.
  change (String c a +:+ trimEnd b) with (String c (a +:+ trimEnd b)).
  destruct (a +:+ trimEnd b) as [|d t] eqn:E; [|reflexivity].
  destruct a; cbn in E; [contradiction|discriminate].
Qed.

Lemma concat_nonempty w ws : w <> "" -> String.concat " " (w :: ws) <> "".
Proof.
  intros Hw. destruct w as [|c w]; [contradiction|].
  destruct ws; cbn; discriminate.
Qed.

Lemma trimEnd_spaced w ws :
  Forall trimmed_word (w :: ws) ->
  trimEnd (spaced (w :: ws)) = String.concat " " (w :: ws).
Proof.
  revert w. induction ws as [|w' ws IH]; intros w Hall.
  - apply Forall_cons in Hall as [Hw _].
    cbn [spaced String.concat]. change (" " +:+ "") with " ".
    rewrite trimEnd_app_space. now apply trimmed_word_ends.
  - pose proof Hall as Hall'. apply Forall_cons in Hall' as [_ Hrest].
    pose proof Hrest as Hrest'. apply Forall_cons in Hrest' as [[Hw' _] _].
    specialize (IH w' Hrest).
    change (spaced (w :: w' :: ws)) with (w +:+ " " +:+ spaced (w' :: ws)).
    change (String.concat " " (w :: w' :: ws))
      with (w +:+ " " +:+ String.concat " " (w' :: ws)).
    rewrite <- append_assoc, trimEnd_app, IH; [now rewrite append_assoc|].
    rewrite IH. now apply concat_nonempty.
Qed.

(** [getText] joins the words of a block with single spaces: when each
    word the block's [CHILD] relationships resolve to is not empty and has
    no white space at its ends, the text is these words, in the order of
    the relationships, separated by one space.  A word block without a
    text counts as the word "undefined"; an identifier that resolves to no
    block, or to a block that is no [WORD], counts for nothing. *)
Theorem getText_joins_words (block : Block) (blockMap : JsMap.t Block) :
  Forall trimmed_word (child_words block blockMap) ->
  getText block blockMap = String.concat " " (child_words block blockMap).
Proof.
  intros Hall. rewrite getText_spaced.
  destruct (child_words block blockMap) as [|w ws]; [reflexivity|].
  unfold trim. rewrite trimStart_clean.
  - now apply trimEnd_spaced.
  - apply Forall_cons in Hall as [Hw _].
    pose proof Hw as [Hne _]. apply trimmed_word_ends in Hw as [Hs _].
    destruct w as [|c w]; [contradiction|]. exact Hs.
Qed.

Lemma getText_joins_words_witness :
  getText (with_edges [("VALUE", ["v1"]); ("CHILD", ["w1"; "w2"; "missing"; "v1"])]
             (with_entity "KEY" (block "k" "KEY_VALUE_SET")))
    (blockMap (fold_left index_block textless_key no_maps))
  = String.concat " " ["undefined"; "Alice"].
Proof.
  apply (getText_joins_words
           (with_edges [("VALUE", ["v1"]); ("CHILD", ["w1"; "w2"; "missing"; "v1"])]
              (with_entity "KEY" (block "k" "KEY_VALUE_SET")))
           (blockMap (fold_left index_block textless_key no_maps))).
  vm_compute. repeat first [constructor | discriminate].
Defined.

(** ** What the decoder's maps hold, whatever the identifiers *)

Lemma jsmap_get_set {V} (k k' : option string) (v : V) (m : JsMap.t V) :
  JsMap.get (JsMap.set k v m) k' = if decide (k = k') then Some v else JsMap.get m k'.
Proof.
  induction m as [|[k0 v0] m IH]; cbn [JsMap.set JsMap.get].
  - destruct (decide (k = k')); reflexivity.
  - destruct (decide (k0 = k)) as [->|Hne]; cbn [JsMap.get].
    + destruct (decide (k = k')); reflexivity.
    + rewrite IH. destruct (decide (k0 = k')) as [->|Hne']; [|reflexivity].
      destruct (decide (k = k')); [congruence|reflexivity].
Qed.

Lemma jsmap_values_set {V} (k : option string) (v x : V) (m : JsMap.t V) :
  x ∈ JsMap.values (JsMap.set k v m) -> x = v \/ x ∈ JsMap.values m.
Proof.
  unfold JsMap.values.
  induction m as [|[k0 v0] m IH]; cbn [JsMap.set map].
  - intros H. apply list_elem_of_singleton in H. now left.
  - destruct (decide (k0 = k)) as [->|Hne]; cbn [map snd]; intros H;
      apply elem_of_cons in H as [H|H].
    + now left.
    + right. now right.
    + right. subst. left.
    + destruct (IH H) as [?|?]; [now left|]. right. now right.
Qed.

Lemma index_by_get (P : Block -> bool) (l : list Block) : forall acc k b,
  JsMap.get (index_by P l acc) k = Some b ->
  (b ∈ l /\ P b = true /\ Id b = k) \/ JsMap.get acc k = Some b.
Proof.
  induction l as [|x l IH]; intros acc k b H; [now right|].
  rewrite index_by_cons in H. apply IH in H as [(Hin & HP & Hid)|H].
  - left. split; [now right|]. now split.
  - destruct (P x) eqn:HP; [|now right].
    rewrite jsmap_get_set in H. destruct (decide (Id x = k)) as [Hk|Hk]; [|now right].
    injection H as <-. left. split; [left|]. now split.
Qed.

Lemma index_by_values (P : Block -> bool) (l : list Block) : forall acc b,
  b ∈ JsMap.values (index_by P l acc) ->
  (b ∈ l /\ P b = true) \/ b ∈ JsMap.values acc.
Proof.
  induction l as [|x l IH]; intros acc b H; [now right|].
  rewrite index_by_cons in H. apply IH in H as [[Hin HP]|H].
  - left. split; [now right|exact HP].
  - destruct (P x) eqn:HP; [|now right].
    apply jsmap_values_set in H as [->|H]; [|now right].
    left. split; [left|exact HP].
Qed.

(** A key block of [keyMap], a value block of [valueMap] and so on are
    blocks of the response of the type the map is for. *)
Lemma maps_hold_blocks (blocks : list Block) :
  let maps := fold_left index_block blocks no_maps in
  (forall b, b ∈ JsMap.values (keyMap maps) -> b ∈ blocks /\ in_keyMap b = true)
  /\ (forall b, b ∈ JsMap.values (tableMap maps) ->
        b ∈ blocks /\ in_tableMap b = true)
  /\ (forall k b, JsMap.get (valueMap maps) k = Some b ->
        b ∈ blocks /\ in_valueMap b = true /\ Id b = k)
  /\ (forall k b, JsMap.get (cellMap maps) k = Some b ->
        b ∈ blocks /\ in_cellMap b = true /\ Id b = k)
  /\ (forall k b, JsMap.get (blockMap maps) k = Some b -> b ∈ blocks /\ Id b = k).
Proof.
  cbv zeta. destruct (index_block_maps blocks no_maps) as (-> & -> & -> & -> & ->).
  cbn [no_maps blockMap keyMap valueMap tableMap cellMap].
  repeat split.
  1-4: apply index_by_values in H as [[? ?]|H]; [assumption|inversion H].
  1-8: apply index_by_get in H as [(? & ? & ?)|H]; [assumption|discriminate].
Qed.

Lemma fold_set_pair_sound pairs k v :
  fold_left set_pair pairs ∅ !! k = Some v ->
  k <> "__proto__" /\ (k, v) ∈ pairs.
Proof.
  intros H.
  assert (Hk : k <> "__proto__").
  { intros ->. rewrite fold_set_pair_proto in H. discriminate. }
  split; [exact Hk|].
  rewrite (fold_set_pair_last pairs k ∅ Hk) in H.
  destruct (last (filter (fun p => p.1 = k) pairs)) as [[k' v']|] eqn:E;
    [|discriminate].
  apply last_Some_elem_of, list_elem_of_filter in E as [Hfst Hin].
  cbn in H, Hfst. injection H as <-. now subst k'.
Qed.

(** ** Key-value pairs and tables of the decoded document *)

(** Every entry of [keyValues] comes from a key marker and a value marker
    of the response: the key is the text of a [KEY_VALUE_SET] block with
    the entity type [KEY], the value is the text of a [KEY_VALUE_SET]
    block without it that one of the key's [VALUE] relationships names;
    neither text is empty or has white space at its ends, and the key is
    never [__proto__]. *)
Theorem keyValues_sound (blocks : list Block) (k v : string) :
  keyValues (extractText blocks) !! k = Some v ->
  k <> "" /\ v <> "" /\ k <> "__proto__" /\ trim k = k /\ trim v = v
  /\ exists keyBlock valueBlock id,
       keyBlock ∈ blocks /\ in_keyMap keyBlock = true
       /\ valueBlock ∈ blocks /\ in_valueMap valueBlock = true
       /\ id ∈ value_edge_ids keyBlock /\ Id valueBlock = Some id
       /\ k = getText keyBlock (blockMap (fold_left index_block blocks no_maps))
       /\ v = getText valueBlock (blockMap (fold_left index_block blocks no_maps)).
Proof.
  unfold extractText. cbv zeta. cbn [keyValues]. rewrite fold_add_key_value.
  intros H. apply fold_set_pair_sound in H as [Hproto Hin].
  destruct (maps_hold_blocks blocks) as (Hkeys & _ & Hvalues & _).
  cbv zeta in Hkeys, Hvalues.
  set (maps := fold_left index_block blocks no_maps) in *.
  apply list_elem_of_omap in Hin as (keyBlock & Hkey & Hpair).
  destruct (Hkeys keyBlock Hkey) as [HkeyIn HkeyType].
  unfold key_value_pair in Hpair.
  destruct (findValueBlock keyBlock (valueMap maps)) as [valueBlock|] eqn:Hfind;
    [|discriminate].
  cbv zeta in Hpair.
  destruct (truthy (getText keyBlock (blockMap maps))) eqn:Hk; [|discriminate].
  destruct (truthy (getText valueBlock (blockMap maps))) eqn:Hv; [|discriminate].
  cbn in Hpair. injection Hpair as <- <-.
  unfold findValueBlock in Hfind. rewrite find_value_outer in Hfind.
  fold (value_edge_ids keyBlock) in Hfind.
  destruct (last (omap (fun id => JsMap.get (valueMap maps) (Some id))
                    (value_edge_ids keyBlock))) as [b|] eqn:Elast; [|discriminate].
  injection Hfind as ->.
  apply last_Some_elem_of, list_elem_of_omap in Elast as (id & Hid & Hget).
  destruct (Hvalues _ _ Hget) as (HvIn & HvType & HvId).
  split; [intros E; rewrite E in Hk; discriminate|].
  split; [intros E; rewrite E in Hv; discriminate|].
  split; [exact Hproto|].
  split; [unfold getText; apply trim_trim|].
  split; [unfold getText; apply trim_trim|].
  exists keyBlock, valueBlock, id. repeat split; assumption.
Qed.

Lemma keyValues_sound_witness :
  "Name" <> "" /\ "Bob" <> "" /\ "Name" <> "__proto__"
  /\ trim "Name" = "Name" /\ trim "Bob" = "Bob"
  /\ exists keyBlock valueBlock id,
       keyBlock ∈ sample_form /\ in_keyMap keyBlock = true
       /\ valueBlock ∈ sample_form /\ in_valueMap valueBlock = true
       /\ id ∈ value_edge_ids keyBlock /\ Id valueBlock = Some id
       /\ "Name" = getText keyBlock (blockMap (fold_left index_block sample_form no_maps))
       /\ "Bob" = getText valueBlock (blockMap (fold_left index_block sample_form no_maps)).
Proof.
  apply (keyValues_sound sample_form "Name" "Bob"). vm_compute. reflexivity.
Defined.

(** *** How many rows the placements allocate *)

Lemma write_at_allocates {A} (n : nat) (x : A) (l : list (option A)) :
  (length (omap id (JsArray.write_at n x l)) <= S (length (omap id l)))%nat.
Proof.
  unfold JsArray.write_at.
  destruct (Nat.ltb_spec n (length l)) as [Hlt|Hge].
  - destruct (lookup_lt_is_Some_2 l n Hlt) as [y E].
    rewrite insert_take_drop by exact Hlt.
    rewrite <- (take_drop_middle l n y E) at 3.
    rewrite !omap_app, !length_app. cbn [omap list_omap].
    destruct y; cbn [id length]; lia.
  - rewrite !omap_app, !length_app.
    replace (omap id (replicate (n - length l) (@None A))) with (@nil A).
    + cbn. lia.
    + induction (n - length l)%nat as [|k IH]; [reflexivity|]. exact IH.
Qed.

Lemma write_at_replaces {A} (n : nat) (x y : A) (l : list (option A)) :
  mjoin (l !! n) = Some y ->
  length (omap id (JsArray.write_at n x l)) = length (omap id l).
Proof.
  intros H. destruct (l !! n) as [[z|]|] eqn:E; try discriminate.
  unfold JsArray.write_at.
  pose proof (lookup_lt_Some _ _ _ E) as Hlt.
  destruct (Nat.ltb_spec n (length l)) as [_|Hge]; [|lia].
  rewrite insert_take_drop by exact Hlt.
  rewrite <- (take_drop_middle l n (Some z) E) at 3.
  rewrite !omap_app, !length_app. reflexivity.
Qed.

Lemma place_cell_allocates (a : JsArray.t (JsArray.t string)) (c : Cell) :
  (allocated (place_cell a c) <= S (allocated a))%nat.
Proof.
  rewrite place_cell_eq. unfold allocated, JsArray.get, JsArray.set.
  destruct (JsArray.is_index (rowIndex c - 1)) eqn:Hr.
  - destruct (mjoin (JsArray.items a !! Z.to_nat (rowIndex c - 1))) as [row|] eqn:E;
      cbn [JsArray.items].
    + rewrite (write_at_replaces _ _ _ _ E). lia.
    + rewrite (write_at_replaces _ _ JsArray.empty).
      * apply write_at_allocates.
      * rewrite lookup_write_at.
        destruct (decide (Z.to_nat (rowIndex c - 1) = Z.to_nat (rowIndex c - 1)));
          [reflexivity|congruence].
  - destruct (JsArray.props a !! (rowIndex c - 1)); cbn [JsArray.items]; lia.
Qed.

Lemma place_cells_allocates (cells : list Cell) : forall a,
  (allocated (fold_left place_cell cells a) <= allocated a + length cells)%nat.
Proof.
  induction cells as [|c cells IH]; intros a; cbn [fold_left length]; [lia|].
  specialize (IH (place_cell a c)). pose proof (place_cell_allocates a c). lia.
Qed.

Lemma rows_le_cells (cells : list Cell) :
  (length (rows (organize cells)) <= length cells)%nat.
Proof.
  cbn [organize rows]. unfold surviving_rows.
  pose proof (place_cells_allocates cells JsArray.empty) as H.
  fold (place_cells cells) in H. unfold allocated in H. cbn in H.
  etransitivity; [apply List.filter_length_le|]. exact H.
Qed.

Lemma table_cells_inner cellMap blockMap ids : forall cells c,
  c ∈ fold_left
        (fun cells cellId =>
           match JsMap.get cellMap (Some cellId) with
           | Some cell => cells ++ [cell_record cell blockMap]
           | None => cells
           end)
        ids cells ->
  c ∈ cells
  \/ exists cellId cell,
       JsMap.get cellMap (Some cellId) = Some cell /\ c = cell_record cell blockMap.
Proof.
  induction ids as [|cellId ids IH]; intros cells c H; [now left|].
  cbn [fold_left] in H. apply IH in H as [H|H]; [|now right].
  destruct (JsMap.get cellMap (Some cellId)) as [cell|] eqn:E; [|now left].
  apply elem_of_app in H as [H|H]; [now left|].
  apply list_elem_of_singleton in H. right. now exists cellId, cell.
Qed.

Lemma table_cells_elem tableBlock cellMap blockMap c :
  c ∈ table_cells tableBlock cellMap blockMap ->
  exists cellId cell,
    JsMap.get cellMap (Some cellId) = Some cell /\ c = cell_record cell blockMap.
Proof.
  unfold table_cells.
  assert (H : forall rels cells,
             c ∈ fold_left
                   (fun cells relationship =>
                      fold_left
                        (fun cells cellId =>
                           match JsMap.get cellMap (Some cellId) with
                           | Some cell => cells ++ [cell_record cell blockMap]
                           | None => cells
                           end)
                        (ids_of_type "CHILD" relationship) cells)
                   rels cells ->
             c ∈ cells
             \/ exists cellId cell,
                  JsMap.get cellMap (Some cellId) = Some cell
                  /\ c = cell_record cell blockMap).
  { induction rels as [|relationship rels IH]; intros cells Hc; [now left|].
    cbn [fold_left] in Hc. apply IH in Hc as [Hc|Hc]; [|now right].
    now apply table_cells_inner in Hc. }
  intros Hc. apply H in Hc as [Hc|Hc]; [inversion Hc|exact Hc].
Qed.

Lemma number_or_nonzero n d : d <> 0 -> number_or n d <> 0.
Proof.
  intros Hd. unfold number_or. destruct n as [v|]; [|exact Hd].
  destruct (Z.eqb_spec v 0); [exact Hd|assumption].
Qed.

(** Every table of the decoded document is what [extractTable] gives for a
    [TABLE] block of the response, and it has at least one row; none of
    its rows is empty, there are at most as many rows as cells, and every
    cell is the record of a [CELL] block of the response, with a trimmed
    text and spans that are never 0. *)
Theorem tables_sound (blocks : list Block) (table : Table) :
  table ∈ tables (extractText blocks) ->
  (exists tableBlock,
     tableBlock ∈ blocks /\ in_tableMap tableBlock = true
     /\ table = extractTable tableBlock
                  (cellMap (fold_left index_block blocks no_maps))
                  (blockMap (fold_left index_block blocks no_maps)))
  /\ rows table <> []
  /\ (forall row, row ∈ rows table -> (0 < JsArray.length row)%nat)
  /\ (length (rows table) <= length (rawCells table))%nat
  /\ (forall c, c ∈ rawCells table ->
        (exists cellBlock,
           cellBlock ∈ blocks /\ in_cellMap cellBlock = true
           /\ c = cell_record cellBlock
                    (blockMap (fold_left index_block blocks no_maps)))
        /\ trim (text c) = text c /\ rowSpan c <> 0 /\ columnSpan c <> 0).
Proof.
  unfold extractText. cbv zeta. cbn [tables]. rewrite fold_add_table.
  destruct (maps_hold_blocks blocks) as (_ & Htables & _ & Hcells & _).
  cbv zeta in Htables, Hcells.
  set (maps := fold_left index_block blocks no_maps) in *.
  cbn [app]. intros H. apply list_elem_of_omap in H as (tableBlock & Hin & Htable).
  destruct (Htables _ Hin) as [HtIn HtType].
  unfold table_of in Htable. cbv zeta in Htable.
  destruct (0 <? length (rows (extractTable tableBlock (cellMap maps) (blockMap maps))))%nat
    eqn:Hrows; [|discriminate].
  injection Htable as <-.
  split; [now exists tableBlock|].
  split. { intros E. rewrite E in Hrows. discriminate. }
  split.
  { intros row Hrow. cbn [extractTable organize rows] in Hrow.
    unfold surviving_rows in Hrow.
    apply list_elem_of_In, filter_In in Hrow as [_ Hrow].
    now apply Nat.ltb_lt in Hrow. }
  split. { apply rows_le_cells. }
  intros c Hc. cbn [extractTable organize rawCells] in Hc.
  apply table_cells_elem in Hc as (cellId & cell & Hget & ->).
  destruct (Hcells _ _ Hget) as (HcIn & HcType & _).
  split; [now exists cell|]. cbn [cell_record text rowSpan columnSpan].
  split; [unfold getText; apply trim_trim|].
  split; now apply number_or_nonzero.
Qed.

Lemma tables_sound_witness :
  exists table, table ∈ tables (extractText one_row_table)
  /\ rows table <> []
  /\ (length (rows table) <= length (rawCells table))%nat.
Proof.
  exists (extractTable (with_edges [("CHILD", ["c1"; "c2"; "c9"])] (block "t" "TABLE"))
            (cellMap (fold_left index_block one_row_table no_maps))
            (blockMap (fold_left index_block one_row_table no_maps))).
  assert (H : extractTable (with_edges [("CHILD", ["c1"; "c2"; "c9"])] (block "t" "TABLE"))
                (cellMap (fold_left index_block one_row_table no_maps))
                (blockMap (fold_left index_block one_row_table no_maps))
              ∈ tables (extractText one_row_table)).
  { vm_compute. left. }
  split; [exact H|].
  destruct (tables_sound one_row_table _ H) as (_ & Hrows & _ & Hle & _).
  split; [exact Hrows|exact Hle].
Defined.

(** *** The last cell written to a position *)

Lemma index_to_nat_inj k k' :
  JsArray.is_index k = true -> JsArray.is_index k' = true ->
  Z.to_nat k = Z.to_nat k' -> k = k'.
Proof. unfold JsArray.is_index. intros. lia. Qed.

Lemma fold_place_keeps (after : list Cell) (n : nat) (j : Z) (t : string) :
  forall a row,
    (forall c', c' ∈ after ->
       JsArray.is_index (rowIndex c' - 1) = true ->
       n = Z.to_nat (rowIndex c' - 1) -> columnIndex c' - 1 <> j) ->
    mjoin (JsArray.items a !! n) = Some row ->
    JsArray.get row j = Some t ->
    exists row',
      mjoin (JsArray.items (fold_left place_cell after a) !! n) = Some row'
      /\ JsArray.get row' j = Some t.
Proof.
  induction after as [|c' after IH]; intros a row Hfree Hrow Hget.
  - now exists row.
  - cbn [fold_left].
    assert (Hfree' : forall x, x ∈ after ->
              JsArray.is_index (rowIndex x - 1) = true ->
              n = Z.to_nat (rowIndex x - 1) -> columnIndex x - 1 <> j).
    { intros x Hx. apply Hfree. now right. }
    assert (Hhead : JsArray.is_index (rowIndex c' - 1) = true ->
              n = Z.to_nat (rowIndex c' - 1) -> columnIndex c' - 1 <> j).
    { apply Hfree. left. }
    pose proof (place_cell_items a c' n) as Hstep. rewrite Hrow in Hstep.
    cbn [default from_option id] in Hstep.
    destruct (JsArray.is_index (rowIndex c' - 1)
              && bool_decide (n = Z.to_nat (rowIndex c' - 1))) eqn:Hhere.
    + apply andb_true_iff in Hhere as [Hidx Hn]. apply bool_decide_eq_true in Hn.
      apply (IH _ _ Hfree' Hstep).
      rewrite array_get_set.
      destruct (decide (columnIndex c' - 1 = j)) as [E|_]; [|exact Hget].
      destruct (Hhead Hidx Hn E).
    + apply (IH _ _ Hfree' Hstep Hget).
Qed.

(** A cell with a row index and a column index from 1 to 2^32 - 1 shows
    in the reconstructed table unless a later cell of the same table has
    the same two indices: its row is among the rows returned, and the
    element of that row at its column is its text.  Of several cells with
    the same indices the last one is shown. *)
Theorem last_cell_at_position_wins (before after : list Cell) (c : Cell) :
  JsArray.is_index (rowIndex c - 1) = true ->
  JsArray.is_index (columnIndex c - 1) = true ->
  (forall c', c' ∈ after -> rowIndex c' = rowIndex c ->
              columnIndex c' <> columnIndex c) ->
  exists row,
    JsArray.items (place_cells (before ++ c :: after)) !! Z.to_nat (rowIndex c - 1)
    = Some (Some row)
    /\ row ∈ rows (organize (before ++ c :: after))
    /\ JsArray.get row (columnIndex c - 1) = Some (text c).
Proof.
  intros Hr Hc Hfree.
  unfold place_cells. rewrite fold_left_app. cbn [fold_left].
  fold (place_cells before).
  pose proof (place_cell_items (place_cells before) c (Z.to_nat (rowIndex c - 1)))
    as Hstep.
  rewrite Hr in Hstep. cbn [andb] in Hstep.
  rewrite bool_decide_eq_true_2 in Hstep by reflexivity.
  assert (Hkeep : forall c', c' ∈ after ->
            JsArray.is_index (rowIndex c' - 1) = true ->
            Z.to_nat (rowIndex c - 1) = Z.to_nat (rowIndex c' - 1) ->
            columnIndex c' - 1 <> columnIndex c - 1).
  { intros c' Hc' Hidx Hn E. apply (Hfree c' Hc'); [|lia].
    pose proof (index_to_nat_inj _ _ Hr Hidx Hn). lia. }
  assert (Hwritten :
            JsArray.get
              (JsArray.set
                 (default JsArray.empty
                    (mjoin (JsArray.items (place_cells before)
                              !! Z.to_nat (rowIndex c - 1))))
                 (columnIndex c - 1) (text c))
              (columnIndex c - 1) = Some (text c)).
  { rewrite array_get_set.
    destruct (decide (columnIndex c - 1 = columnIndex c - 1)); [reflexivity|congruence]. }
  destruct (fold_place_keeps after _ _ _ _ _ Hkeep Hstep Hwritten)
    as (row & Hrow & Hget).
  exists row.
  assert (Hlookup :
            JsArray.items (fold_left place_cell after (place_cell (place_cells before) c))
              !! Z.to_nat (rowIndex c - 1) = Some (Some row)).
  { destruct (JsArray.items
                (fold_left place_cell after (place_cell (place_cells before) c))
                !! Z.to_nat (rowIndex c - 1)) as [[r|]|];
      cbn in Hrow; try discriminate. now injection Hrow as ->. }
  split; [exact Hlookup|]. split; [|exact Hget].
  cbn [organize rows]. unfold surviving_rows, place_cells.
  rewrite fold_left_app. cbn [fold_left]. fold (place_cells before).
  apply list_elem_of_In, filter_In. split.
  - apply list_elem_of_In, list_elem_of_omap. exists (Some row).
    split; [|reflexivity]. now apply list_elem_of_lookup_2 in Hlookup.
  - apply Nat.ltb_lt. unfold JsArray.get in Hget. rewrite Hc in Hget.
    unfold JsArray.length.
    destruct (JsArray.items row) as [|x l]; [|cbn; lia].
    rewrite lookup_nil in Hget. discriminate.
Qed.

Lemma last_cell_at_position_wins_witness :
  exists row,
    JsArray.items (place_cells overwritten_cells) !! 0%nat = Some (Some row)
    /\ row ∈ rows (organize overwritten_cells)
    /\ JsArray.get row 1 = Some "Bob".
Proof.
  apply (last_cell_at_position_wins
           [ {| rowIndex := 1; columnIndex := 2; text := "Alice";
                rowSpan := 1; columnSpan := 1 |} ]
           [ {| rowIndex := 2; columnIndex := 2; text := "Carol";
                rowSpan := 1; columnSpan := 1 |} ]
           second_column_cell).
  - reflexivity.
  - reflexivity.
  - intros c' Hc'. apply list_elem_of_singleton in Hc'. subst c'.
    cbn. discriminate.
Defined.

(** ** Text, layout and signatures, block by block *)

Lemma lines_text_app a b : lines_text (a ++ b) = lines_text a +:+ lines_text b.
Proof.
  induction a as [|t a IH]; [reflexivity|].
  cbn [app lines_text]. now rewrite IH, !append_assoc.
Qed.

Lemma scan_signatures_fold blocks : forall s,
  scan_signatures (fold_left scan_block blocks s)
  = scan_signatures s ++ omap signature_of blocks.
Proof.
  induction blocks as [|b blocks IH]; intros s; cbn [fold_left omap list_omap].
  - now rewrite app_nil_r.
  - rewrite IH. cbn [scan_block scan_signatures]. unfold signature_of at 2.
    destruct (has_type "SIGNATURE" b); [|reflexivity].
    now rewrite <- app_assoc.
Qed.

(** The full text, the four layout sequences and the signatures are read
    block by block, whatever the identifiers and relationships: there is
    one signature for every [SIGNATURE] block, in the order of the
    response, with the confidence and geometry of that block; and for a
    response made of two parts, each of these is what the first part
    gives followed by what the second gives. *)
Theorem text_layout_signatures_by_block (blocks blocks' : list Block) :
  signatures (extractText blocks) = omap signature_of blocks
  /\ fullText (extractText (blocks ++ blocks'))
     = fullText (extractText blocks) +:+ fullText (extractText blocks')
  /\ titles (layout (extractText (blocks ++ blocks')))
     = titles (layout (extractText blocks)) ++ titles (layout (extractText blocks'))
  /\ headers (layout (extractText (blocks ++ blocks')))
     = headers (layout (extractText blocks)) ++ headers (layout (extractText blocks'))
  /\ sections (layout (extractText (blocks ++ blocks')))
     = sections (layout (extractText blocks))
       ++ sections (layout (extractText blocks'))
  /\ lists (layout (extractText (blocks ++ blocks')))
     = lists (layout (extractText blocks)) ++ lists (layout (extractText blocks'))
  /\ signatures (extractText (blocks ++ blocks'))
     = signatures (extractText blocks) ++ signatures (extractText blocks').
Proof.
  assert (Hsig : forall l, signatures (extractText l) = omap signature_of l).
  { intros l. unfold extractText. cbn [signatures]. now rewrite scan_signatures_fold. }
  split; [apply Hsig|].
  split. { rewrite !fullText_eq, omap_app. apply lines_text_app. }
  destruct (layout_eq (blocks ++ blocks')) as (-> & -> & -> & ->).
  destruct (layout_eq blocks) as (-> & -> & -> & ->).
  destruct (layout_eq blocks') as (-> & -> & -> & ->).
  rewrite !Hsig, !omap_app. repeat split; reflexivity.
Qed.

(** * The queue handler *)

(** ** Job data *)

Lemma trim_empty_length s : Nat.eqb (String.length (trim s)) 0 = false <-> trim s <> "".
Proof.
  destruct (trim s) as [|c t]; cbn; split; intros H; congruence.
Qed.

Lemma non_blank_string_spec x s :
  non_blank_string x = Some s <-> x = Some (JString s) /\ trim s <> "".
Proof.
  unfold non_blank_string. split.
  - destruct x as [[| | |s'| |]|]; try discriminate.
    destruct (truthy s' && negb (Nat.eqb (String.length (trim s')) 0)) eqn:E;
      [|discriminate].
    intros [= ->]. split; [reflexivity|].
    apply andb_true_iff in E as [_ E]. apply negb_true_iff in E.
    now apply trim_empty_length.
  - intros [-> Hs].
    assert (Ht : truthy s = true) by (destruct s; [now destruct Hs|reflexivity]).
    apply trim_empty_length in Hs. now rewrite Ht, Hs.
Qed.

Lemma drop_chars_suffix n : forall s, exists stem, s = stem +:+ drop_chars n s.
Proof.
  induction n as [|n IH]; intros s.
  - now exists "".
  - destruct s as [|c s]; [now exists ""|].
    destruct (IH s) as [stem Hs]. exists (String c stem).
    cbn [drop_chars]. change (String c stem +:+ drop_chars n s)
      with (String c (stem +:+ drop_chars n s)). now rewrite <- Hs.
Qed.

Lemma drop_chars_app stem ext : drop_chars (String.length stem) (stem +:+ ext) = ext.
Proof. induction stem as [|c stem IH]; [reflexivity|exact IH]. Qed.

Lemma lower_char_dot d : Ascii.eqb (lower_char d) "." = Ascii.eqb d ".".
Proof. destruct d as [[] [] [] [] [] [] [] []]; reflexivity. Qed.

Lemma lastIndexOf_lower s :
  lastIndexOf (toLowerCase s) "." = lastIndexOf s ".".
Proof.
  induction s as [|d s IH]; [reflexivity|].
  cbn [toLowerCase lastIndexOf]. now rewrite IH, lower_char_dot.
Qed.

Lemma lastIndexOf_app stem c rest :
  lastIndexOf rest c = -1 ->
  lastIndexOf (stem +:+ String c rest) c = Z.of_nat (String.length stem).
Proof.
  intros Hrest. induction stem as [|d stem IH].
  - change ("" +:+ String c rest) with (String c rest).
    cbn [lastIndexOf String.length]. rewrite Hrest. cbn.
    now rewrite Ascii.eqb_refl.
  - change (String d stem +:+ String c rest) with (String d (stem +:+ String c rest)).
    cbn [lastIndexOf String.length]. rewrite IH.
    destruct (Z.eqb_spec (Z.of_nat (String.length stem)) (-1)); lia.
Qed.

Lemma supported_extension ext :
  ext ∈ SUPPORTED_FILE_TYPES ->
  exists rest, ext = String "." rest /\ lastIndexOf rest "." = -1.
Proof.
  unfold SUPPORTED_FILE_TYPES. intros H.
  repeat (apply elem_of_cons in H as [->|H]; [eexists; split; reflexivity|]).
  inversion H.
Qed.

(** What the extension test of [validateJobData] cuts off is the end of
    the lower-cased file name. *)
Lemma extension_is_suffix f :
  substring_from (toLowerCase f) (lastIndexOf f ".") ∈ SUPPORTED_FILE_TYPES ->
  exists stem ext,
    ext ∈ SUPPORTED_FILE_TYPES /\ toLowerCase f = stem +:+ ext.
Proof.
  intros H. unfold substring_from in *.
  destruct (drop_chars_suffix (Z.to_nat (lastIndexOf f ".")) (toLowerCase f))
    as [stem Hs].
  now exists stem, (drop_chars (Z.to_nat (lastIndexOf f ".")) (toLowerCase f)).
Qed.

(** For the strings of this development, whose characters are the code
    units below U+0100, lower-casing keeps the index of every character,
    and the test holds for every name that ends, letter case apart, with a
    supported extension.  (For other names it need not: lower-casing
    U+0130 gives two code units, and the cut at the index of the last dot
    of the name as given then falls one place before the dot.) *)
Lemma extension_supported f :
  substring_from (toLowerCase f) (lastIndexOf f ".") ∈ SUPPORTED_FILE_TYPES
  <-> exists stem ext,
        ext ∈ SUPPORTED_FILE_TYPES /\ toLowerCase f = stem +:+ ext.
Proof.
  split; [apply extension_is_suffix|].
  intros (stem & ext & Hext & Hf).
  destruct (supported_extension ext Hext) as (rest & -> & Hrest).
  rewrite <- lastIndexOf_lower, Hf, (lastIndexOf_app _ _ _ Hrest).
  unfold substring_from. rewrite Nat2Z.id, drop_chars_app. exact Hext.
Qed.

Lemma member_object data name v :
  member data name = Some v -> exists members, data = JObject members.
Proof. destruct data; try discriminate. intros _. now eexists. Qed.

(** [validateJobData] accepts exactly the objects whose [documentId],
    [userId] and [filename] are strings with a character that is no white
    space, whose [fileUrl] is a non-empty string that parses as a URL, and
    whose lower-cased file name, cut at the index that the last dot has in
    the file name as given, is one of the six supported extensions; the
    job it returns carries these four strings unchanged and the
    [receiptHandle] of the object, and nothing else of it.  The lower-cased
    name of an accepted file ends with a supported extension. *)
Theorem validateJobData_accepts
    (valid_url : string -> bool) (data : Json) (job : JobData) :
  (validateJobData valid_url data = inr job
   <-> member data "documentId" = Some (JString (documentId job))
       /\ trim (documentId job) <> ""
       /\ member data "userId" = Some (JString (userId job))
       /\ trim (userId job) <> ""
       /\ member data "fileUrl" = Some (JString (fileUrl job))
       /\ fileUrl job <> ""
       /\ valid_url (fileUrl job) = true
       /\ member data "filename" = Some (JString (filename job))
       /\ trim (filename job) <> ""
       /\ substring_from (toLowerCase (filename job))
            (lastIndexOf (filename job) ".") ∈ SUPPORTED_FILE_TYPES
       /\ receiptHandle job = member data "receiptHandle")
  /\ (validateJobData valid_url data = inr job ->
      exists stem ext,
        ext ∈ SUPPORTED_FILE_TYPES
        /\ toLowerCase (filename job) = stem +:+ ext).
Proof.
  assert (Hiff :
    validateJobData valid_url data = inr job
    <-> member data "documentId" = Some (JString (documentId job))
        /\ trim (documentId job) <> ""
        /\ member data "userId" = Some (JString (userId job))
        /\ trim (userId job) <> ""
        /\ member data "fileUrl" = Some (JString (fileUrl job))
        /\ fileUrl job <> ""
        /\ valid_url (fileUrl job) = true
        /\ member data "filename" = Some (JString (filename job))
        /\ trim (filename job) <> ""
        /\ substring_from (toLowerCase (filename job))
             (lastIndexOf (filename job) ".") ∈ SUPPORTED_FILE_TYPES
        /\ receiptHandle job = member data "receiptHandle").
  2:{ split; [exact Hiff|]. intros H. apply Hiff in H.
      apply extension_is_suffix. tauto. }
  split.
  - intros H.
    assert (Hbody :
      match non_blank_string (member data "documentId") with
      | None => inl (Error "Invalid documentId: must be a non-empty string")
      | Some documentId =>
      match non_blank_string (member data "userId") with
      | None => inl (Error "Invalid userId: must be a non-empty string")
      | Some userId =>
      match member data "fileUrl" with
      | Some (JString fileUrl) =>
          if negb (truthy fileUrl) then
            inl (Error "Invalid fileUrl: must be a string")
          else if negb (valid_url fileUrl) then
            inl (Error "Invalid fileUrl: must be a valid URL")
          else
            match non_blank_string (member data "filename") with
            | None => inl (Error "Invalid filename: must be a non-empty string")
            | Some filename =>
                if bool_decide
                     (substring_from (toLowerCase filename)
                        (lastIndexOf filename ".") ∈ SUPPORTED_FILE_TYPES) then
                  inr {| documentId := documentId; userId := userId;
                         fileUrl := fileUrl; filename := filename;
                         receiptHandle := member data "receiptHandle" |}
                else
                  inl (Error ("Unsupported file type: "
                              +:+ substring_from (toLowerCase filename)
                                    (lastIndexOf filename ".")
                              +:+ ". Supported types: "
                              +:+ String.concat ", " SUPPORTED_FILE_TYPES))
            end
      | _ => inl (Error "Invalid fileUrl: must be a string")
      end
      end
      end = inr job).
    { destruct data; try discriminate H; exact H. }
    clear H.
    destruct (non_blank_string (member data "documentId")) as [d|] eqn:Ed;
      [|discriminate].
    destruct (non_blank_string (member data "userId")) as [u|] eqn:Eu;
      [|discriminate].
    destruct (member data "fileUrl") as [[| | |url| |]|] eqn:Eurl; try discriminate.
    destruct (truthy url) eqn:Ht; [|discriminate]. cbn [negb] in Hbody.
    destruct (valid_url url) eqn:Hvalid; [|discriminate]. cbn [negb] in Hbody.
    destruct (non_blank_string (member data "filename")) as [f|] eqn:Ef;
      [|discriminate].
    destruct (bool_decide _) eqn:Hext in Hbody; [|discriminate].
    injection Hbody as <-. cbn.
    apply non_blank_string_spec in Ed as [-> Hd], Eu as [-> Hu], Ef as [-> Hf].
    apply bool_decide_eq_true in Hext.
    repeat split; try assumption; try reflexivity.
    intros ->. discriminate.
  - intros (Hd & Hd' & Hu & Hu' & Hurl & Hurl' & Hvalid & Hf & Hf' & Hext & Hr).
    destruct (member_object _ _ _ Hd) as [members ->].
    unfold validateJobData.
    rewrite (proj2 (non_blank_string_spec _ _) (conj Hd Hd')).
    rewrite (proj2 (non_blank_string_spec _ _) (conj Hu Hu')).
    rewrite Hurl.
    assert (Ht : truthy (fileUrl job) = true)
      by (destruct (fileUrl job); [now destruct Hurl'|reflexivity]).
    rewrite Ht, Hvalid. cbn [negb].
    rewrite (proj2 (non_blank_string_spec _ _) (conj Hf Hf')). cbv zeta.
    rewrite bool_decide_eq_true_2 by assumption.
    rewrite <- Hr. now destruct job.
Qed.

(** A job whose file name has two dots and an extension in capitals; the
    [clientId] it carries is not part of the validated job. *)
Example sample_job_accepted :
  validateJobData https_only sample_job
  = inr {| documentId := "d1"; userId := "u1";
           fileUrl := "https://files.example/scan.v2.PDF";
           filename := "Scan.v2.PDF"; receiptHandle := None |}.
Proof. vm_compute. reflexivity. Qed.

(** ** The handler's response *)

Lemma process_record_fulfilled valid_url json_parse processDocument index record :
  is_fulfilled (process_record valid_url json_parse processDocument index record)
  = true.
Proof.
  unfold process_record.
  match goal with |- context [try_catch ?body _] => destruct body end; reflexivity.
Qed.

Lemma imap_all_fulfilled {A B} (l : list A) : forall (f : nat -> A -> Settled B),
  (forall i x, is_fulfilled (f i x) = true) ->
  List.filter is_fulfilled (imap f l) = imap f l
  /\ List.filter is_rejected (imap f l) = [].
Proof.
  induction l as [|x l IH]; intros f Hf; [split; reflexivity|].
  cbn [imap List.filter]. specialize (Hf 0%nat x) as H0.
  destruct (f 0%nat x) as [v|reason]; [|discriminate]. cbn [is_fulfilled is_rejected].
  destruct (IH (f ∘ S)) as [-> ->]; [intros i y; apply Hf|]. split; reflexivity.
Qed.

(** The handler never reports a failed record.  The function it maps over
    the records catches whatever is thrown and returns, so every promise
    given to [Promise.allSettled] is fulfilled: the response has status
    200, counts every record as successful and none as failed, whether the
    records were valid and whether [processDocument] threw. *)
Theorem handler_reports_no_failure
    (valid_url : string -> bool) (json_parse : string -> option Json)
    (processDocument : JobData -> option Thrown) (records : list (option string)) :
  statusCode (handler valid_url json_parse processDocument records) = 200
  /\ successful (handler valid_url json_parse processDocument records)
     = length records
  /\ failed (handler valid_url json_parse processDocument records) = 0%nat.
Proof.
  unfold handler. destruct records as [|r records]; [repeat split|].
  cbn [length Nat.eqb]. cbv zeta. cbn [statusCode successful failed].
  destruct (imap_all_fulfilled (r :: records)
              (process_record valid_url json_parse processDocument)) as [-> ->].
  - intros i x. apply process_record_fulfilled.
  - rewrite length_imap. repeat split.
Qed.

(** ** Required fields *)

Lemma fold_wrap_lookup (l : list (string * Json)) (k : string) :
  forall fields : gmap string Wrapped,
  is_Some
    (fold_left
       (fun fields kv =>
          if String.eqb (fst kv) "__proto__" then fields
          else <[fst kv := wrap (fst kv) (snd kv)]> fields)
       l fields !! k)
  <-> (k <> "__proto__" /\ k ∈ l.*1) \/ is_Some (fields !! k).
Proof.
  induction l as [|[k' v] l IH]; intros fields; cbn [fold_left fmap list_fmap fst snd].
  - split; [now right|]. intros [[_ H]|H]; [inversion H|exact H].
  - rewrite IH. destruct (String.eqb_spec k' "__proto__") as [->|Hne].
    + split.
      * intros [[Hk H]|H]; [|now right]. left. split; [exact Hk|now right].
      * intros [[Hk H]|H]; [|now right]. left. split; [exact Hk|].
        apply elem_of_cons in H as [->|H]; [contradiction|exact H].
    + split.
      * intros [[Hk H]|H]; [left; split; [exact Hk|now right]|].
        destruct (decide (k' = k)) as [->|Hkk].
        -- left. split; [exact Hne|left].
        -- rewrite lookup_insert_ne in H by exact Hkk. now right.
      * intros [[Hk H]|H].
        -- apply elem_of_cons in H as [->|H]; [|left; now split].
           right. rewrite lookup_insert_eq. now eexists.
        -- right. destruct (decide (k' = k)) as [->|Hkk].
           ++ rewrite lookup_insert_eq. now eexists.
           ++ now rewrite lookup_insert_ne.
Qed.

(** After the wrapping of [processWithGPT4], [determineStatus] only tells
    whether the chat answer names the three required fields: every field
    of the answer is wrapped in an object, which counts as present
    whatever the value is, [null], the empty string and 0 included. *)
Theorem determineStatus_of_wrapped (members : list (string * Json)) :
  determineStatus (Wrapper <$> fieldsWithConfidence (JObject members))
  = if bool_decide (Forall (fun field => field ∈ members.*1) required)
    then "ready_for_export" else "needs_mapping".
Proof.
  unfold determineStatus.
  assert (H : forall field, field ∈ required ->
            match (Wrapper <$> fieldsWithConfidence (JObject members)) !! field with
            | Some v => field_truthy v
            | None => false
            end = bool_decide (field ∈ members.*1)).
  { intros field Hfield. rewrite lookup_fmap.
    pose proof (fold_wrap_lookup members field ∅) as Hl.
    unfold fieldsWithConfidence. cbn [entries].
    assert (Hk : field <> "__proto__").
    { unfold required in Hfield.
      repeat (apply elem_of_cons in Hfield as [->|Hfield]; [discriminate|]).
      inversion Hfield. }
    destruct (fold_left _ members ∅ !! field) as [w|] eqn:E; cbn.
    - symmetry. apply bool_decide_eq_true.
      destruct (proj1 Hl) as [[_ Hin]|Hempty]; [now eexists|exact Hin|].
      rewrite lookup_empty in Hempty. now destruct Hempty.
    - symmetry. apply bool_decide_eq_false. intros Hin.
      destruct (proj2 Hl) as [w Hw]; [left; now split|discriminate]. }
  assert (Hreq : forall field, In field required -> field ∈ required)
    by (intros field; apply list_elem_of_In).
  unfold required at 1. cbn [forallb].
  rewrite (H "invoicing_party"), (H "document_date"), (H "invoice_gross_amount")
    by (apply Hreq; cbn; tauto).
  unfold required. rewrite andb_true_r.
  destruct (bool_decide ("invoicing_party" ∈ members.*1)) eqn:E1,
           (bool_decide ("document_date" ∈ members.*1)) eqn:E2,
           (bool_decide ("invoice_gross_amount" ∈ members.*1)) eqn:E3;
    cbn [andb];
    try apply bool_decide_eq_true in E1; try apply bool_decide_eq_true in E2;
    try apply bool_decide_eq_true in E3;
    try apply bool_decide_eq_false in E1; try apply bool_decide_eq_false in E2;
    try apply bool_decide_eq_false in E3.
  1: rewrite bool_decide_eq_true_2; [reflexivity|repeat constructor; assumption].
  all: rewrite bool_decide_eq_false_2; [reflexivity|].
  all: intros HF; apply Forall_cons in HF as [H1 HF];
    apply Forall_cons in HF as [H2 HF]; apply Forall_cons in HF as [H3 _];
    contradiction.
Qed.

Example hollow_answer_is_ready :
  determineStatus (Wrapper <$> fieldsWithConfidence hollow_answer) = "ready_for_export".
Proof. vm_compute. reflexivity. Qed.

(** ** Validation of wrapped fields *)

Section WrappedFields.

Variable fetchMasterData : string -> DataType -> list MasterDataItem.
Variable not_a_function : Thrown.
Variable fields : gmap string Wrapped.
Variable clientId : string.

Local Abbreviation validate_next :=
  (fun (results : Thrown + gmap string ObjectValidation) (fieldName : string) =>
     match results with
     | inl error => inl error
     | inr results =>
         match fields !! fieldName with
         | Some extractedValue =>
             match validateField_object fetchMasterData not_a_function
                     extractedValue fieldName clientId with
             | inl error => inl error
             | inr validation => inr (<[fieldName := validation]> results)
             end
         | None => inr results
         end
     end).

Lemma validate_next_thrown names error :
  fold_left validate_next names (inl error) = inl error.
Proof. induction names as [|f names IH]; [reflexivity|exact IH]. Qed.

Lemma validate_next_results names : forall results,
  (forall f r, results !! f = Some r -> ov_matched_code r = None) ->
  match fold_left validate_next names (inr results) with
  | inr results' =>
      (forall f r, results' !! f = Some r -> ov_matched_code r = None)
      /\ (forall f, f ∈ names -> is_Some (fields !! f) ->
            fetchMasterData clientId (resolve_data_type f) = [])
  | inl _ =>
      exists f, f ∈ names /\ is_Some (fields !! f)
                /\ fetchMasterData clientId (resolve_data_type f) <> []
  end.
Proof.
  induction names as [|f names IH]; intros results Hresults.
  - split; [exact Hresults|]. intros f Hf. inversion Hf.
  - cbn [fold_left]. destruct (fields !! f) as [w|] eqn:Ef.
    + unfold validateField_object. cbv zeta.
      destruct (fetchMasterData clientId (resolve_data_type f)) as [|x l] eqn:Emd;
        cbn [length Nat.eqb].
      * match goal with
        | |- context [fold_left _ names (inr ?rs)] => specialize (IH rs)
        end.
        destruct (fold_left _ names _) as [e|results'].
        -- destruct IH as (g & Hg & Hsome & Hmd).
           { intros g r Hr. destruct (decide (f = g)) as [->|Hne].
             - rewrite lookup_insert_eq in Hr. now injection Hr as <-.
             - rewrite lookup_insert_ne in Hr by exact Hne. eauto. }
           exists g. split; [now right|]. now split.
        -- destruct IH as [Hun Hall].
           { intros g r Hr. destruct (decide (f = g)) as [->|Hne].
             - rewrite lookup_insert_eq in Hr. now injection Hr as <-.
             - rewrite lookup_insert_ne in Hr by exact Hne. eauto. }
           split; [exact Hun|]. intros g Hg Hsome.
           apply elem_of_cons in Hg as [->|Hg]; [exact Emd|now apply Hall].
      * rewrite validate_next_thrown. exists f.
        split; [left|]. split; [rewrite Ef; now eexists|]. rewrite Emd. discriminate.
    + specialize (IH results Hresults).
      destruct (fold_left _ names _) as [e|results'].
      * destruct IH as (g & Hg & Hsome & Hmd).
        exists g. split; [now right|]. now split.
      * destruct IH as [Hun Hall]. split; [exact Hun|]. intros g Hg Hsome.
        apply elem_of_cons in Hg as [->|Hg]; [|now apply Hall].
        rewrite Ef in Hsome. now destruct Hsome.
Qed.

Lemma apply_validation_unmatched (results : gmap string ObjectValidation) :
  (forall f r, results !! f = Some r -> ov_matched_code r = None) ->
  apply_validation fields results = Wrapper <$> fields.
Proof.
  intros Hun. unfold apply_validation.
  assert (H : Forall (fun entry => ov_matched_code (snd entry) = None)
                (map_to_list results)).
  { apply Forall_forall. intros [f r] Hin.
    apply elem_of_map_to_list in Hin. exact (Hun f r Hin). }
  generalize (Wrapper <$> fields) as acc.
  induction H as [|entry l Hentry _ IH]; intros acc; [reflexivity|].
  cbn [fold_left]. rewrite Hentry. apply IH.
Qed.

(** In the second [processDocument] the validation of the extracted
    fields changes no field.  The fields are the wrapped objects of
    [extractWithGPT4], not strings; so either some configured field that
    is present has master data, and the validation throws the [TypeError]
    of the call [extractedValue.toLowerCase] (the document fails), or
    every such field has none, all results are [no_match] without a code,
    and [validatedFields] is the copy of the extracted fields. *)
Theorem wrapped_fields_never_validated :
  match validatedFields fetchMasterData not_a_function fields clientId with
  | inr validated =>
      validated = Wrapper <$> fields
      /\ forall f, f ∈ LIST_MATCH_FIELDS -> is_Some (fields !! f) ->
           fetchMasterData clientId (resolve_data_type f) = []
  | inl error =>
      error = not_a_function
      /\ exists f, f ∈ LIST_MATCH_FIELDS /\ is_Some (fields !! f)
                   /\ fetchMasterData clientId (resolve_data_type f) <> []
  end.
Proof.
  unfold validatedFields, validateDocumentFields_objects.
  pose proof (validate_next_results LIST_MATCH_FIELDS ∅) as H.
  assert (Herr : forall names results error,
            fold_left validate_next names (inr results) = inl error ->
            error = not_a_function).
  { induction names as [|f names IHn]; intros results error; [discriminate|].
    cbn [fold_left]. destruct (fields !! f) as [w|]; [|apply IHn].
    unfold validateField_object. cbv zeta.
    destruct (Nat.eqb _ 0); [apply IHn|].
    rewrite validate_next_thrown. now intros [= <-]. }
  specialize (Herr LIST_MATCH_FIELDS ∅).
  destruct (fold_left _ LIST_MATCH_FIELDS (inr ∅)) as [error|results].
  - split; [now apply Herr|]. apply H. intros f r Hr.
    rewrite lookup_empty in Hr. discriminate.
  - destruct H as [Hun Hall].
    { intros f r Hr. rewrite lookup_empty in Hr. discriminate. }
    split; [now apply apply_validation_unmatched|exact Hall].
Qed.

End WrappedFields.

(** ** When a matched code replaces a field *)

Section Applied.

Variable fetchMasterData : string -> DataType -> list MasterDataItem.
Variable chat_completion :
  string -> list Alternative -> string -> option DocumentContext -> option GptReply.

(** For the result of [validateField] on a string, the test of
    [processDocument] for taking the matched code, a confidence of at
    least 85 and a non-empty code, does not follow the status: it passes
    for an [exact] or [fuzzy_high] result with a non-empty code, for a
    [fuzzy_medium] one only from confidence 85 on, never for [fuzzy_low],
    and also for a [no_match] result whose best score is exactly 85. *)
Theorem matched_code_applied
    (extractedValue : option string) (fieldName clientId : string)
    (ctx : option DocumentContext) :
  let r := validateField fetchMasterData chat_completion
             extractedValue fieldName clientId ctx in
  applies (confidence r) (matched_code r) = true
  <-> is_truthy (matched_code r) = true
      /\ match status r with
         | exact | fuzzy_high => True
         | fuzzy_medium => 85 <= confidence r
         | fuzzy_low => False
         | no_match => confidence r = 85
         end.
Proof.
  cbv zeta. unfold applies. rewrite andb_true_iff, Z.leb_le.
  assert (Hb : forall v b o,
             fuzzy_alternatives v
               (fetchMasterData clientId (resolve_data_type fieldName)) = b :: o ->
             0 <= score b <= 100).
  { intros v b o E.
    destruct (fuzzy_alternatives_elem v
                (fetchMasterData clientId (resolve_data_type fieldName)) b)
      as (item & _ & _ & _ & ->).
    - rewrite E. left.
    - apply item_score_bounds. }
  destruct (validateField_path fetchMasterData chat_completion
              extractedValue fieldName clientId ctx)
    as [Hv|v -> _ _|v em -> _ _|v b o -> _ _ Halts Hs
        |v b o sel -> _ _ Halts Hs Hsel|v b o -> _ _ Halts Hs]; cbn.
  - split; [intros [H _]; lia|intros [H _]; discriminate].
  - split; [intros [H _]; lia|intros [H _]; discriminate].
  - split; [intros [_ H]; now split|intros [H _]; split; [lia|exact H]].
  - specialize (Hb _ _ _ Halts).
    destruct (score b >? 90) eqn:E; (split; [intros [_ H]; split; [exact H|lia]
                                            |intros [H _]; split; [lia|exact H]]).
  - destruct (sel_confidence sel >? 75) eqn:E;
      (split; [intros [H1 H2]; split; [exact H2|lia]
              |intros [H1 H2]; split; [lia|exact H1]]).
  - split; [intros [H1 H2]; split; [exact H2|lia]|intros [H1 H2]; split; [lia|exact H1]].
Qed.

End Applied.

(** A best score of exactly 85 for which the chat completion fails: the
    status is [no_match], and the code is taken all the same. *)
Example no_match_is_applied :
  let r := validateField (constant_provider long_vendor) failing_chat
             (Some "abcdefghijklmnopqrst") "invoicing_party" "client" None in
  status r = no_match /\ confidence r = 85 /\ matched_code r = Some "L1"
  /\ applies (confidence r) (matched_code r) = true.
Proof. vm_compute. repeat split; reflexivity. Qed.

(** ** The master data a document needs *)






(** ** The score 100 *)

Lemma ratio_of_mono maxLen distance (bound : Q) :
  ((Q_of_nat maxLen - Q_of_nat distance) / Q_of_nat maxLen <= bound)%Q ->
  (ratio_of maxLen distance <= fmul (binary64 bound) 100)%Q.
Proof.
  intros H. unfold ratio_of, fmul, fdiv. apply binary64_mono.
  apply Qmult_le_compat_r; [|discriminate]. now apply binary64_mono.
Qed.

(** The quotient is at most [a / b] when [maxLen * (b - a) <= b * distance]. *)
Lemma quotient_le maxLen distance (a b : Z) :
  (0 < maxLen)%nat -> 0 < b ->
  Z.of_nat maxLen * (b - a) <= b * Z.of_nat distance ->
  ((Q_of_nat maxLen - Q_of_nat distance) / Q_of_nat maxLen
   <= inject_Z a / inject_Z b)%Q.
Proof.
  intros Hpos Hb H. unfold Q_of_nat.
  assert (Hm : (0 < inject_Z (Z.of_nat maxLen))%Q) by (rewrite <- (Zlt_Qlt 0); lia).
  assert (Hb' : (0 < inject_Z b)%Q) by (rewrite <- (Zlt_Qlt 0); lia).
  apply Qle_shift_div_r; [exact Hm|].
  apply Qle_trans
    with (inject_Z a * inject_Z (Z.of_nat maxLen) / inject_Z b)%Q;
    [|apply Qle_lteq; right; field; intros E; rewrite E in Hb'; discriminate].
  apply Qle_shift_div_l; [exact Hb'|].
  unfold Qminus. rewrite <- inject_Z_opp, <- inject_Z_plus, <- !inject_Z_mult.
  rewrite <- Zle_Qle. lia.
Qed.

(** With a distance of 1 or more and a length up to 2^53, the quotient is
    at most 1 - 2^-53, the greatest double below 1, and 100 times that
    rounds to the greatest double below 100. *)
Lemma ratio_of_strict m d :
  (1 <= d)%nat -> (d <= m)%nat ->
  (Z.of_nat m <= 2 ^ 53 -> (ratio_of m d < 100)%Q)
  /\ (round_half_up (ratio_of m d) = 100 -> (200 <= m)%nat).
Proof.
  intros Hd Hm. assert (Hpos : (0 < m)%nat) by lia. split.
  - intros Hlen.
    apply Qle_lt_trans
      with (fmul (binary64 (inject_Z (2 ^ 53 - 1) / inject_Z (2 ^ 53))) 100);
      [|vm_compute; reflexivity].
    apply ratio_of_mono. apply quotient_le; lia.
  - intros Hround. destruct (le_lt_dec 200 m) as [|Hsmall]; [assumption|exfalso].
    assert (H : (ratio_of m d
                 <= fmul (binary64 (inject_Z 198 / inject_Z 199)) 100)%Q).
    { apply ratio_of_mono. apply quotient_le; lia. }
    apply round_half_up_mono in H. rewrite Hround in H.
    vm_compute in H. now apply H.
Qed.

Lemma levenshteinDistance_positive s1 s2 :
  s1 <> s2 -> (1 <= levenshteinDistance s1 s2)%nat.
Proof.
  intros Hne. destruct (levenshteinDistance s1 s2) as [|n] eqn:E; [|lia].
  destruct (levenshteinDistance_edit_distance s1 s2) as [Hedits _].
  rewrite E in Hedits. destruct Hne.
  apply list_ascii_of_string_inj. exact (edits_none _ _ _ Hedits eq_refl).
Qed.

(** [calculateSimilarity] never returns 100.  Two strings with the same
    cleaned form, two equal strings among them, score 95, so the test for
    two empty strings, which would return 100, is never reached; any
    other pair scores less than 100, for strings of up to 2^53 characters,
    which no JavaScript string exceeds.  A rounded score of 100 needs a
    ratio of at least 99.5, which only strings of 200 characters or more
    reach. *)
Theorem calculateSimilarity_below_100 (s1 s2 : string) :
  (0 <= calculateSimilarity s1 s2)%Q
  /\ (Z.of_nat (Nat.max (String.length s1) (String.length s2)) <= 2 ^ 53 ->
      (calculateSimilarity s1 s2 < 100)%Q)
  /\ (cleanCompanyName s1 = cleanCompanyName s2 ->
      calculateSimilarity s1 s2 = 95%Q)
  /\ (round_half_up (calculateSimilarity s1 s2) = 100 ->
      (200 <= Nat.max (String.length s1) (String.length s2))%nat).
Proof.
  split; [apply calculateSimilarity_bounds|].
  destruct (String.eqb (cleanCompanyName s1) (cleanCompanyName s2)) eqn:E.
  - assert (H95 : calculateSimilarity s1 s2 = 95%Q).
    { unfold calculateSimilarity. cbv zeta. now rewrite E. }
    rewrite H95. split; [reflexivity|]. split; [reflexivity|].
    intros H. vm_compute in H. discriminate.
  - rewrite (calculateSimilarity_unfold s1 s2 E).
    assert (Hne : cleanCompanyName s1 <> cleanCompanyName s2)
      by now apply String.eqb_neq.
    destruct (ratio_of_strict
                (Nat.max (String.length s1) (String.length s2))
                (levenshteinDistance (cleanCompanyName s1) (cleanCompanyName s2))
                (levenshteinDistance_positive _ _ Hne)
                (distance_le_maxLen s1 s2)) as [Hlt Hround].
    destruct (includes s1 s2 || includes s2 s1).
    + split; [|split; [intros Heq; contradiction|]].
      * intros _. apply Qle_lt_trans with 95%Q; [apply Q.le_min_r|reflexivity].
      * intros H.
        assert (Hle : (Qmin (fadd (ratio_of (Nat.max (String.length s1)
                                              (String.length s2))
                                     (levenshteinDistance (cleanCompanyName s1)
                                        (cleanCompanyName s2))) 15) 95 <= 95)%Q)
          by apply Q.le_min_r.
        apply round_half_up_mono in Hle. rewrite H in Hle.
        vm_compute in Hle. now destruct Hle.
    + split; [exact Hlt|]. split; [intros Heq; contradiction|exact Hround].
Qed.

(** The bound on the length is needed for the doubles, although no string
    reaches it: with a length of 2^54 and a distance of 1 the quotient
    lies halfway between 1 and the double below 1, it is rounded to 1, and
    the ratio is 100. *)
Example ratio_beyond_the_lengths_of_strings :
  ratio_of (Z.to_nat (2 ^ 54)) 1 = 100%Q.
Proof.
  unfold ratio_of, Q_of_nat. rewrite Z2Nat.id by lia.
  vm_compute. reflexivity.
Qed.
